(** * Active Partition Tree Weighting bandits: a shallow embedding

    The development follows the C++ sources of the repository:
    [common.hpp] (numeric helpers), [ptw.hpp]/[ptw.cpp] (KT estimator and
    Active PTW), [ts.cpp] (PTW policies), [ucb.cpp], [kl_ucb.cpp],
    [sliding_ucb.cpp] (the UCB family), [master.cpp] (MALG) and
    [bandits.cpp] (the Bernoulli environment).

    Modelling conventions.
    - A C++ [double] is a real number of [R]: arithmetic is exact, there is
      no rounding, and a statement about a computed value holds of the
      code up to rounding.  Where the special values of IEEE arithmetic
      decide the result ([bernoulliRelEntropy], the powers of
      [exploreProb], the division by [PlotRepeats - 1] in the plot),
      doubles are the extended reals [xreal] with NaN and the two
      infinities.  Where an assertion compares computed doubles that
      rounding can move across its bound ([levelPosterior] once the model
      has been updated), nothing is concluded from exact arithmetic about
      the assertion: the callers are specified for both outcomes of the
      call.
    - [size_t] and [uint64_t] are integers of [Z] reduced modulo 2^64 after
      every operation that can leave the range.
    - A [std::vector] is a list; reading or writing past its end, which is
      undefined behaviour in C++, is the failure [OutOfBounds].  A failed
      [assert] is the failure [AssertionFailed], and [1 << m] on an [int]
      that cannot hold the result is the failure [Overflow].
    - Every pseudo-random draw is an argument of the function that draws
      it (an oracle), so that a statement quantified over these arguments
      holds for every seed. *)

From Stdlib Require Import Reals Lra Lia ZArith List.
From stdpp Require Import base option list.

Open Scope R_scope.

(** ** Outcomes of a call *)

Inductive failure : Set :=
| AssertionFailed   (* an [assert] did not hold *)
| OutOfBounds       (* an index past the end of a vector *)
| NullDereference   (* a null [unique_ptr] was dereferenced *)
| Overflow          (* a shift past the width of an [int] *)
| OutOfFuel         (* a loop did not end within the turns allowed *)
| Exited.           (* [die_with_error] ended the process *)

Inductive outcome (A : Type) : Type :=
| Done (a : A)
| Failed (f : failure).

Arguments Done {A} a.
Arguments Failed {A} f.

#[export] Instance outcome_ret : MRet outcome := fun A a => Done a.

#[export] Instance outcome_bind : MBind outcome := fun A B k c =>
  match c with
  | Done a => k a
  | Failed f => Failed f
  end.

(** [assert(b)] *)
Definition assert (b : bool) : outcome unit :=
  if b then Done tt else Failed AssertionFailed.

(** [v[i]] as an rvalue *)
Definition vget {A : Type} (v : list A) (i : nat) : outcome A :=
  match v !! i with
  | Some a => Done a
  | None => Failed OutOfBounds
  end.

(** [v[i] = a] *)
Definition vset {A : Type} (v : list A) (i : nat) (a : A) : outcome (list A) :=
  if decide (i < length v)%nat then Done (<[i := a]> v) else Failed OutOfBounds.

(** Reduction of an unsigned 64-bit result. *)
Definition u64 (z : Z) : Z := (z mod 2 ^ 64)%Z.

(** [1 << m] on a 32-bit [int]: defined while the result is representable. *)
Definition shl1_int (m : nat) : outcome Z :=
  if decide (m <= 30)%nat then Done (2 ^ Z.of_nat m)%Z else Failed Overflow.

(** Boolean views of the comparisons of [double]. *)
Definition Rltb (x y : R) : bool := if Rlt_dec x y then true else false.
Definition Rleb (x y : R) : bool := if Rle_dec x y then true else false.
Definition Reqb (x y : R) : bool := if Req_dec_T x y then true else false.

(** ** The KT estimator ([ptw.hpp]) *)

Module KT.

Definition KT_Alpha : R := 1 / 2.
Definition KT_Alpha2 : R := KT_Alpha + KT_Alpha.

(** [m_counts] is an array of two [uint64_t], indexed by the bit. *)
Record KTEstimator : Type := mkKT {
  m_log_kt : R;
  m_counts0 : Z;
  m_counts1 : Z
}.

Definition m_counts (e : KTEstimator) (b : bool) : Z :=
  if b then m_counts1 e else m_counts0 e.

(** [KTEstimator()] *)
Definition fresh : KTEstimator := mkKT 0 0 0.

(** [prob(b)] *)
Definition prob (e : KTEstimator) (b : bool) : R :=
  let num := IZR (m_counts e b) + KT_Alpha in
  let den := IZR (u64 (m_counts0 e + m_counts1 e)) + KT_Alpha2 in
  num / den.

(** [logMarginal()] *)
Definition logMarginal (e : KTEstimator) : R := m_log_kt e.

(** [update(b)]: the probability is read before the count is touched. *)
Definition update (e : KTEstimator) (b : bool) : KTEstimator :=
  let l := m_log_kt e + ln (prob e b) in
  if b then mkKT l (m_counts0 e) (u64 (m_counts1 e + 1))
  else mkKT l (u64 (m_counts0 e + 1)) (m_counts1 e).

(** [posterior()]: the pair (alpha, beta). *)
Definition posterior (e : KTEstimator) : R * R :=
  (KT_Alpha + IZR (m_counts e true), KT_Alpha + IZR (m_counts e false)).

(** Feeding a sequence of bits, first bit first. *)
Definition feed (e : KTEstimator) (bs : list bool) : KTEstimator :=
  fold_left update bs e.

(** *** What the estimator is meant to compute *)

(** Number of occurrences of [b] in [past]. *)
Definition occ (b : bool) (past : list bool) : nat :=
  count_occ Bool.bool_dec past b.

(** p(b | past) = (c_b + 1/2) / (c_0 + c_1 + 1), the counts being those of
    [past]. *)
Definition pred_prob (past : list bool) (b : bool) : R :=
  (INR (occ b past) + 1 / 2) / (INR (occ false past) + INR (occ true past) + 1).

(** Sum over [bs] of log p(b_i | past ++ b_1 .. b_(i-1)). *)
Fixpoint seq_logprob (past bs : list bool) : R :=
  match bs with
  | [] => 0
  | b :: tl => ln (pred_prob past b) + seq_logprob (past ++ [b]) tl
  end.

(** The estimator's fields agree with the true counts of [past]. *)
Definition tracks (e : KTEstimator) (past : list bool) : Prop :=
  m_counts0 e = Z.of_nat (occ false past) /\
  m_counts1 e = Z.of_nat (occ true past).

End KT.

(** ** Numeric helpers ([common.hpp]) *)

(** [logAdd(log_x, log_y)] = log(x + y).  [log1p(exp(d))] is ln (1 + exp d).
    The last line adds the smaller argument back to the difference: over
    the reals this gives the larger argument when the two are 100 or more
    apart, the doubles of the code give it up to rounding. *)
Definition logAdd (log_x log_y : R) : R :=
  let '(log_x, log_y) :=
    if Rltb log_y log_x then (log_y, log_x) else (log_x, log_y) in
  let rval := log_y - log_x in
  let rval := if Rltb rval 100 then ln (1 + exp rval) else rval in
  rval + log_x.

(** ** Active Partition Tree Weighting ([ptw.hpp], [ptw.cpp]) *)

Module PTW.

Record ActivePTWNode_t : Type := mkNode {
  m_model : list KT.KTEstimator;
  m_log_weighted : R;
  m_log_buf : R
}.

(** [ActivePTWNode_t(arms)] *)
Definition fresh_node (arms : nat) : ActivePTWNode_t :=
  mkNode (replicate arms KT.fresh) 0 0.

(** [ActivePTWNode_t::logMarginal()] *)
Definition node_logMarginal (n : ActivePTWNode_t) : R :=
  fold_left (fun rval e => rval + KT.logMarginal e) (m_model n) 0.

Record ActivePTW : Type := mkPTW {
  m_index : Z;
  m_nodes : list ActivePTWNode_t;
  m_depth : nat;
  m_arms : nat;
  LogSplitWeight : R;
  LogStopWeight : R
}.

(** [ActivePTW(depth, arms)] *)
Definition make (depth arms : nat) : ActivePTW :=
  let a := INR arms in
  let x := (a - 1) / a in
  mkPTW 0 (replicate (depth + 1) (fresh_node arms)) depth arms
        (ln (1 - x)) (ln x).

(** [logMarginal()] *)
Definition logMarginal (s : ActivePTW) : outcome R :=
  n ← vget (m_nodes s) 0; mret (m_log_weighted n).

(** The loop of [mscb]: [iters] iterations remain, [c] is the bit examined
    next and [cnt] the number of bits already passed. *)
Fixpoint mscb_loop (iters : nat) (t c : Z) (cnt : nat) : nat :=
  match iters with
  | O => cnt
  | S more =>
      let tm1 := u64 (t - 1) in
      let tm2 := u64 (t - 2) in
      let mask := u64 (Z.shiftl 1 c) in
      if decide (Z.land tm1 mask <> Z.land tm2 mask) then cnt
      else mscb_loop more t (u64 (c - 1)) (S cnt)
  end.

(** [mscb(t)] for a model of depth [depth] *)
Definition mscb (depth : nat) (t : Z) : nat :=
  if decide (t = 1%Z) then 0%nat
  else mscb_loop depth t (u64 (Z.of_nat depth - 1)) 0.

(** [n.m_model[k].update(r)] *)
Definition update_arm (n : ActivePTWNode_t) (k : nat) (r : bool)
  : outcome ActivePTWNode_t :=
  e ← vget (m_model n) k;
  mret (mkNode (<[k := KT.update e r]> (m_model n))
               (m_log_weighted n) (m_log_buf n)).

(** [for (j = first; j <= m_depth; j++) m_nodes[j] = ActivePTWNode_t(m_arms)],
    [iters] being the number of indices from [j] to [m_depth]. *)
Fixpoint reset_loop (arms iters j : nat) (ns : list ActivePTWNode_t)
  : outcome (list ActivePTWNode_t) :=
  match iters with
  | O => mret ns
  | S more => ns' ← vset ns j (fresh_node arms); reset_loop arms more (S j) ns'
  end.

Section Update.

Variable s : ActivePTW.
Variables (r : bool) (k : nat).

(** The leaf: [n.m_model[k].update(r); n.m_log_weighted = n.logMarginal()]. *)
Definition weigh_leaf (ns : list ActivePTWNode_t)
  : outcome (list ActivePTWNode_t) :=
  n ← vget ns (m_depth s);
  n ← update_arm n k r;
  vset ns (m_depth s)
       (mkNode (m_model n) (node_logMarginal n) (m_log_buf n)).

(** One turn of the bottom-up loop, at level [idx]. *)
Definition weigh (idx : nat) (ns : list ActivePTWNode_t)
  : outcome (list ActivePTWNode_t) :=
  n ← vget ns idx;
  n ← update_arm n k r;
  let lhs := LogStopWeight s + node_logMarginal n in
  let rhs := LogSplitWeight s in
  below ← vget ns (idx + 1);
  let rhs := rhs + m_log_weighted below in
  let rhs := rhs + m_log_buf n in
  vset ns idx (mkNode (m_model n) (logAdd lhs rhs) (m_log_buf n)).

(** [for (i = 1; i <= m_depth; i++) { idx = m_depth - i; ... }]: the levels
    [todo - 1], ..., [0] remain. *)
Fixpoint weigh_loop (todo : nat) (ns : list ActivePTWNode_t)
  : outcome (list ActivePTWNode_t) :=
  match todo with
  | O => mret ns
  | S idx => ns' ← weigh idx ns; weigh_loop idx ns'
  end.

(** [update(r, k)] *)
Definition update : outcome ActivePTW :=
  bound ← shl1_int (m_depth s);
  _ ← assert (bool_decide (m_index s < bound)%Z);
  let i := mscb (m_depth s) (u64 (m_index s + 1)) in
  ni ← vget (m_nodes s) i;
  ni1 ← vget (m_nodes s) (i + 1);
  ns ← vset (m_nodes s) i
        (mkNode (m_model ni) (m_log_weighted ni) (m_log_weighted ni1));
  ns ← reset_loop (m_arms s) (m_depth s - i) (i + 1) ns;
  ns ← weigh_leaf ns;
  ns ← weigh_loop (m_depth s) ns;
  mret (mkPTW (u64 (m_index s + 1)) ns (m_depth s) (m_arms s)
              (LogSplitWeight s) (LogStopWeight s)).

(** The loop of [levelPosterior]: [iters] levels remain from level [i]. *)
Fixpoint levelPosterior_loop (iters i : nat) (posterior_mass_left : R)
    (dest : list R) : outcome (list R) :=
  match iters with
  | O => mret dest
  | S more =>
      n ← vget (m_nodes s) i;
      let x := LogStopWeight s + node_logMarginal n in
      let x := x - m_log_weighted n in
      let stop_post := exp x in
      let back := posterior_mass_left * stop_post in
      let dest := dest ++ [back] in
      let posterior_mass_left := posterior_mass_left * (1 - stop_post) in
      _ ← assert (Rleb 0 back && Rleb back 1);
      let posterior_mass_left := Rmax posterior_mass_left 0 in
      _ ← assert (Rleb 0 posterior_mass_left && Rleb posterior_mass_left 1);
      levelPosterior_loop more (S i) posterior_mass_left dest
  end.

(** [levelPosterior()].  The two assertions of the loop compare computed
    doubles with 0 and 1; [stop_post] is at most 1 as long as the weighted
    value of the level is at least its stop branch, which the rounded
    [logAdd] of the code does not always keep. *)
Definition levelPosterior : outcome (list R) :=
  dest ← levelPosterior_loop (m_depth s + 1) 0 1 [];
  _ ← assert (bool_decide (length dest = (m_depth s + 1)%nat));
  mret dest.

(** [posterior(level, arm_index)] *)
Definition posterior (level arm_index : nat) : outcome (R * R) :=
  n ← vget (m_nodes s) level;
  e ← vget (m_model n) arm_index;
  mret (KT.posterior e).

End Update.

(** A run of [update] calls, one per observation (reward, arm). *)
Fixpoint run (s : ActivePTW) (obs : list (bool * nat)) : outcome ActivePTW :=
  match obs with
  | [] => mret s
  | (r, k) :: rest => s' ← update s r k; run s' rest
  end.

(** *** The update as the specification words it *)

(** A model whose vectors have the sizes the constructor gave them, of a
    depth whose powers of two fit an [int], and not yet beyond its
    horizon. *)
Record wf (s : ActivePTW) : Prop := mkWf {
  wf_depth : (1 <= m_depth s <= 30)%nat;
  wf_nodes : length (m_nodes s) = (m_depth s + 1)%nat;
  wf_models : Forall (fun n => length (m_model n) = m_arms s) (m_nodes s);
  wf_index : (0 <= m_index s <= 2 ^ Z.of_nat (m_depth s))%Z
}.

(** The node [n[j]]. *)
Definition node_at (s : ActivePTW) (j : nat) : ActivePTWNode_t :=
  default (fresh_node (m_arms s)) (m_nodes s !! j).

(** Steps 1 and 2 at level [j], [i] being mscb(t): above [i] the node is
    kept, at [i] its buffer receives the weighted value of [n[i+1]], and
    below [i] the node is fresh. *)
Definition staged (s : ActivePTW) (i j : nat) : ActivePTWNode_t :=
  if decide (j < i)%nat then node_at s j
  else if decide (j = i) then
    mkNode (m_model (node_at s i)) (m_log_weighted (node_at s i))
           (m_log_weighted (node_at s (i + 1)))
  else fresh_node (m_arms s).

(** The estimators of a node once arm [k] has seen [r]. *)
Definition observe (k : nat) (r : bool) (model : list KT.KTEstimator)
  : list KT.KTEstimator :=
  alter (fun e => KT.update e r) k model.

(** The vector of nodes after steps 1 and 2. *)
Definition staged_nodes (s : ActivePTW) (i : nat) : list ActivePTWNode_t :=
  map (staged s i) (seq 0 (m_depth s + 1)).

(** Steps 3 and 4 on the nodes from some level down to the leaf: every
    node observes (r, k); the leaf is weighted by its own marginal, a node
    above it by [logAdd] of its stop and split branches. *)
Fixpoint settle (stop split : R) (k : nat) (r : bool)
    (ns : list ActivePTWNode_t) : list ActivePTWNode_t :=
  match ns with
  | [] => []
  | n :: rest =>
      let rest' := settle stop split k r rest in
      let n1 := mkNode (observe k r (m_model n)) (m_log_weighted n)
                       (m_log_buf n) in
      let w :=
        match rest' with
        | [] => node_logMarginal n1
        | below :: _ =>
            logAdd (stop + node_logMarginal n1)
                   (split + m_log_weighted below + m_log_buf n1)
        end in
      mkNode (m_model n1) w (m_log_buf n1) :: rest'
  end.

(** The model after the update of the specification at time t = index + 1. *)
Definition update_spec (s : ActivePTW) (r : bool) (k : nat) : ActivePTW :=
  let t := (m_index s + 1)%Z in
  mkPTW t
        (settle (LogStopWeight s) (LogSplitWeight s) k r
                (staged_nodes s (mscb (m_depth s) t)))
        (m_depth s) (m_arms s) (LogSplitWeight s) (LogStopWeight s).

(** Every level's weighted value is at least its stop branch: what makes
    the stop posterior of [levelPosterior] a probability. *)
Definition dominated (s : ActivePTW) : Prop :=
  forall j, (j <= m_depth s)%nat ->
    LogStopWeight s + node_logMarginal (node_at s j)
    <= m_log_weighted (node_at s j).

(** The sum of a vector of doubles. *)
Definition Rsum (l : list R) : R := fold_right Rplus 0 l.

(** *** Prediction *)

(** [ActivePTWNode_t::prob(r, k)] *)
Definition node_prob (n : ActivePTWNode_t) (r : bool) (k : nat) : outcome R :=
  e ← vget (m_model n) k; mret (KT.prob e r).

(** The loop of [prob] that fills [probs]: [iters] levels remain from
    level [i]. *)
Fixpoint probs_loop (s : ActivePTW) (r : bool) (k : nat) (iters i : nat)
    (probs : list R) : outcome (list R) :=
  match iters with
  | O => mret probs
  | S more =>
      n ← vget (m_nodes s) i;
      p ← node_prob n r k;
      probs_loop s r k more (S i) (probs ++ [p])
  end.

(** [std::inner_product(first1, last1, first2, init)]: the second range is
    read as far as the first one goes. *)
Fixpoint inner_product (xs ys : list R) (init : R) : outcome R :=
  match xs with
  | [] => mret init
  | x :: xs' =>
      match ys with
      | [] => Failed OutOfBounds
      | y :: ys' => inner_product xs' ys' (init + x * y)
      end
  end.

(** [prob(r, k)] *)
Definition prob (s : ActivePTW) (r : bool) (k : nat) : outcome R :=
  post ← levelPosterior s;
  probs ← probs_loop s r k (length post) 0 [];
  inner_product post probs 0.

(** *** What the nodes hold *)

(** The estimators of a node once it has seen the observations [obs]. *)
Definition observe_all (obs : list (bool * nat))
    (model : list KT.KTEstimator) : list KT.KTEstimator :=
  fold_left (fun m o => observe o.2 o.1 m) obs model.

(** The rewards that arm [k] received in [obs]. *)
Definition rewards_of (k : nat) (obs : list (bool * nat)) : list bool :=
  map fst (filter (fun o : bool * nat => o.2 = k) obs).

(** Level [j] cuts time into blocks of 2^(depth - j) steps.  After [n]
    steps, the block that holds the last step began after this many
    steps. *)
Definition block_start (depth j n : nat) : nat :=
  let B := (2 ^ (depth - j))%nat in ((n - 1) / B * B)%nat.

(** The probability that the node of level [j] gives to reward [r] of
    arm [k]. *)
Definition level_prob (s : ActivePTW) (r : bool) (k j : nat) : R :=
  KT.prob (default KT.fresh (m_model (node_at s j) !! k)) r.

(** The inner product as a sum. *)
Definition dot (xs ys : list R) : R := Rsum (zip_with Rmult xs ys).

(** An estimator whose counters have not wrapped and whose log-marginal is
    not positive. *)
Definition kt_ok (bound : Z) (e : KT.KTEstimator) : Prop :=
  (0 <= KT.m_counts0 e)%Z /\ (0 <= KT.m_counts1 e)%Z /\
  (KT.m_counts0 e + KT.m_counts1 e <= bound)%Z /\
  KT.m_log_kt e <= 0.

(** A node of sound estimators whose two weights are not positive. *)
Definition node_ok (bound : Z) (n : ActivePTWNode_t) : Prop :=
  Forall (kt_ok bound) (m_model n) /\
  m_log_weighted n <= 0 /\ m_log_buf n <= 0.

(** Every node of the model is sound, and the two prior weights are the
    logarithms of probabilities that add up to at most one. *)
Definition ptw_ok (s : ActivePTW) : Prop :=
  exp (LogStopWeight s) + exp (LogSplitWeight s) <= 1 /\
  forall j, (j <= m_depth s)%nat -> node_ok (m_index s) (node_at s j).

End PTW.

(** ** Doubles with their special values *)

(** Where NaN and the infinities decide the result, a [double] is an
    extended real.  Finite arithmetic stays exact, and a zero is +0: a
    finite value divided by zero takes the sign of the dividend. *)
Module XReal.

Inductive xreal : Type :=
| NaN
| PInf
| NInf
| Fin (x : R).

(** [a < b]; false as soon as one side is NaN. *)
Definition xlt (a b : xreal) : bool :=
  match a, b with
  | NaN, _ | _, NaN => false
  | _, NInf | PInf, _ => false
  | NInf, _ | _, PInf => true
  | Fin x, Fin y => Rltb x y
  end.

(** [a == b]; false as soon as one side is NaN. *)
Definition xeq (a b : xreal) : bool :=
  match a, b with
  | PInf, PInf | NInf, NInf => true
  | Fin x, Fin y => Reqb x y
  | _, _ => false
  end.

(** [a <= b]; false as soon as one side is NaN. *)
Definition xle (a b : xreal) : bool := xlt a b || xeq a b.

(** [std::min(a, b)]: [b] when [b < a], and [a] otherwise, also when [b]
    is NaN. *)
Definition xmin (a b : xreal) : xreal := if xlt b a then b else a.

Definition xneg (a : xreal) : xreal :=
  match a with
  | NaN => NaN
  | PInf => NInf
  | NInf => PInf
  | Fin x => Fin (- x)
  end.

Definition xadd (a b : xreal) : xreal :=
  match a, b with
  | NaN, _ | _, NaN => NaN
  | PInf, NInf | NInf, PInf => NaN
  | PInf, _ | _, PInf => PInf
  | NInf, _ | _, NInf => NInf
  | Fin x, Fin y => Fin (x + y)
  end.

Definition xsub (a b : xreal) : xreal := xadd a (xneg b).

(** The infinity that has the sign of [x], for [x] not zero. *)
Definition inf_of_sign (x : R) : xreal := if Rltb x 0 then NInf else PInf.

Definition xmul (a b : xreal) : xreal :=
  match a, b with
  | NaN, _ | _, NaN => NaN
  | PInf, PInf | NInf, NInf => PInf
  | PInf, NInf | NInf, PInf => NInf
  | PInf, Fin x | Fin x, PInf => if Reqb x 0 then NaN else inf_of_sign x
  | NInf, Fin x | Fin x, NInf => if Reqb x 0 then NaN else inf_of_sign (- x)
  | Fin x, Fin y => Fin (x * y)
  end.

Definition xdiv (a b : xreal) : xreal :=
  match a, b with
  | NaN, _ | _, NaN => NaN
  | PInf, PInf | PInf, NInf | NInf, PInf | NInf, NInf => NaN
  | PInf, Fin y => inf_of_sign y
  | NInf, Fin y => xneg (inf_of_sign y)
  | Fin _, PInf | Fin _, NInf => Fin 0
  | Fin x, Fin y =>
      if Reqb y 0 then (if Reqb x 0 then NaN else inf_of_sign x)
      else Fin (x / y)
  end.

(** [std::sqrt] *)
Definition xsqrt (a : xreal) : xreal :=
  match a with
  | NaN | NInf => NaN
  | PInf => PInf
  | Fin x => if Rltb x 0 then NaN else Fin (sqrt x)
  end.

(** [std::pow(2.0, x)] for the exponents that [exploreProb] passes, whole
    and half numbers.  A power of at most 2^-1075, half the least positive
    double, rounds to 0; a power of 2^1024 or more is beyond the largest
    double and gives +infinity; in between the result is the power, up to
    rounding. *)
Definition pow2 (x : R) : xreal :=
  if Rleb x (-1075) then Fin 0
  else if Rleb 1024 x then PInf
  else Fin (Rpower 2 x).

(** [std::log] *)
Definition xlog (a : xreal) : xreal :=
  match a with
  | NaN | NInf => NaN
  | PInf => PInf
  | Fin x => if Rltb x 0 then NaN else if Reqb x 0 then NInf else Fin (ln x)
  end.

(** The closed form in the last line of [bernoulliRelEntropy]:
    [p * log(p/q) + (1-p) * log((1-p)/(1-q))]. *)
Definition relEntropy_formula (p q : xreal) : xreal :=
  xadd (xmul p (xlog (xdiv p q)))
       (xmul (xsub (Fin 1) p)
             (xlog (xdiv (xsub (Fin 1) p) (xsub (Fin 1) q)))).

(** [bernoulliRelEntropy(p, q)] ([common.hpp]) *)
Definition bernoulliRelEntropy (p q : xreal) : xreal :=
  if xlt p (Fin 0) || xlt q (Fin 0) || xlt (Fin 1) p || xlt (Fin 1) q then NaN
  else if xeq p (Fin 0) && xeq q (Fin 0) then Fin 0
  else if xeq p (Fin 1) && xeq q (Fin 1) then Fin 0
  else if xeq p (Fin 0) then xneg (xlog (xsub (Fin 1) q))
  else if xeq p (Fin 1) then xneg (xlog q)
  else if xeq q (Fin 0) || xeq q (Fin 1) then PInf
  else relEntropy_formula p q.

(** *** The table of the specification *)




End XReal.

(** ** The UCB family *)

(** The value of an [int] reward as a [double]. *)
Definition reward_value (reward : bool) : R := if reward then 1 else 0.

(** [unvisitedArms()], the same loop in the three classes: [iters] arms
    remain from [arm]. *)
Fixpoint unvisited_loop (m_arm_visits : list R) (iters arm : nat)
    (rval : list nat) : outcome (list nat) :=
  match iters with
  | O => mret rval
  | S more =>
      v ← vget m_arm_visits arm;
      unvisited_loop m_arm_visits more (S arm)
        (if Reqb v 0 then rval ++ [arm] else rval)
  end.

(** The arg-max loop of [getAction], the same in the three classes.  [best]
    starts at minus infinity, here [None]; [iters] arms remain from [i]. *)
Fixpoint best_loop (score : nat -> outcome R) (iters i : nat)
    (best : option R) (best_idx : nat) : outcome nat :=
  match iters with
  | O => mret best_idx
  | S more =>
      sc ← score i;
      if (match best with None => true | Some b => Rltb b sc end)
      then best_loop score more (S i) (Some sc) i
      else best_loop score more (S i) best best_idx
  end.

(** [unvisited[randidx(m_generator)]], [randidx] uniform on
    [0, unvisited.size()-1]: the draw [rnd] is reduced to that range. *)
Definition pick_unvisited (unvisited : list nat) (rnd : nat) : outcome nat :=
  vget unvisited (rnd mod length unvisited).

(** *** UCB1 ([ucb.cpp]) *)

Module UCB.

Record UCBStrategy : Type := mkUCB {
  m_arms : nat;
  m_arm_cumm_reward : list R;
  m_arm_visits : list R;
  m_visits : R
}.

(** [UCBStrategy(seed, n_arms)] *)
Definition make (n_arms : nat) : UCBStrategy :=
  mkUCB n_arms (replicate n_arms 0) (replicate n_arms 0) 0.

(** [reset()] *)
Definition reset (st : UCBStrategy) : UCBStrategy :=
  mkUCB (m_arms st) (replicate (m_arms st) 0) (replicate (m_arms st) 0) 0.

Definition unvisitedArms (st : UCBStrategy) : outcome (list nat) :=
  unvisited_loop (m_arm_visits st) (m_arms st) 0 [].

(** [ucb(arm)] *)
Definition ucb (st : UCBStrategy) (arm : nat) : outcome R :=
  c ← vget (m_arm_cumm_reward st) arm;
  v ← vget (m_arm_visits st) arm;
  let mean := c / v in
  let ci := sqrt ((2 * ln (m_visits st)) / v) in
  mret (mean + ci).

(** [getAction()] *)
Definition getAction (st : UCBStrategy) (rnd : nat) : outcome nat :=
  unvisited ← unvisitedArms st;
  if bool_decide (unvisited <> []) then pick_unvisited unvisited rnd
  else best_loop (ucb st) (m_arms st) 0 None 0.

(** [update(arm, reward)] *)
Definition update (st : UCBStrategy) (arm : nat) (reward : bool)
  : outcome UCBStrategy :=
  c ← vget (m_arm_cumm_reward st) arm;
  cs ← vset (m_arm_cumm_reward st) arm (c + reward_value reward);
  v ← vget (m_arm_visits st) arm;
  vs ← vset (m_arm_visits st) arm (v + 1);
  mret (mkUCB (m_arms st) cs vs (m_visits st + 1)).

End UCB.

(** *** KL-UCB ([kl_ucb.cpp]) *)

Module KLUCB.

Import XReal.

Record KLUCBStrategy : Type := mkKLUCB {
  m_arms : nat;
  m_arm_successes : list R;
  m_arm_visits : list R;
  m_visits : R
}.

(** [KLUCBStrategy(seed, n_arms)] *)
Definition make (n_arms : nat) : KLUCBStrategy :=
  mkKLUCB n_arms (replicate n_arms 0) (replicate n_arms 0) 0.

(** [reset()] *)
Definition reset (st : KLUCBStrategy) : KLUCBStrategy :=
  mkKLUCB (m_arms st) (replicate (m_arms st) 0) (replicate (m_arms st) 0) 0.

Definition unvisitedArms (st : KLUCBStrategy) : outcome (list nat) :=
  unvisited_loop (m_arm_visits st) (m_arms st) 0 [].

(** The desired precision, 1.0e-8. *)
Definition eps : R := / 10 ^ 8.

(** The do-while loop of [maxRelEntropy]; [fuel] bounds the number of
    turns, and running out of it is the failure [OutOfFuel]. *)
Fixpoint bisect (fuel : nat) (p ub low high : R) : outcome R :=
  match fuel with
  | O => Failed OutOfFuel
  | S more =>
      let q := low + (high - low) / 2 in
      let e := bernoulliRelEntropy (Fin p) (Fin q) in
      let '(low, high) := if xlt (Fin ub) e then (low, q) else (q, high) in
      if Rltb eps (high - low) then bisect more p ub low high
      else mret low
  end.

(** [maxRelEntropy(p, ub)] *)
Definition maxRelEntropy (fuel : nat) (p ub : R) : outcome R :=
  _ ← assert (Rltb 0 ub);
  bisect fuel p ub p 1.

(** [klUCB(arm)] *)
Definition klUCB (fuel : nat) (st : KLUCBStrategy) (arm : nat) : outcome R :=
  v ← vget (m_arm_visits st) arm;
  _ ← assert (Rleb 1 v);
  let t := m_visits st + 1 in
  let f := fun x : R => let lx := ln x in 1 + x * lx * lx in
  let ub := ln (f t) / v in
  sc ← vget (m_arm_successes st) arm;
  let p := sc / v in
  maxRelEntropy fuel p ub.

(** [getAction()] *)
Definition getAction (fuel : nat) (st : KLUCBStrategy) (rnd : nat)
  : outcome nat :=
  unvisited ← unvisitedArms st;
  if bool_decide (unvisited <> []) then pick_unvisited unvisited rnd
  else best_loop (klUCB fuel st) (m_arms st) 0 None 0.

(** [update(arm, reward)] *)
Definition update (st : KLUCBStrategy) (arm : nat) (reward : bool)
  : outcome KLUCBStrategy :=
  c ← vget (m_arm_successes st) arm;
  cs ← vset (m_arm_successes st) arm (c + reward_value reward);
  v ← vget (m_arm_visits st) arm;
  vs ← vset (m_arm_visits st) arm (v + 1);
  mret (mkKLUCB (m_arms st) cs vs (m_visits st + 1)).

End KLUCB.

(** *** Sliding-window UCB ([sliding_ucb.cpp]) *)

Module SlidingUCB.

Record SlidingUCBStrategy : Type := mkSW {
  m_arms : nat;
  m_window : Z;
  m_plays : list nat;
  m_rewards : list R;
  m_arm_cumm_reward : list R;
  m_arm_visits : list R
}.

(** [SlidingUCBStrategy(seed, n_arms, window)] *)
Definition make (n_arms : nat) (window : Z) : SlidingUCBStrategy :=
  mkSW n_arms window [] [] (replicate n_arms 0) (replicate n_arms 0).

(** [reset()] *)
Definition reset (st : SlidingUCBStrategy) : SlidingUCBStrategy :=
  mkSW (m_arms st) (m_window st) [] []
       (replicate (m_arms st) 0) (replicate (m_arms st) 0).

Definition unvisitedArms (st : SlidingUCBStrategy) : outcome (list nat) :=
  unvisited_loop (m_arm_visits st) (m_arms st) 0 [].

(** [ucb(arm)] *)
Definition ucb (st : SlidingUCBStrategy) (arm : nat) : outcome R :=
  c ← vget (m_arm_cumm_reward st) arm;
  v ← vget (m_arm_visits st) arm;
  let mean := c / v in
  let ci := sqrt ((2 * ln (INR (length (m_plays st)))) / v) in
  mret (mean + ci).

(** [getAction()] *)
Definition getAction (st : SlidingUCBStrategy) (rnd : nat) : outcome nat :=
  unvisited ← unvisitedArms st;
  if bool_decide (unvisited <> []) then pick_unvisited unvisited rnd
  else best_loop (ucb st) (m_arms st) 0 None 0.

(** [update(arm, reward)]: the oldest play leaves once the deque is longer
    than the window. *)
Definition update (st : SlidingUCBStrategy) (arm : nat) (reward : bool)
  : outcome SlidingUCBStrategy :=
  let plays := m_plays st ++ [arm] in
  let rewards := m_rewards st ++ [reward_value reward] in
  c ← vget (m_arm_cumm_reward st) arm;
  cs ← vset (m_arm_cumm_reward st) arm (c + reward_value reward);
  v ← vget (m_arm_visits st) arm;
  vs ← vset (m_arm_visits st) arm (v + 1);
  if bool_decide (m_window st < Z.of_nat (length plays))%Z then
    match plays, rewards with
    | front :: plays', rfront :: rewards' =>
        v ← vget vs front;
        vs ← vset vs front (v - 1);
        c ← vget cs front;
        cs ← vset cs front (c - rfront);
        mret (mkSW (m_arms st) (m_window st) plays' rewards' cs vs)
    | _, _ => Failed OutOfBounds
    end
  else mret (mkSW (m_arms st) (m_window st) plays rewards cs vs).

End SlidingUCB.

(** ** MALG over UCB1 ([master.hpp], [master.cpp]) *)

Module MALG.

Record instance_t : Type := mkInstance {
  alg : UCB.UCBStrategy;   (* alg instance *)
  s : Z;                   (* alg start time *)
  e : Z                    (* alg end time *)
}.

(** [instance_t::length()] *)
Definition length (i : instance_t) : Z := u64 (e i - s i + 1).

(** [m_instances] holds [unique_ptr]s: [None] is the null pointer. *)
Record MalgUCB : Type := mkMalg {
  m_arms : nat;
  m_n : nat;
  m_tau : Z;
  m_instances : list (option instance_t)
}.

(** [MalgUCB(seed, n_arms, depth)] *)
Definition make (n_arms depth : nat) : MalgUCB :=
  mkMalg n_arms depth 1 (replicate (depth + 1) None).

(** [rho(t)] *)
Definition rho (st : MalgUCB) (t : R) : R :=
  let a := INR (m_arms st) in
  sqrt (a / t) + a / t.

(** The body of the scheduling loop of [getAction] at level [m]; [u] is the
    draw of [uniform01_dist], made only when tau - 1 is a multiple of 2^m. *)
Definition schedule_level (u : R) (m : nat) (st : MalgUCB) : outcome MalgUCB :=
  p ← shl1_int m;
  if bool_decide ((u64 (m_tau st - 1) mod p)%Z = 0%Z) then
    let threshold := rho st (2 ^ m_n st) / rho st (2 ^ m) in
    if Rltb u threshold then
      p' ← shl1_int m;
      let start := m_tau st in
      let end_ := u64 (u64 (m_tau st + p') - 1) in
      cur ← vget (m_instances st) m;
      let inst :=
        match cur with
        | None => mkInstance (UCB.make (m_arms st)) start end_
        | Some i => mkInstance (UCB.reset (alg i)) start end_
        end in
      insts ← vset (m_instances st) m (Some inst);
      mret (mkMalg (m_arms st) (m_n st) (m_tau st) insts)
    else mret st
  else mret st.

(** [for (off = 0; off <= m_n; off++) { m = m_n - off; ... }]: the levels
    [todo - 1], ..., [0] remain; [us m] is the draw made at level [m]. *)
Fixpoint schedule_loop (us : nat -> R) (todo : nat) (st : MalgUCB)
  : outcome MalgUCB :=
  match todo with
  | O => mret st
  | S m => st' ← schedule_level (us m) m st; schedule_loop us m st'
  end.

(** The loop of [activeInstance] over [m_instances], from index [i]. *)
Fixpoint active_loop (tau : Z) (insts : list (option instance_t)) (i : Z)
    (best best_idx : Z) : Z * Z :=
  match insts with
  | [] => (best, best_idx)
  | oe :: rest =>
      match oe with
      | Some e_ =>
          if bool_decide (s e_ <= tau)%Z && bool_decide (tau <= e e_)%Z
             && bool_decide (length e_ < best)%Z
          then active_loop tau rest (i + 1)%Z (length e_) i
          else active_loop tau rest (i + 1)%Z best best_idx
      | None => active_loop tau rest (i + 1)%Z best best_idx
      end
  end.

(** [std::numeric_limits<size_t>::max()], also the value of [size_t(-1)] *)
Definition size_t_max : Z := (2 ^ 64 - 1)%Z.

(** [activeInstance()] *)
Definition activeInstance (st : MalgUCB) : outcome Z :=
  let '(best, best_idx) :=
    active_loop (m_tau st) (m_instances st) 0 size_t_max size_t_max in
  _ ← assert (bool_decide (best <> size_t_max));
  mret best_idx.

(** [m_instances[idx]->...]: the instance behind the pointer. *)
Definition deref (st : MalgUCB) (idx : Z) : outcome instance_t :=
  oi ← vget (m_instances st) (Z.to_nat idx);
  match oi with
  | Some i => mret i
  | None => Failed NullDereference
  end.

(** [getAction()]: [us] are the draws of the scheduling loop and [rnd] the
    draw of the active UCB instance. *)
Definition getAction (st : MalgUCB) (us : nat -> R) (rnd : nat)
  : outcome (nat * MalgUCB) :=
  st ← schedule_loop us (m_n st + 1) st;
  active_idx ← activeInstance st;
  i ← deref st active_idx;
  a ← UCB.getAction (alg i) rnd;
  mret (a, st).

(** [update(arm, reward)] *)
Definition update (st : MalgUCB) (arm : nat) (reward : bool)
  : outcome MalgUCB :=
  active_idx ← activeInstance st;
  i ← deref st active_idx;
  alg' ← UCB.update (alg i) arm reward;
  insts ← vset (m_instances st) (Z.to_nat active_idx)
             (Some (mkInstance alg' (s i) (e i)));
  mret (mkMalg (m_arms st) (m_n st) (u64 (m_tau st + 1)) insts).

(** *** The protocol and the windows *)

(** The draws of [uniform01_dist] lie in [0, 1). *)
Definition unit_draws (us : nat -> R) : Prop := forall m, 0 <= us m < 1.

(** [ready K D n st]: [st] is the state of a MALG over [K] arms and depth
    [D] after [n] rounds of the protocol, each a [getAction] followed by
    the [update] of the arm it returned; tau starts at 1 in [make]. *)
Inductive ready (K D : nat) : nat -> MalgUCB -> Prop :=
| ready_make : ready K D 0 (make K D)
| ready_round n st us rnd arm st1 reward st2 :
    ready K D n st ->
    unit_draws us ->
    getAction st us rnd = Done (arm, st1) ->
    update st1 arm reward = Done st2 ->
    ready K D (S n) st2.

(** The instance at index [idx] is installed and its window contains tau. *)
Definition covering (st : MalgUCB) (idx : nat) (i : instance_t) : Prop :=
  m_instances st !! idx = Some (Some i) /\ (s i <= m_tau st <= e i)%Z.

(** The top-level instance of the period of 2^D steps that contains step
    [n + 1]. *)
Definition top_window (D : nat) (n : Z) (i : instance_t) : Prop :=
  s i = (n - n mod 2 ^ Z.of_nat D + 1)%Z /\
  e i = (s i + 2 ^ Z.of_nat D - 1)%Z.

(** The state before the call of [getAction] number [n + 1]. *)
Definition malg_inv (K D : nat) (n : Z) (st : MalgUCB) : Prop :=
  m_arms st = K /\ m_n st = D /\ m_tau st = (n + 1)%Z /\
  Datatypes.length (m_instances st) = (D + 1)%nat /\
  ((n mod 2 ^ Z.of_nat D)%Z <> 0%Z ->
   exists i, m_instances st !! D = Some (Some i) /\ top_window D n i).

(** The state after the scheduling loop of that call. *)
Definition malg_scheduled (K D : nat) (n : Z) (st : MalgUCB) : Prop :=
  m_arms st = K /\ m_n st = D /\ m_tau st = (n + 1)%Z /\
  Datatypes.length (m_instances st) = (D + 1)%nat /\
  exists i, m_instances st !! D = Some (Some i) /\ top_window D n i.

(** What [active_loop] maintains over the instances [l] seen so far:
    [best] is the least length of a covering window, if any, and
    [best_idx] the index of a window that has it. *)
Definition least_cover (tau : Z) (l : list (option instance_t))
    (best best_idx : Z) : Prop :=
  (best <= size_t_max)%Z /\
  ((best < size_t_max)%Z ->
   exists i, l !! Z.to_nat best_idx = Some (Some i) /\
     (s i <= tau <= e i)%Z /\ length i = best) /\
  (forall j i, l !! j = Some (Some i) -> (s i <= tau <= e i)%Z ->
     (best <= length i)%Z).

(** The state once level [m] has been (re)installed at the current tau,
    with the window [tau, tau + 2^m - 1]. *)
Definition install (st : MalgUCB) (m : nat) : MalgUCB :=
  let a :=
    match m_instances st !! m with
    | Some (Some i) => UCB.reset (alg i)
    | _ => UCB.make (m_arms st)
    end in
  mkMalg (m_arms st) (m_n st) (m_tau st)
         (<[m := Some (mkInstance a (m_tau st)
                                  (m_tau st + 2 ^ Z.of_nat m - 1)%Z)]>
            (m_instances st)).

(** A UCB1 instance over [K] arms, its vectors of the constructor's size. *)
Definition alg_ok (K : nat) (a : UCB.UCBStrategy) : Prop :=
  UCB.m_arms a = K /\
  Datatypes.length (UCB.m_arm_cumm_reward a) = K /\
  Datatypes.length (UCB.m_arm_visits a) = K.

(** Every installed instance is a UCB1 over the arms of the MALG. *)
Definition insts_ok (K : nat) (st : MalgUCB) : Prop :=
  m_arms st = K /\
  forall j i, m_instances st !! j = Some (Some i) -> alg_ok K (alg i).

(** Every installed window is a block of its level: the instance of level
    [m] runs over the 2^m steps that begin at a step [s] with [s - 1] a
    multiple of 2^m, and it began at or before tau. *)
Definition dyadic (st : MalgUCB) : Prop :=
  forall m i, m_instances st !! m = Some (Some i) ->
    ((s i - 1) mod 2 ^ Z.of_nat m = 0)%Z /\
    e i = (s i + 2 ^ Z.of_nat m - 1)%Z /\
    (1 <= s i <= m_tau st)%Z.

End MALG.


(** ** The Bernoulli environment ([bandits.hpp], [bandits.cpp]) *)

Module Bandits.

(** The interface [ChangeSchedule]: its two virtual functions. *)
Record ChangeSchedule : Type := mkSchedule {
  changepoint : Z -> bool;
  customArmInitialisation : Z -> list R
}.

(** [NoChangeSchecule] *)
Definition NoChangeSchecule : ChangeSchedule :=
  mkSchedule (fun _ => false) (fun _ => []).

(** [VectorAbruptChangeSchedule(times)]; [GeometricAbruptChangeSchedule]
    answers in the same way from the times its constructor has drawn. *)
Definition VectorAbruptChangeSchedule (times : list Z) : ChangeSchedule :=
  mkSchedule (fun t => bool_decide (t ∈ times)) (fun _ => []).

(** [TwoPhaseChangeSchedule(max_trials, thetas_seg1, thetas_seg2)] *)
Definition TwoPhaseChangeSchedule (max_trials : Z)
    (thetas_seg1 thetas_seg2 : list R) : ChangeSchedule :=
  let m_halfway := (max_trials / 2)%Z in
  mkSchedule
    (fun t => bool_decide (t = m_halfway) || bool_decide (t = 1%Z))
    (fun t => if bool_decide (t < m_halfway)%Z then thetas_seg1
              else thetas_seg2).

Record StochasticBanditProblem : Type := mkProblem {
  m_change_schedule : ChangeSchedule;
  m_num_trials : Z;
  m_cumm_reward : R;
  m_thetas : list R;
  m_exp_cumm_reward : R
}.

(** The loop of [std::max_element]: [largest] is the index of the largest
    element so far, [vlargest] its value, [i] the index of the head of
    [rest]. *)
Fixpoint max_element_loop (largest : nat) (vlargest : R) (i : nat)
    (rest : list R) : nat :=
  match rest with
  | [] => largest
  | x :: tl =>
      if Rltb vlargest x then max_element_loop i x (S i) tl
      else max_element_loop largest vlargest (S i) tl
  end.

(** [bestArm()]: the distance from [begin()] to [max_element]; on an empty
    vector [max_element] is [end()], at distance 0. *)
Definition bestArm (bp : StochasticBanditProblem) : nat :=
  match m_thetas bp with
  | [] => 0%nat
  | x :: tl => max_element_loop 0 x 1 tl
  end.

(** [reset()]: [fresh i] is the draw from Uniform(0,1) stored at index [i]. *)
Definition reset (bp : StochasticBanditProblem) (fresh : nat -> R)
  : StochasticBanditProblem :=
  mkProblem (m_change_schedule bp) (m_num_trials bp) (m_cumm_reward bp)
            (map fresh (seq 0 (Datatypes.length (m_thetas bp))))
            (m_exp_cumm_reward bp).

(** [StochasticBanditProblem(n_arms, seed, cs)] *)
Definition make (n_arms : nat) (cs : ChangeSchedule) (fresh : nat -> R)
  : StochasticBanditProblem :=
  reset (mkProblem cs 0 0 (replicate n_arms 0) 0) fresh.

(** [pull(arm_index)]: [flip] is the outcome of the Bernoulli coin and
    [fresh] the uniform draws of a [reset()], used only at a change point
    without a custom initialisation. *)
Definition pull (bp : StochasticBanditProblem) (arm_index : nat)
    (flip : bool) (fresh : nat -> R) : outcome (R * StochasticBanditProblem) :=
  if bool_decide (Datatypes.length (m_thetas bp) <= arm_index)%nat
  then Failed Exited
  else
    let num_trials := u64 (m_num_trials bp + 1) in
    let r := if flip then 1 else 0 in
    let cumm_reward := m_cumm_reward bp + r in
    let ba := bestArm bp in
    theta_ba ← vget (m_thetas bp) ba;
    let exp_cumm_reward := m_exp_cumm_reward bp + theta_ba in
    let bp1 := mkProblem (m_change_schedule bp) num_trials cumm_reward
                         (m_thetas bp) exp_cumm_reward in
    if changepoint (m_change_schedule bp) num_trials then
      let new_thetas :=
        customArmInitialisation (m_change_schedule bp) num_trials in
      if bool_decide (new_thetas = []) then mret (r, reset bp1 fresh)
      else
        _ ← assert (bool_decide (Datatypes.length new_thetas
                                 = Datatypes.length (m_thetas bp)));
        mret (r, mkProblem (m_change_schedule bp) num_trials cumm_reward
                           new_thetas exp_cumm_reward)
    else mret (r, bp1).

(** [bestHindsightExpectedReturn()] *)
Definition bestHindsightExpectedReturn (bp : StochasticBanditProblem) : R :=
  m_exp_cumm_reward bp.

(** [cummulativeReward()] *)
Definition cummulativeReward (bp : StochasticBanditProblem) : R :=
  m_cumm_reward bp.

(** [trials()] *)
Definition trials (bp : StochasticBanditProblem) : Z := m_num_trials bp.

(** [arms()] *)
Definition arms (bp : StochasticBanditProblem) : nat :=
  Datatypes.length (m_thetas bp).

(** One pull as the driver makes it: the arm, the coin and the uniform
    draws a change point may consume. *)
Record pull_input : Type := mkPull {
  pull_arm : nat;
  pull_flip : bool;
  pull_fresh : nat -> R
}.

(** A sequence of pulls. *)
Fixpoint pulls (bp : StochasticBanditProblem) (ins : list pull_input)
  : outcome StochasticBanditProblem :=
  match ins with
  | [] => mret bp
  | i :: rest =>
      '(_, bp') ← pull bp (pull_arm i) (pull_flip i) (pull_fresh i);
      pulls bp' rest
  end.

(** The coin of [pull] can come up [flip] under Bernoulli(theta). *)
Definition realisable (theta : R) (flip : bool) : Prop :=
  if flip then 0 < theta else theta < 1.

(** The expected reward of a sequence of pulls: the sum, over the pulls, of
    the mean of the pulled arm at the time of the pull. *)
Fixpoint expected_reward (bp : StochasticBanditProblem) (ins : list pull_input)
  : R :=
  match ins with
  | [] => 0
  | i :: rest =>
      match pull bp (pull_arm i) (pull_flip i) (pull_fresh i) with
      | Done (_, bp') =>
          nth (pull_arm i) (m_thetas bp) 0 + expected_reward bp' rest
      | Failed _ => 0
      end
  end.

(** A schedule whose custom initialisations, where it changes, are empty
    or have one mean per arm. *)
Definition schedule_ok (cs : ChangeSchedule) (n_arms : nat) : Prop :=
  forall t, changepoint cs t = true ->
    customArmInitialisation cs t = [] \/
    Datatypes.length (customArmInitialisation cs t) = n_arms.

(** [idx] is the position of the first largest element of [v]. *)
Definition first_argmax (v : list R) (idx : nat) : Prop :=
  exists vmax, v !! idx = Some vmax /\
    (forall j y, v !! j = Some y -> y <= vmax) /\
    (forall j y, (j < idx)%nat -> v !! j = Some y -> y < vmax).

(** The do-while loop of [GeometricAbruptChangeSchedule(p, max_trials,
    seed)]: [incs] are the draws of [gdist] still to come, [upto] is the
    running sum and [cpts] the set [m_cpts], as the list of its
    insertions.  A loop that asks for a draw when none is left fails with
    [OutOfFuel]. *)
Fixpoint geometric_loop (max_trials : Z) (incs : list Z) (upto : Z)
    (cpts : list Z) : outcome (list Z) :=
  match incs with
  | [] => Failed OutOfFuel
  | inc :: rest =>
      let upto := u64 (upto + inc) in
      let cpts :=
        if bool_decide (upto < max_trials)%Z then cpts ++ [upto] else cpts in
      if bool_decide (upto < max_trials)%Z
      then geometric_loop max_trials rest upto cpts
      else mret cpts
  end.

(** [GeometricAbruptChangeSchedule(p, max_trials, seed)] with its
    [changepoint]; the initialisation is the default of the interface. *)
Definition GeometricAbruptChangeSchedule (max_trials : Z) (incs : list Z)
  : outcome ChangeSchedule :=
  cpts ← geometric_loop max_trials incs 0 [];
  mret (mkSchedule (fun t => bool_decide (t ∈ cpts)) (fun _ => [])).

(** The running sums of the draws, from [upto]. *)
Fixpoint running_sums (upto : Z) (incs : list Z) : list Z :=
  match incs with
  | [] => []
  | inc :: rest => (upto + inc)%Z :: running_sums (upto + inc)%Z rest
  end.

(** The sum of the draws. *)
Definition total (incs : list Z) : Z := fold_right Z.add 0%Z incs.

(** The number of coins of [ins] that came up 1. *)
Definition heads (ins : list pull_input) : nat :=
  Datatypes.length (filter (fun i => pull_flip i = true) ins).

End Bandits.

(** ** Policies over Active PTW ([ts.hpp], [ts.cpp]) *)

Module TS.

Record ActivePTWBanditStrategy : Type := mkAPTW {
  m_model : PTW.ActivePTW;
  m_arms : nat
}.

(** [ActivePTWBanditStrategy(seed, n_arms)]: the model is [m_model(30, n_arms)]. *)
Definition make (n_arms : nat) : ActivePTWBanditStrategy :=
  mkAPTW (PTW.make 30 n_arms) n_arms.

(** [ActivePTWBanditStrategy::update(arm, reward)] *)
Definition update (st : ActivePTWBanditStrategy) (arm : nat) (reward : bool)
  : outcome ActivePTWBanditStrategy :=
  model ← PTW.update (m_model st) reward arm;
  mret (mkAPTW model (m_arms st)).

(** [ActivePTWBanditStrategy::levelPosterior()] *)
Definition levelPosterior (st : ActivePTWBanditStrategy) : outcome (list R) :=
  PTW.levelPosterior (m_model st).

(** The policy passes (arm, reward) to the model as (reward, arm). *)
Definition swap_obs (o : nat * bool) : bool * nat := (o.2, o.1).

(** A run of [update] calls, one per (arm, reward). *)
Fixpoint updates (st : ActivePTWBanditStrategy) (obs : list (nat * bool))
  : outcome ActivePTWBanditStrategy :=
  match obs with
  | [] => mret st
  | (arm, reward) :: rest => st' ← update st arm reward; updates st' rest
  end.

Record ParanoidPTWBanditStrategy : Type := mkParanoid {
  p_arms : nat;
  m_aptw : ActivePTWBanditStrategy;
  m_trials : Z
}.

(** [ParanoidPTWBanditStrategy(seed, n_arms)] *)
Definition make_paranoid (n_arms : nat) : ParanoidPTWBanditStrategy :=
  mkParanoid n_arms (make n_arms) 0.

(** [ParanoidPTWBanditStrategy::update(arm, reward)] *)
Definition update_paranoid (st : ParanoidPTWBanditStrategy) (arm : nat)
    (reward : bool) : outcome ParanoidPTWBanditStrategy :=
  aptw ← update (m_aptw st) arm reward;
  mret (mkParanoid (p_arms st) aptw (u64 (m_trials st + 1))).

(** A run of [ParanoidPTWBanditStrategy::update] calls. *)
Fixpoint updates_paranoid (st : ParanoidPTWBanditStrategy)
    (obs : list (nat * bool)) : outcome ParanoidPTWBanditStrategy :=
  match obs with
  | [] => mret st
  | (arm, reward) :: rest =>
      st' ← update_paranoid st arm reward; updates_paranoid st' rest
  end.

(** The value of [exploreProb] before [std::min] and the assertion:
    [pow(2.0, -k) * (pow(2.0, k/2) - k * log(2.0))], [k] a [double].  The
    two powers leave the range of the doubles for large [k], so the value
    is a double with its special values. *)
Definition explore_rate (log2_segment_size : nat) : XReal.xreal :=
  let k := INR log2_segment_size in
  XReal.xmul (XReal.pow2 (- k))
             (XReal.xsub (XReal.pow2 (k / 2)) (XReal.Fin (k * ln 2))).

(** [ParanoidPTWBanditStrategy::exploreProb(log2_segment_size)] *)
Definition exploreProb (log2_segment_size : nat) : outcome XReal.xreal :=
  let C := XReal.Fin 1 in
  let prob := explore_rate log2_segment_size in
  let prob := XReal.xmul C prob in
  let prob := XReal.xmin (XReal.Fin 1) prob in
  _ ← assert (XReal.xle (XReal.Fin 0) prob && XReal.xle prob (XReal.Fin 1));
  mret prob.

(** *** Sampling *)

(** [genBetaSample(generator, alpha, beta)]: [draws] are the pairs (x, y)
    that the two gamma distributions give, turn by turn; the loop goes on
    while [z != z], that is while z is NaN.  A loop that asks for a pair
    when none is left fails with [OutOfFuel]. *)
Fixpoint genBetaSample (draws : list (R * R)) : outcome XReal.xreal :=
  match draws with
  | [] => Failed OutOfFuel
  | (x, y) :: rest =>
      let z := XReal.xdiv (XReal.Fin x)
                          (XReal.xadd (XReal.Fin x) (XReal.Fin y)) in
      if negb (XReal.xeq z z) then genBetaSample rest else mret z
  end.

(** The arg-max loop of the three [getAction]: [params i] are the
    parameters (alpha, beta) of arm [i], and [sample i (alpha, beta)] is
    the value that [genBetaSample] returns for it. *)
Definition thompson_loop (params : nat -> outcome (R * R)) (arms : nat)
    (sample : nat -> R * R -> R) : outcome nat :=
  best_loop (fun i => x ← params i; mret (sample i x)) arms 0 None 0.

(** *** Thompson sampling on stationary arms *)

Record ThompsonSamplingStrategy : Type := mkTS {
  ts_model : list KT.KTEstimator
}.

(** [ThompsonSamplingStrategy(seed, n_arms)] *)
Definition make_ts (n_arms : nat) : ThompsonSamplingStrategy :=
  mkTS (replicate n_arms KT.fresh).

(** [ThompsonSamplingStrategy::getAction()] *)
Definition getAction_ts (st : ThompsonSamplingStrategy)
    (sample : nat -> R * R -> R) : outcome nat :=
  thompson_loop (fun i => e ← vget (ts_model st) i; mret (KT.posterior e))
                (Datatypes.length (ts_model st)) sample.

(** [ThompsonSamplingStrategy::update(arm, reward)] *)
Definition update_ts (st : ThompsonSamplingStrategy) (arm : nat)
    (reward : bool) : outcome ThompsonSamplingStrategy :=
  e ← vget (ts_model st) arm;
  m ← vset (ts_model st) arm (KT.update e reward);
  mret (mkTS m).

(** A run of [ThompsonSamplingStrategy::update] calls. *)
Fixpoint updates_ts (st : ThompsonSamplingStrategy) (obs : list (nat * bool))
  : outcome ThompsonSamplingStrategy :=
  match obs with
  | [] => mret st
  | (arm, reward) :: rest => st' ← update_ts st arm reward; updates_ts st' rest
  end.

(** *** The actions of the PTW policies *)

(** [ActivePTWBanditStrategy::levelPosteriorSample()]: [pick lp] is the
    index that [discrete_distribution] draws for the weights [lp]. *)
Definition levelPosteriorSample (st : ActivePTWBanditStrategy)
    (pick : list R -> nat) : outcome nat :=
  lp ← PTW.levelPosterior (m_model st);
  mret (pick lp).

(** [ActivePTWBanditStrategy::getAction()] *)
Definition getAction (st : ActivePTWBanditStrategy) (pick : list R -> nat)
    (sample : nat -> R * R -> R) : outcome nat :=
  level ← levelPosteriorSample st pick;
  thompson_loop (PTW.posterior (m_model st) level) (m_arms st) sample.

(** [while (static_cast<double>(k) > clip) k--], [k] a [size_t]; [fuel]
    bounds the number of turns. *)
Fixpoint clip_loop (fuel : nat) (k : Z) (clip : R) : outcome Z :=
  match fuel with
  | O => Failed OutOfFuel
  | S more =>
      if Rltb clip (IZR k) then clip_loop more (u64 (k - 1)) clip
      else mret k
  end.

(** [randidx(m_generator)] for [randidx(0, m_arms - 1)]: the draw [rnd]
    reduced to the range, which is all of [size_t] when [m_arms] is 0. *)
Definition randidx (arms rnd : nat) : nat :=
  if decide (arms = 0)%nat then rnd else (rnd mod arms)%nat.

(** [ParanoidPTWBanditStrategy::getAction()], [UseUniformExploration]
    being [true]: [u] is the draw of [uniform01_dist]. *)
Definition getAction_paranoid (fuel : nat) (st : ParanoidPTWBanditStrategy)
    (pick : list R -> nat) (u : R) (rnd : nat) (sample : nat -> R * R -> R)
  : outcome nat :=
  level ← levelPosteriorSample (m_aptw st) pick;
  lp ← levelPosterior (m_aptw st);
  let k := u64 (u64 (Z.of_nat (Datatypes.length lp) - 1) - Z.of_nat level) in
  let clip := ln (IZR (u64 (m_trials st + 1))) + 1 in
  k ← clip_loop fuel k clip;
  p ← exploreProb (Z.to_nat k);
  if XReal.xlt (XReal.Fin u) p then mret (randidx (p_arms st) rnd)
  else thompson_loop (PTW.posterior (m_model (m_aptw st)) level)
                     (p_arms st) sample.

(** The parameters of the beta posterior after the rewards [rs]. *)
Definition beta_params (rs : list bool) : R * R :=
  (1 / 2 + INR (KT.occ true rs), 1 / 2 + INR (KT.occ false rs)).

End TS.

(** ** The policy interface and the interaction loop ([bandits.hpp], [main.cpp]) *)

Module Policy.

(** The abstract class [BanditStrategy].  [oracle] is the type of the
    pseudo-random draws that one call of [getAction] may consume. *)
Class BanditStrategy (S : Type) : Type := {
  oracle : Type;
  getAction : S -> oracle -> outcome (nat * S);
  update : S -> nat -> bool -> outcome S
}.

#[export] Instance ucb_strategy : BanditStrategy UCB.UCBStrategy := {
  oracle := nat;
  getAction st rnd := a ← UCB.getAction st rnd; mret (a, st);
  update := UCB.update
}.

#[export] Instance klucb_strategy (fuel : nat)
  : BanditStrategy KLUCB.KLUCBStrategy := {
  oracle := nat;
  getAction st rnd := a ← KLUCB.getAction fuel st rnd; mret (a, st);
  update := KLUCB.update
}.

#[export] Instance sliding_ucb_strategy
  : BanditStrategy SlidingUCB.SlidingUCBStrategy := {
  oracle := nat;
  getAction st rnd := a ← SlidingUCB.getAction st rnd; mret (a, st);
  update := SlidingUCB.update
}.

#[export] Instance malg_strategy : BanditStrategy MALG.MalgUCB := {
  oracle := (nat -> R) * nat;
  getAction st o := MALG.getAction st o.1 o.2;
  update := MALG.update
}.

(** The agent-environment loop of [textMode]: the arm [getAction] returns
    is the arm passed to [update], with the reward of the round.  The
    result lists the arms in the order they were chosen. *)
Fixpoint play {S : Type} {P : BanditStrategy S} (st : S)
    (rounds : list (oracle * bool)) : outcome (list nat * S) :=
  match rounds with
  | [] => mret ([], st)
  | (o, reward) :: rest =>
      '(arm, st) ← getAction st o;
      st ← update st arm reward;
      '(arms, st) ← play st rest;
      mret (arm :: arms, st)
  end.

(** Every arm of [0, K) occurs among the arms chosen. *)
Definition covers (K : nat) (chosen : list nat) : Prop :=
  forall a, (a < K)%nat -> a ∈ chosen.

(** The first K calls of [getAction] of a policy started in [st] choose
    every arm, whatever the draws and the rewards. *)
Definition explores_first {S : Type} {P : BanditStrategy S} (K : nat) (st : S)
  : Prop :=
  forall rounds : list (oracle * bool), length rounds = K ->
    exists chosen st', play st rounds = Done (chosen, st') /\ covers K chosen.

(** The arm [a] is marked visited exactly when it has been chosen. *)
Definition marks (m_arm_visits : list R) (chosen : list nat) (a : nat) : Prop :=
  exists v, m_arm_visits !! a = Some v /\
    (((a ∈ chosen) /\ v = 1) \/ ((a ∉ chosen) /\ v = 0)).

(** The test of [unvisitedArms] on arm [a]: its visit count is zero. *)
Definition is_unvisited (m_arm_visits : list R) (a : nat) : bool :=
  match m_arm_visits !! a with
  | Some v => Reqb v 0
  | None => false
  end.

(** The state of UCB1 after the distinct arms [chosen] were played. *)
Definition ucb_inv (K : nat) (st : UCB.UCBStrategy) (chosen : list nat) : Prop :=
  UCB.m_arms st = K /\
  length (UCB.m_arm_cumm_reward st) = K /\
  length (UCB.m_arm_visits st) = K /\
  forall a, (a < K)%nat -> marks (UCB.m_arm_visits st) chosen a.

(** The state of KL-UCB after the distinct arms [chosen] were played. *)
Definition klucb_inv (K : nat) (st : KLUCB.KLUCBStrategy) (chosen : list nat)
  : Prop :=
  KLUCB.m_arms st = K /\
  length (KLUCB.m_arm_successes st) = K /\
  length (KLUCB.m_arm_visits st) = K /\
  forall a, (a < K)%nat -> marks (KLUCB.m_arm_visits st) chosen a.

(** The state of Sliding-UCB after the distinct arms [chosen] were played
    and none has left the window. *)
Definition sw_inv (K : nat) (st : SlidingUCB.SlidingUCBStrategy)
    (chosen : list nat) : Prop :=
  SlidingUCB.m_arms st = K /\
  length (SlidingUCB.m_arm_cumm_reward st) = K /\
  length (SlidingUCB.m_arm_visits st) = K /\
  (forall a, (a < K)%nat -> marks (SlidingUCB.m_arm_visits st) chosen a) /\
  SlidingUCB.m_plays st = chosen /\
  length (SlidingUCB.m_rewards st) = length chosen /\
  Forall (fun a => (a < K)%nat) chosen /\
  (Z.of_nat K - 1 <= SlidingUCB.m_window st)%Z.

End Policy.
(** ** What the statistics of the policies stand for *)

Module Stats.

(** The number of rounds of [obs] in which arm [a] was played. *)
Definition visits_of (a : nat) (obs : list (nat * bool)) : nat :=
  length (filter (fun o : nat * bool => o.1 = a) obs).

(** The number of those rounds that paid the reward 1. *)
Definition successes_of (a : nat) (obs : list (nat * bool)) : nat :=
  length (filter (fun o : nat * bool => o.1 = a /\ o.2 = true) obs).

(** The vectors [visits] and [cum] hold, for each of the [K] arms, the
    counts of the rounds [obs]. *)
Definition counts (K : nat) (visits cum : list R) (obs : list (nat * bool))
  : Prop :=
  length visits = K /\ length cum = K /\
  forall a, (a < K)%nat ->
    visits !! a = Some (INR (visits_of a obs)) /\
    cum !! a = Some (INR (successes_of a obs)).

(** After the rounds [obs], an arm that has visits is played only if
    every arm has some. *)
Definition explores_before_exploiting (K : nat) (obs : list (nat * bool))
    (a : nat) : Prop :=
  visits_of a obs = 0%nat \/ forall b, (b < K)%nat -> visits_of b obs <> 0%nat.

(** The last [W] rounds of [obs]: what a window of size [W] holds. *)
Definition lastn (W : Z) (obs : list (nat * bool)) : list (nat * bool) :=
  drop (length obs - Z.to_nat W) obs.

(** The state of UCB1 after the rounds [obs]. *)
Definition ucb_stats (K : nat) (st : UCB.UCBStrategy) (obs : list (nat * bool))
  : Prop :=
  UCB.m_arms st = K /\ UCB.m_visits st = INR (length obs) /\
  counts K (UCB.m_arm_visits st) (UCB.m_arm_cumm_reward st) obs.

(** The state of KL-UCB after the rounds [obs]. *)
Definition klucb_stats (K : nat) (st : KLUCB.KLUCBStrategy)
    (obs : list (nat * bool)) : Prop :=
  KLUCB.m_arms st = K /\ KLUCB.m_visits st = INR (length obs) /\
  counts K (KLUCB.m_arm_visits st) (KLUCB.m_arm_successes st) obs.

(** The state of Sliding-UCB with window [W] after the rounds [obs]. *)
Definition sw_stats (K : nat) (W : Z) (st : SlidingUCB.SlidingUCBStrategy)
    (obs : list (nat * bool)) : Prop :=
  SlidingUCB.m_arms st = K /\ SlidingUCB.m_window st = W /\
  Forall (fun o : nat * bool => (o.1 < K)%nat) obs /\
  SlidingUCB.m_plays st = map fst (lastn W obs) /\
  SlidingUCB.m_rewards st = map (fun o => reward_value o.2) (lastn W obs) /\
  counts K (SlidingUCB.m_arm_visits st) (SlidingUCB.m_arm_cumm_reward st)
         (lastn W obs).

(** The index that [ucb(i)] computes from the vectors of UCB1 ... *)
Definition ucb_index (st : UCB.UCBStrategy) (i : nat) : R :=
  nth i (UCB.m_arm_cumm_reward st) 0 / nth i (UCB.m_arm_visits st) 0
  + sqrt (2 * ln (UCB.m_visits st) / nth i (UCB.m_arm_visits st) 0).

(** ... and from those of Sliding-UCB. *)
Definition sw_index (st : SlidingUCB.SlidingUCBStrategy) (i : nat) : R :=
  nth i (SlidingUCB.m_arm_cumm_reward st) 0
  / nth i (SlidingUCB.m_arm_visits st) 0
  + sqrt (2 * ln (INR (length (SlidingUCB.m_plays st)))
          / nth i (SlidingUCB.m_arm_visits st) 0).

(** [a] is the first arm of [0, K) whose value under [f] is the largest. *)
Definition first_best (K : nat) (f : nat -> R) (a : nat) : Prop :=
  (a < K)%nat /\ (forall j, (j < K)%nat -> f j <= f a) /\
  (forall j, (j < a)%nat -> f j < f a).

(** The test [e > ub] of [maxRelEntropy] at the point [q]: the relative
    entropy from [p] to [q] exceeds the bound. *)
Definition exceeds (p ub q : R) : bool :=
  XReal.xlt (XReal.Fin ub)
            (XReal.bernoulliRelEntropy (XReal.Fin p) (XReal.Fin q)).

End Stats.

(** ** The statistics of the plot ([main.cpp]) *)

Module Plot.

(** [for (j = 0; j < PlotRepeats; j++) total += term(j)]: [iters] turns
    remain from [j]. *)
Fixpoint total_loop (term : nat -> outcome R) (iters j : nat) (total : R)
  : outcome R :=
  match iters with
  | O => mret total
  | S more => x ← term j; total_loop term more (S j) (total + x)
  end.

(** [for (t = 1; t <= Trials; t++) out.push_back(body(t))]: [iters] turns
    remain from [t]. *)
Fixpoint each_step {A : Type} (body : nat -> outcome A) (iters t : nat)
    (out : list A) : outcome (list A) :=
  match iters with
  | O => mret out
  | S more => x ← body t; each_step body more (S t) (out ++ [x])
  end.

(** The mean regret of one agent at time [t]; [regrets] is [regrets[i]],
    one vector of regrets per repeat.  [main] refuses a [PlotRepeats] below
    1, so the division is by a positive number. *)
Definition mean_at (regrets : list (list R)) (PlotRepeats t : nat)
  : outcome R :=
  total ← total_loop (fun j => row ← vget regrets j; vget row (t - 1))
                     PlotRepeats 0 0;
  mret (total / INR PlotRepeats).

(** [means[i]] *)
Definition means_of (regrets : list (list R)) (PlotRepeats Trials : nat)
  : outcome (list R) :=
  each_step (mean_at regrets PlotRepeats) Trials 1 [].

(** The half-width of the interval at time [t]; the mean is read at index
    [j], the repeat, as the source has it.  With one repeat the variance is
    a division by zero, so the half-width is a double with its special
    values. *)
Definition ci_at (regrets : list (list R)) (means : list R)
    (PlotRepeats t : nat) : outcome XReal.xreal :=
  total ← total_loop (fun j => row ← vget regrets j;
                               x ← vget row (t - 1);
                               m ← vget means j;
                               mret ((x - m) ^ 2))
                     PlotRepeats 0 0;
  let repeats := INR PlotRepeats in
  let var := XReal.xdiv (XReal.Fin total) (XReal.Fin (repeats - 1)) in
  let stddev := XReal.xsqrt var in
  let stderr := XReal.xdiv stddev (XReal.xsqrt (XReal.Fin repeats)) in
  mret (XReal.xmul (XReal.Fin (196 / 100)) stderr).

(** [cis[i]] *)
Definition cis_of (regrets : list (list R)) (means : list R)
    (PlotRepeats Trials : nat) : outcome (list XReal.xreal) :=
  each_step (ci_at regrets means PlotRepeats) Trials 1 [].

(** The regret of repeat [j] at the time of index [t]. *)
Definition regret_at (regrets : list (list R)) (j t : nat) : R :=
  nth t (nth j regrets []) 0.

End Plot.

(** * Proofs *)

(** ** Comparisons and vectors *)

Lemma Rltb_true x y : Rltb x y = true <-> x < y.
Proof. unfold Rltb. destruct (Rlt_dec x y); split; intros; try done. Qed.

Lemma Rltb_false x y : Rltb x y = false <-> y <= x.
Proof. unfold Rltb. destruct (Rlt_dec x y); split; intros; try done; lra. Qed.

Lemma Rleb_true x y : Rleb x y = true <-> x <= y.
Proof. unfold Rleb. destruct (Rle_dec x y); split; intros; try done. Qed.

Lemma Rleb_false x y : Rleb x y = false <-> y < x.
Proof. unfold Rleb. destruct (Rle_dec x y); split; intros; try done; lra. Qed.

Lemma Reqb_true x y : Reqb x y = true <-> x = y.
Proof. unfold Reqb. destruct (Req_dec_T x y); split; intros; try done. Qed.

Lemma Reqb_false x y : Reqb x y = false <-> x <> y.
Proof. unfold Reqb. destruct (Req_dec_T x y); split; intros; try done. Qed.

Lemma vget_Done {A} (v : list A) i a : vget v i = Done a <-> v !! i = Some a.
Proof. unfold vget. destruct (v !! i); split; intros; simplify_eq; done. Qed.

Lemma vget_lookup {A} (v : list A) i a : v !! i = Some a -> vget v i = Done a.
Proof. apply vget_Done. Qed.

Lemma vset_lt {A} (v : list A) i a :
  (i < length v)%nat -> vset v i a = Done (<[i := a]> v).
Proof. intros H. unfold vset. by rewrite decide_True. Qed.

Lemma u64_small z : (0 <= z < 2 ^ 64)%Z -> u64 z = z.
Proof. intros H. unfold u64. by apply Z.mod_small. Qed.


(** Deciding the comparisons of a closed expression. *)
Ltac rdecide :=
  repeat match goal with
  | |- context [Rltb ?a ?b] =>
      first [ rewrite (proj2 (Rltb_true a b)) by lra
            | rewrite (proj2 (Rltb_false a b)) by lra ]
  | |- context [Rleb ?a ?b] =>
      first [ rewrite (proj2 (Rleb_true a b)) by lra
            | rewrite (proj2 (Rleb_false a b)) by lra ]
  | |- context [Reqb ?a ?b] =>
      first [ rewrite (proj2 (Reqb_true a b)) by lra
            | rewrite (proj2 (Reqb_false a b)) by lra ]
  end.

Lemma bind_Done {A B} (c : outcome A) (k : A -> outcome B) a :
  c = Done a -> c ≫= k = k a.
Proof. by intros ->. Qed.

Lemma bind_Failed {A B} (c : outcome A) (k : A -> outcome B) f :
  c = Failed f -> c ≫= k = Failed f.
Proof. by intros ->. Qed.

Lemma assert_true (b : bool) : b = true -> assert b = Done tt.
Proof. by intros ->. Qed.

Lemma assert_Done_inv (b : bool) (u : unit) : assert b = Done u -> b = true.
Proof. by destruct b. Qed.

Lemma assert_Failed_inv (b : bool) (f : failure) :
  assert b = Failed f -> f = AssertionFailed.
Proof. destruct b; [done|]. by intros [= <-]. Qed.

Lemma shl1_int_Done (m : nat) :
  (m <= 30)%nat -> shl1_int m = Done (2 ^ Z.of_nat m)%Z.
Proof. intros Hm. unfold shl1_int. by rewrite decide_True. Qed.

Lemma pow2_le_30 (m : nat) : (m <= 30)%nat -> (0 < 2 ^ Z.of_nat m <= 2 ^ 30)%Z.
Proof.
  intros Hm. split; [apply Z.pow_pos_nonneg; lia|].
  apply Z.pow_le_mono_r; lia.
Qed.

Lemma bind_Done_inv {A B} (c : outcome A) (k : A -> outcome B) (b : B) :
  c ≫= k = Done b -> exists a, c = Done a /\ k a = Done b.
Proof. destruct c as [a|f]; simpl; [by exists a|done]. Qed.

Lemma vset_Done_inv {A} (v v' : list A) (i : nat) (a : A) :
  vset v i a = Done v' -> (i < length v)%nat /\ v' = <[i := a]> v.
Proof. unfold vset. case_decide; intros Hv; by simplify_eq. Qed.

Lemma mret_Done_inv {A} (a b : A) : mret a = Done b -> a = b.
Proof. unfold mret, outcome_ret. by intros [= ->]. Qed.

(** ** Facts about the KT estimator *)

Module KTFacts.
Import KT.

Lemma occ_total past : (occ false past + occ true past = length past)%nat.
Proof.
  unfold occ. induction past as [|[] tl IH]; simpl; try done.
  - destruct (Bool.bool_dec true false); [done|].
    destruct (Bool.bool_dec true true); [lia|done].
  - destruct (Bool.bool_dec false false); [|done].
    destruct (Bool.bool_dec false true); [done|lia].
Qed.

Lemma occ_snoc b c past :
  occ b (past ++ [c]) = (occ b past + if Bool.bool_dec c b then 1 else 0)%nat.
Proof.
  unfold occ. rewrite count_occ_app. simpl.
  destruct (Bool.bool_dec c b); done.
Qed.

Lemma prob_tracks e past b :
  tracks e past -> (Z.of_nat (length past) < 2 ^ 64)%Z ->
  prob e b = pred_prob past b.
Proof.
  intros [H0 H1] Hlen. unfold prob, pred_prob, KT_Alpha2, KT_Alpha.
  pose proof (occ_total past) as Ht.
  rewrite u64_small by lia.
  replace (m_counts e b) with (Z.of_nat (occ b past))
    by (destruct b; simpl; congruence).
  rewrite H0, H1, plus_IZR, <- !INR_IZR_INZ. f_equal. lra.
Qed.

Lemma update_tracks e past b :
  tracks e past -> (Z.of_nat (length past) < 2 ^ 64 - 1)%Z ->
  tracks (update e b) (past ++ [b]).
Proof.
  intros [H0 H1] Hlen. pose proof (occ_total past) as Ht.
  unfold tracks, update. rewrite !occ_snoc.
  destruct b; simpl; rewrite u64_small by lia; split; lia.
Qed.

Lemma update_log e b : m_log_kt (update e b) = m_log_kt e + ln (prob e b).
Proof. unfold update. by destruct b. Qed.

Lemma feed_tracks bs : forall e past,
  tracks e past ->
  (Z.of_nat (length past + length bs) < 2 ^ 64)%Z ->
  tracks (feed e bs) (past ++ bs) /\
  m_log_kt (feed e bs) = m_log_kt e + seq_logprob past bs.
Proof.
  induction bs as [|b tl IH]; intros e past Ht Hlen; simpl in *.
  - rewrite app_nil_r. split; [done|lra].
  - destruct (IH (update e b) (past ++ [b])) as [IH1 IH2].
    + apply update_tracks; [done|lia].
    + rewrite length_app. simpl. lia.
    + rewrite <- app_assoc in IH1. simpl in IH1. split; [done|].
      unfold feed in *. simpl in *. rewrite IH2, update_log.
      rewrite (prob_tracks e past b) by (done || lia). lra.
Qed.

(** C3. After any sequence of bits (shorter than 2^64, the capacity of the
    counters) has been fed to a fresh estimator through [update],
    [logMarginal()] is the sum of log p(b_i | past), each p(b | past) =
    (c_b + 1/2) / (c_0 + c_1 + 1) taken with the counts before b_i is
    incorporated, and [posterior()] is the pair (1/2 + c_1, 1/2 + c_0). *)
Theorem kt_log_marginal_and_posterior (bs : list bool) :
  (Z.of_nat (length bs) < 2 ^ 64)%Z ->
  logMarginal (feed fresh bs) = seq_logprob [] bs /\
  posterior (feed fresh bs) =
    (1 / 2 + INR (occ true bs), 1 / 2 + INR (occ false bs)).
Proof.
  intros Hlen.
  destruct (feed_tracks bs fresh []) as [[H0 H1] Hl]; [done|simpl; lia|].
  simpl in *. split.
  - unfold logMarginal. rewrite Hl. simpl. lra.
  - unfold posterior, KT_Alpha. simpl. rewrite H0, H1, <- !INR_IZR_INZ. done.
Qed.

(** The scenario of the specification: bits 1,0,1,1. *)
Lemma kt_log_marginal_and_posterior_witness :
  logMarginal (feed fresh [true; false; true; true])
    = seq_logprob [] [true; false; true; true] /\
  posterior (feed fresh [true; false; true; true])
    = (1 / 2 + INR (occ true [true; false; true; true]),
       1 / 2 + INR (occ false [true; false; true; true])).
Proof.
  apply (kt_log_marginal_and_posterior [true; false; true; true]).
  simpl. lia.
Defined.

(** The scenario of the specification in numbers: after the bits 1, 0, 1, 1
    the log-marginal is log(1/2) + log(1/4) + log(1/2) + log(5/8), that is
    log(5/128), and the posterior is Beta(3.5, 1.5). *)
Lemma kt_scenario_1011 :
  logMarginal (feed fresh [true; false; true; true])
    = ln (1 / 2) + ln (1 / 4) + ln (1 / 2) + ln (5 / 8) /\
  posterior (feed fresh [true; false; true; true]) = (7 / 2, 3 / 2).
Proof.
  assert (Hfeed : feed fresh [true; false; true; true]
                  = mkKT (0 + ln (1 / 2) + ln (1 / 4) + ln (1 / 2) + ln (5 / 8))
                         1 3).
  { unfold feed, update, prob, KT_Alpha2, KT_Alpha. simpl.
    repeat match goal with
           | |- context [u64 ?z] =>
               let v := eval vm_compute in (u64 z) in change (u64 z) with v
           end.
    simpl. f_equal.
    repeat (apply (f_equal2 Rplus)); try reflexivity; apply (f_equal ln); lra. }
  rewrite Hfeed. unfold logMarginal, posterior, KT_Alpha. simpl.
  split; [lra|f_equal; lra].
Qed.

End KTFacts.

(** ** The forced-exploration rate of Paranoid PTW *)

Module ExploreFacts.
Import TS.
Import XReal.

(** exp x exceeds 2 x: from exp (x/2) >= 1 + x/2, squared. *)
Lemma exp_gt_double (x : R) : 2 * x < exp x.
Proof.
  replace x with (x / 2 + x / 2) at 2 by lra. rewrite exp_plus.
  destruct (Req_dec_T x 0) as [->|Hx].
  - replace (0 / 2) with 0 by lra. rewrite exp_0. lra.
  - assert (H : 1 + x / 2 < exp (x / 2)) by (apply exp_ineq1; lra).
    pose proof (exp_pos (x / 2)) as Hp.
    destruct (Rle_lt_dec (1 + x / 2) 0) as [Hn|Hn].
    + assert (0 < exp (x / 2) * exp (x / 2)) by nra. lra.
    + assert ((1 + x / 2) * (1 + x / 2) < exp (x / 2) * exp (x / 2)) by nra.
      assert (0 <= (1 - x / 2) * (1 - x / 2)) by apply Rle_0_sqr.
      lra.
Qed.

(** The rate over the reals is positive for every k. *)
Lemma rate_pos (k : R) : 0 < Rpower 2 (- k) * (Rpower 2 (k / 2) - k * ln 2).
Proof.
  apply Rmult_lt_0_compat.
  - unfold Rpower. apply exp_pos.
  - unfold Rpower. pose proof (exp_gt_double (k / 2 * ln 2)). lra.
Qed.

Lemma INR_le_IZR (k : nat) (z : Z) : (Z.of_nat k <= z)%Z -> INR k <= IZR z.
Proof. intros H. rewrite INR_IZR_INZ. by apply IZR_le. Qed.

Lemma IZR_le_INR (k : nat) (z : Z) : (z <= Z.of_nat k)%Z -> IZR z <= INR k.
Proof. intros H. rewrite INR_IZR_INZ. by apply IZR_le. Qed.

(** The two powers of [exploreProb] in the three ranges of k. *)
Lemma pow2_ranges (k : nat) :
  pow2 (- INR k)
  = (if decide (k <= 1074)%nat then Fin (Rpower 2 (- INR k)) else Fin 0) /\
  pow2 (INR k / 2)
  = (if decide (k <= 2047)%nat then Fin (Rpower 2 (INR k / 2)) else PInf).
Proof.
  unfold pow2. split.
  - case_decide as Hk.
    + pose proof (INR_le_IZR k 1074 ltac:(lia)).
      pose proof (pos_INR k).
      rewrite (proj2 (Rleb_false _ _)) by lra.
      by rewrite (proj2 (Rleb_false _ _)) by lra.
    + pose proof (IZR_le_INR k 1075 ltac:(lia)).
      by rewrite (proj2 (Rleb_true _ _)) by lra.
  - pose proof (pos_INR k). rewrite (proj2 (Rleb_false _ _)) by lra.
    case_decide as Hk.
    + pose proof (INR_le_IZR k 2047 ltac:(lia)).
      by rewrite (proj2 (Rleb_false _ _)) by lra.
    + pose proof (IZR_le_INR k 2048 ltac:(lia)).
      by rewrite (proj2 (Rleb_true _ _)) by lra.
Qed.

(** What [exploreProb] returns: the rate over the reals, cut at 1, while
    the two powers stay within the doubles; 0 once 2^-k has rounded to 0;
    and 1 once 2^(k/2) has overflown, the product 0 * infinity being a NaN
    that [std::min(1.0, .)] replaces by 1. *)
Lemma exploreProb_value (k : nat) :
  let rate := Rpower 2 (- INR k) * (Rpower 2 (INR k / 2) - INR k * ln 2) in
  exploreProb k
  = Done (Fin (if decide (k <= 1074)%nat then Rmin 1 rate
               else if decide (k <= 2047)%nat then 0 else 1)).
Proof.
  intros rate. unfold exploreProb, explore_rate.
  destruct (pow2_ranges k) as [-> ->].
  destruct (decide (k <= 1074)%nat) as [H1|H1].
  - rewrite decide_True by lia. unfold xsub, xmin, xle. cbn [xneg xadd xmul xlt xeq].
    pose proof (rate_pos (INR k)) as Hpos. fold rate in Hpos.
    replace (1 * (Rpower 2 (- INR k)
                  * (Rpower 2 (INR k / 2) + - (INR k * ln 2)))) with rate
      by (unfold rate; lra).
    destruct (Rltb rate 1) eqn:Hlt.
    + apply Rltb_true in Hlt. rewrite Rmin_right by lra.
      cbn [xlt xeq]. rdecide. done.
    + apply Rltb_false in Hlt. rewrite Rmin_left by lra.
      cbn [xlt xeq]. rdecide. done.
  - destruct (decide (k <= 2047)%nat) as [H2|H2].
    + unfold xsub, xmin, xle. cbn [xneg xadd xmul xlt xeq].
      set (v := 1 * (0 * (Rpower 2 (INR k / 2) + - (INR k * ln 2)))).
      assert (Hv : v = 0) by (unfold v; lra).
      rewrite Hv. rdecide. cbn [xlt xeq]. rdecide. done.
    + unfold xsub, xmin, xle. cbn [xneg xadd xmul xlt xeq].
      rdecide. cbn [xmul xlt xeq]. rdecide. done.
Qed.

(** The assertion of [exploreProb] holds for every k. *)
Lemma exploreProb_Done (k : nat) :
  exists p, exploreProb k = Done (Fin p) /\ 0 <= p <= 1.
Proof.
  eexists. split; [apply exploreProb_value|].
  pose proof (rate_pos (INR k)) as Hpos.
  repeat case_decide; [|lra|lra].
  split; [apply Rmin_glb; lra | apply Rmin_l].
Qed.

(** At k = 2048 the code returns 1, and at k = 1075 it returns 0, while
    min(1, 2^(-k) * (2^(k/2) - k * log 2)) clamped at 0 from below is
    positive and below 1 there. *)
Lemma exploreProb_large_counterexample :
  (let rate := Rpower 2 (- INR 2048)
               * (Rpower 2 (INR 2048 / 2) - INR 2048 * ln 2) in
   exploreProb 2048 = Done (Fin 1) /\ Rmax 0 (Rmin 1 rate) < 1) /\
  (let rate := Rpower 2 (- INR 1075)
               * (Rpower 2 (INR 1075 / 2) - INR 1075 * ln 2) in
   exploreProb 1075 = Done (Fin 0) /\ 0 < Rmax 0 (Rmin 1 rate)).
Proof.
  split; intros rate.
  - split.
    + rewrite exploreProb_value. rewrite decide_False by lia.
      by rewrite decide_False by lia.
    + assert (Hlt : rate < 1).
      { unfold rate. rewrite (INR_IZR_INZ 2048).
        change (Z.of_nat 2048) with 2048%Z.
        set (a := Rpower 2 (- _)). set (b := Rpower 2 (_ / 2)).
        assert (Hab : a * b < 1).
        { unfold a, b. rewrite <- Rpower_plus.
          unfold Rpower. rewrite <- exp_0. apply exp_increasing.
          assert (0 < ln 2) by (rewrite <- ln_1; apply ln_increasing; lra).
          nra. }
        assert (Ha : 0 < a) by (unfold a, Rpower; apply exp_pos).
        assert (Hl : 0 < ln 2) by (rewrite <- ln_1; apply ln_increasing; lra).
        pose proof (Rmult_lt_0_compat _ _ Ha Hl) as Hal.
        rewrite Rmult_minus_distr_l.
        replace (a * (2048 * ln 2)) with (2048 * (a * ln 2)) by ring.
        lra. }
      apply Rmax_lub_lt; [lra|]. eapply Rle_lt_trans; [apply Rmin_r|done].
  - split.
    + rewrite exploreProb_value. rewrite decide_False by lia.
      by rewrite decide_True by lia.
    + pose proof (rate_pos (INR 1075)) as Hpos. fold rate in Hpos.
      eapply Rlt_le_trans; [|apply Rmax_r]. apply Rmin_glb_lt; lra.
Qed.

(** C8. For every natural number k <= 1074, [exploreProb(k)] returns
    min(1, 2^(-k) * (2^(k/2) - k * log 2)), which is positive and so is its
    own clamp at 0 from below.  Beyond that the powers leave the range of
    the doubles: for 1075 <= k <= 2047 the factor 2^-k is 0 and the result
    is 0; for k >= 2048 the other power is +infinity, the product is NaN
    and [std::min(1.0, NaN)] is 1.  For every k the value returned lies in
    [0, 1], so the assertion holds although the code applies no
    max(0, .). *)
Theorem exploreProb_by_range (k : nat) :
  let rate := Rpower 2 (- INR k) * (Rpower 2 (INR k / 2) - INR k * ln 2) in
  let p := if decide (k <= 1074)%nat then Rmax 0 (Rmin 1 rate)
           else if decide (k <= 2047)%nat then 0 else 1 in
  exploreProb k = Done (Fin p) /\ 0 <= p <= 1.
Proof.
  intros rate p. pose proof (rate_pos (INR k)) as Hpos. fold rate in Hpos.
  assert (Hmin : 0 < Rmin 1 rate <= 1).
  { split; [apply Rmin_glb_lt; lra | apply Rmin_l]. }
  split.
  - rewrite exploreProb_value. fold rate. unfold p.
    case_decide; [|done]. by rewrite Rmax_right by lra.
  - unfold p. repeat case_decide; [|lra|lra]. rewrite Rmax_right; lra.
Qed.

End ExploreFacts.

(** ** Bernoulli relative entropy *)

Module RelEntropyFacts.
Import XReal.





Lemma xlog_pos (z : R) : 0 < z -> xlog (Fin z) = Fin (ln z).
Proof. intros Hz. simpl. rdecide. done. Qed.

Lemma relEntropy_interior (x y : R) :
  0 < x < 1 -> 0 < y < 1 ->
  bernoulliRelEntropy (Fin x) (Fin y)
  = Fin (x * ln (x / y) + (1 - x) * ln ((1 - x) / (1 - y))).
Proof.
  intros Hx Hy. unfold bernoulliRelEntropy. simpl. rdecide. simpl.
  unfold relEntropy_formula, xdiv, xsub, xneg, xadd. rdecide.
  assert (H1 : 0 < x / y) by (apply Rdiv_lt_0_compat; lra).
  assert (H2 : 0 < (1 + - x) / (1 + - y)).
  { apply Rdiv_lt_0_compat; lra. }
  rewrite !xlog_pos by done. simpl.
  replace (1 + - x) with (1 - x) by lra.
  replace (1 + - y) with (1 - y) by lra. done.
Qed.




End RelEntropyFacts.

(** ** Active PTW: the update *)

Module PTWFacts.
Import PTW.

(** *** [mscb] *)

Lemma parity_differs (t : Z) :
  (2 <= t)%Z -> Z.land (t - 1) 1 <> Z.land (t - 2) 1.
Proof.
  intros Ht.
  assert (Hland : forall x, Z.land x 1 = (x mod 2)%Z).
  { intros x. apply (Z.land_ones x 1). lia. }
  rewrite !Hland.
  pose proof (Z.mod_pos_bound (t - 1) 2). pose proof (Z.mod_pos_bound (t - 2) 2).
  pose proof (Z.div_mod (t - 1) 2). pose proof (Z.div_mod (t - 2) 2). lia.
Qed.

Lemma mscb_loop_lt (t : Z) :
  (2 <= t < 2 ^ 64)%Z ->
  forall iters cnt, (1 <= iters <= 64)%nat ->
    (mscb_loop iters t (Z.of_nat iters - 1) cnt < cnt + iters)%nat.
Proof.
  intros Ht. induction iters as [|iters IH]; intros cnt Hi; [lia|].
  simpl mscb_loop. rewrite !(u64_small (t - 1)), !(u64_small (t - 2)) by lia.
  case_decide as Hd; [lia|].
  destruct iters as [|iters'].
  - exfalso. revert Hd. change (u64 (Z.shiftl 1 (Z.of_nat 1 - 1))) with 1%Z.
    apply parity_differs. lia.
  - rewrite u64_small by lia.
    replace (Z.of_nat (S (S iters')) - 1 - 1)%Z
      with (Z.of_nat (S iters') - 1)%Z by lia.
    specialize (IH (S cnt)). lia.
Qed.

Lemma mscb_1 (depth : nat) : mscb depth 1 = 0%nat.
Proof. done. Qed.

Lemma mscb_lt (depth : nat) (t : Z) :
  (1 <= depth <= 64)%nat -> (1 <= t < 2 ^ 64)%Z -> (mscb depth t < depth)%nat.
Proof.
  intros Hd Ht. unfold mscb. case_decide; [lia|].
  rewrite u64_small by lia.
  pose proof (mscb_loop_lt t ltac:(lia) depth 0%nat Hd). lia.
Qed.

Lemma land_pow2 (x c : Z) :
  (0 <= c)%Z ->
  Z.land x (2 ^ c) = if Z.testbit x c then (2 ^ c)%Z else 0%Z.
Proof.
  intros Hc. apply Z.bits_inj'. intros n Hn.
  rewrite Z.land_spec, Z.pow2_bits_eqb by done.
  destruct (Z.eqb_spec c n) as [->|Hne].
  - destruct (Z.testbit x n); simpl.
    + by rewrite Z.pow2_bits_true.
    + by rewrite Z.bits_0.
  - rewrite andb_false_r. destruct (Z.testbit x c).
    + by rewrite Z.pow2_bits_false.
    + by rewrite Z.bits_0.
Qed.

Lemma mask_differs (x y c : Z) :
  (0 <= c < 64)%Z ->
  Z.land x (u64 (Z.shiftl 1 c)) <> Z.land y (u64 (Z.shiftl 1 c))
  <-> Z.testbit x c <> Z.testbit y c.
Proof.
  intros Hc. rewrite Z.shiftl_1_l.
  assert (Hp : (0 < 2 ^ c < 2 ^ 64)%Z).
  { split; [apply Z.pow_pos_nonneg; lia|apply Z.pow_lt_mono_r; lia]. }
  rewrite u64_small by lia. rewrite !land_pow2 by lia.
  destruct (Z.testbit x c), (Z.testbit y c); split; intros H; try done; lia.
Qed.

(** [mscb(t)] counts, from the top of the D-bit representation, the bits on
    which t-1 and t-2 agree before the highest bit on which they differ. *)
Lemma mscb_loop_highest (t : Z) :
  (2 <= t < 2 ^ 64)%Z ->
  forall iters cnt, (1 <= iters <= 64)%nat ->
    let r := mscb_loop iters t (Z.of_nat iters - 1) cnt in
    (cnt <= r < cnt + iters)%nat /\
    Z.testbit (t - 1) (Z.of_nat (iters - 1 - (r - cnt)))
      <> Z.testbit (t - 2) (Z.of_nat (iters - 1 - (r - cnt))) /\
    forall c, (iters - 1 - (r - cnt) < c <= iters - 1)%nat ->
      Z.testbit (t - 1) (Z.of_nat c) = Z.testbit (t - 2) (Z.of_nat c).
Proof.
  intros Ht. induction iters as [|iters IH]; intros cnt Hi; [lia|].
  cbn [mscb_loop]. rewrite !(u64_small (t - 1)), !(u64_small (t - 2)) by lia.
  case_decide as Hd.
  - apply mask_differs in Hd; [|lia].
    replace (S iters - 1 - (cnt - cnt))%nat with iters by lia.
    replace (Z.of_nat (S iters) - 1)%Z with (Z.of_nat iters) in Hd by lia.
    split; [lia|]. split; [done|]. intros c Hc. lia.
  - assert (Hsame : Z.testbit (t - 1) (Z.of_nat iters)
                    = Z.testbit (t - 2) (Z.of_nat iters)).
    { destruct (decide (Z.testbit (t - 1) (Z.of_nat iters)
                        = Z.testbit (t - 2) (Z.of_nat iters))) as [|Hne];
        [done|].
      exfalso. revert Hd. apply mask_differs; [lia|].
      by replace (Z.of_nat (S iters) - 1)%Z with (Z.of_nat iters) by lia. }
    destruct iters as [|iters'].
    { exfalso. revert Hd. change (u64 (Z.shiftl 1 (Z.of_nat 1 - 1))) with 1%Z.
      apply parity_differs. lia. }
    rewrite u64_small by lia.
    replace (Z.of_nat (S (S iters')) - 1 - 1)%Z
      with (Z.of_nat (S iters') - 1)%Z by lia.
    destruct (IH (S cnt) ltac:(lia)) as (Hr & Hdiff & Hagree).
    set (r := mscb_loop (S iters') t (Z.of_nat (S iters') - 1) (S cnt)) in *.
    replace (S (S iters') - 1 - (r - cnt))%nat
      with (S iters' - 1 - (r - S cnt))%nat by lia.
    split; [lia|]. split; [done|]. intros c Hc.
    destruct (decide (c = S iters')) as [->|Hne]; [done|].
    apply Hagree. lia.
Qed.

Lemma mscb_highest_differing_bit (depth : nat) (t : Z) :
  (1 <= depth <= 64)%nat -> (2 <= t < 2 ^ 64)%Z ->
  let i := mscb depth t in
  (i < depth)%nat /\
  Z.testbit (t - 1) (Z.of_nat (depth - 1 - i))
    <> Z.testbit (t - 2) (Z.of_nat (depth - 1 - i)) /\
  forall c, (depth - 1 - i < c < depth)%nat ->
    Z.testbit (t - 1) (Z.of_nat c) = Z.testbit (t - 2) (Z.of_nat c).
Proof.
  intros Hd Ht i. unfold i, mscb. rewrite decide_False by lia.
  rewrite u64_small by lia.
  destruct (mscb_loop_highest t Ht depth 0 Hd) as (Hr & Hdiff & Hagree).
  rewrite Nat.sub_0_r in Hdiff, Hagree.
  split; [lia|]. split; [done|]. intros c Hc. apply Hagree. lia.
Qed.

(** *** The loops of [update] in closed form *)

Lemma insert_alter {A} (f : A -> A) (l : list A) (k : nat) (x : A) :
  l !! k = Some x -> <[k := f x]> l = alter f k l.
Proof.
  intros Hk. apply list_eq. intros j. destruct (decide (j = k)) as [->|Hne].
  - rewrite list_lookup_insert_eq by (by eapply lookup_lt_Some).
    by rewrite list_lookup_alter_eq, Hk.
  - by rewrite list_lookup_insert_ne, list_lookup_alter_ne.
Qed.

Lemma update_arm_Done (n : ActivePTWNode_t) (k : nat) (r : bool) :
  (k < length (m_model n))%nat ->
  update_arm n k r
  = Done (mkNode (observe k r (m_model n)) (m_log_weighted n) (m_log_buf n)).
Proof.
  intros Hk. unfold update_arm.
  destruct (lookup_lt_is_Some_2 _ _ Hk) as [e He].
  rewrite (vget_lookup _ _ _ He). simpl.
  unfold mret, outcome_ret, observe.
  pose proof (insert_alter (fun e => KT.update e r) _ _ _ He) as Hia.
  simpl in Hia. by rewrite Hia.
Qed.

Lemma reset_loop_spec (arms : nat) :
  forall iters j ns, (j + iters = length ns)%nat ->
    reset_loop arms iters j ns
    = Done (take j ns ++ replicate iters (fresh_node arms)).
Proof.
  induction iters as [|iters IH]; intros j ns Hlen; simpl.
  - rewrite take_ge by lia. by rewrite app_nil_r.
  - rewrite vset_lt by lia. simpl.
    rewrite IH by (rewrite length_insert; lia).
    f_equal.
    rewrite (take_S_r _ _ (fresh_node arms))
      by (apply list_lookup_insert_eq; lia).
    rewrite take_insert_ge by lia. by rewrite <- app_assoc.
Qed.

Lemma staged_nodes_length s i : length (staged_nodes s i) = (m_depth s + 1)%nat.
Proof. unfold staged_nodes. by rewrite length_map, length_seq. Qed.

Lemma staged_nodes_lookup s i j :
  (j <= m_depth s)%nat -> staged_nodes s i !! j = Some (staged s i j).
Proof.
  intros Hj. unfold staged_nodes.
  rewrite list_lookup_fmap, lookup_seq_lt by lia. done.
Qed.

Lemma node_at_lookup s j :
  (j < length (m_nodes s))%nat -> m_nodes s !! j = Some (node_at s j).
Proof.
  intros Hj. unfold node_at.
  destruct (lookup_lt_is_Some_2 _ _ Hj) as [n ->]. done.
Qed.

(** Steps 1 and 2 as the code performs them, before any continuation. *)
Lemma staging_Done {B} s i (cont : list ActivePTWNode_t -> outcome B) :
  length (m_nodes s) = (m_depth s + 1)%nat -> (i < m_depth s)%nat ->
  (ni ← vget (m_nodes s) i;
   ni1 ← vget (m_nodes s) (i + 1);
   ns ← vset (m_nodes s) i
         (mkNode (m_model ni) (m_log_weighted ni) (m_log_weighted ni1));
   ns ← reset_loop (m_arms s) (m_depth s - i) (i + 1) ns;
   cont ns)
  = cont (staged_nodes s i).
Proof.
  intros Hlen Hi.
  rewrite (vget_lookup _ _ _ (node_at_lookup s i ltac:(lia))). simpl.
  rewrite (vget_lookup _ _ _ (node_at_lookup s (i + 1) ltac:(lia))). simpl.
  rewrite vset_lt by lia. simpl.
  rewrite reset_loop_spec by (rewrite length_insert; lia).
  simpl. f_equal. apply list_eq. intros j.
  destruct (decide (j <= m_depth s)%nat) as [Hj|Hj].
  - rewrite staged_nodes_lookup by done. unfold staged.
    destruct (decide (j < i)%nat) as [Hlt|Hge].
    + rewrite lookup_app_l by (rewrite length_take, length_insert; lia).
      rewrite lookup_take_lt by lia.
      rewrite list_lookup_insert_ne by lia.
      apply node_at_lookup. lia.
    + destruct (decide (j = i)) as [->|Hne].
      * rewrite lookup_app_l by (rewrite length_take, length_insert; lia).
        rewrite lookup_take_lt by lia.
        by rewrite list_lookup_insert_eq by lia.
      * rewrite lookup_app_r by (rewrite length_take, length_insert; lia).
        rewrite length_take, length_insert.
        apply lookup_replicate_2. lia.
  - rewrite !lookup_ge_None_2; [done| |].
    + rewrite staged_nodes_length. lia.
    + rewrite length_app, length_take, length_insert, length_replicate. lia.
Qed.

Section Settle.

Variable s : ActivePTW.
Variables (r : bool) (k : nat).

Local Abbreviation settle_s := (settle (LogStopWeight s) (LogSplitWeight s) k r).

Lemma settle_length ns : length (settle_s ns) = length ns.
Proof. induction ns as [|n rest IH]; simpl; [done|]. by rewrite IH. Qed.

Lemma settle_models (arms : nat) ns :
  Forall (fun n => length (m_model n) = arms) ns ->
  Forall (fun n => length (m_model n) = arms) (settle_s ns).
Proof.
  induction 1 as [|n rest Hn Hrest IH]; simpl; constructor; [|done].
  simpl. unfold observe. by rewrite length_alter.
Qed.

(** The bottom-up loop, once the levels from [m] down are settled, settles
    the levels above. *)
Lemma weigh_loop_settle ns0 :
  Forall (fun n => (k < length (m_model n))%nat) ns0 ->
  forall m, (m < length ns0)%nat ->
    weigh_loop s r k m (take m ns0 ++ settle_s (drop m ns0))
    = Done (settle_s ns0).
Proof.
  intros Hk. induction m as [|idx IH]; intros Hm; simpl.
  - by rewrite drop_0.
  - destruct (lookup_lt_is_Some_2 ns0 idx ltac:(lia)) as [n Hn].
    destruct (settle_s (drop (S idx) ns0)) as [|below tl] eqn:Hrest.
    { apply (f_equal length) in Hrest.
      rewrite settle_length, length_drop in Hrest. simpl in Hrest. lia. }
    unfold weigh at 1.
    rewrite (take_S_r _ _ _ Hn), <- app_assoc. simpl.
    assert (Hlt : length (take idx ns0) = idx) by (rewrite length_take; lia).
    rewrite (vget_lookup _ idx n)
      by (rewrite lookup_app_r, Hlt, Nat.sub_diag by lia; done).
    simpl.
    rewrite update_arm_Done
      by (by eapply (proj1 (Forall_lookup _ _) Hk)).
    simpl.
    rewrite (vget_lookup _ (idx + 1) below).
    2: { rewrite lookup_app_r, Hlt by lia.
         by replace (idx + 1 - idx)%nat with 1%nat by lia. }
    simpl. rewrite vset_lt by (rewrite length_app, Hlt; simpl; lia).
    simpl. rewrite <- IH by lia. f_equal.
    rewrite insert_app_r_alt, Hlt, Nat.sub_diag by lia. simpl.
    rewrite (drop_S _ _ _ Hn). simpl. rewrite Hrest. done.
Qed.

Lemma weigh_leaf_settle ns0 :
  Forall (fun n => (k < length (m_model n))%nat) ns0 ->
  length ns0 = (m_depth s + 1)%nat ->
  weigh_leaf s r k ns0
  = Done (take (m_depth s) ns0 ++ settle_s (drop (m_depth s) ns0)).
Proof.
  intros Hk Hlen. unfold weigh_leaf.
  destruct (lookup_lt_is_Some_2 ns0 (m_depth s) ltac:(lia)) as [n Hn].
  rewrite (vget_lookup _ _ _ Hn). simpl.
  rewrite update_arm_Done by (by eapply (proj1 (Forall_lookup _ _) Hk)).
  simpl. rewrite vset_lt by lia. f_equal.
  rewrite (drop_S _ _ _ Hn), drop_ge by lia. simpl.
  rewrite <- (take_drop_middle _ _ _ Hn) at 1.
  rewrite insert_app_r_alt by (rewrite length_take; lia).
  rewrite length_take, Nat.min_l, Nat.sub_diag by lia.
  rewrite (drop_ge ns0 (S (m_depth s))) by lia. done.
Qed.

End Settle.

(** *** The update refines its specification *)

Lemma node_at_model_length s j :
  wf s -> (j <= m_depth s)%nat -> length (m_model (node_at s j)) = m_arms s.
Proof.
  intros Hwf Hj.
  pose proof (node_at_lookup s j ltac:(rewrite (wf_nodes s Hwf); lia)) as Hn.
  apply (proj1 (Forall_lookup _ _) (wf_models s Hwf) _ _ Hn).
Qed.

Lemma staged_model_length s i j :
  wf s -> (i <= m_depth s)%nat -> (j <= m_depth s)%nat ->
  length (m_model (staged s i j)) = m_arms s.
Proof.
  intros Hwf Hi Hj. unfold staged. repeat case_decide; simpl.
  - by apply node_at_model_length.
  - by apply node_at_model_length.
  - apply length_replicate.
Qed.

Lemma staged_nodes_models s i :
  wf s -> (i <= m_depth s)%nat ->
  Forall (fun n => length (m_model n) = m_arms s) (staged_nodes s i).
Proof.
  intros Hwf Hi. apply Forall_lookup. intros j n Hn.
  assert (Hj : (j <= m_depth s)%nat).
  { apply lookup_lt_Some in Hn. rewrite staged_nodes_length in Hn. lia. }
  rewrite staged_nodes_lookup in Hn by done. simplify_eq.
  by apply staged_model_length.
Qed.

Lemma update_refines s r k :
  wf s -> (m_index s < 2 ^ Z.of_nat (m_depth s))%Z -> (k < m_arms s)%nat ->
  update s r k = Done (update_spec s r k).
Proof.
  intros Hwf Hidx Hk. destruct Hwf as [Hd Hn Hm [Hi0 Hi1]].
  pose proof (pow2_le_30 (m_depth s) ltac:(lia)) as Hp.
  unfold update. rewrite shl1_int_Done by lia. simpl.
  rewrite bool_decide_true by done. simpl.
  rewrite (u64_small (m_index s + 1)) by lia.
  set (i := mscb (m_depth s) (m_index s + 1)).
  assert (Hi : (i < m_depth s)%nat) by (apply mscb_lt; lia).
  rewrite staging_Done by done.
  assert (Hks : Forall (fun n => (k < length (m_model n))%nat)
                       (staged_nodes s i)).
  { eapply Forall_impl; [apply staged_nodes_models; [done|lia]|].
    simpl. intros n ->. done. }
  rewrite weigh_leaf_settle by (done || apply staged_nodes_length). simpl.
  rewrite weigh_loop_settle by (done || rewrite staged_nodes_length; lia).
  done.
Qed.

Lemma update_spec_wf s r k :
  wf s -> (m_index s < 2 ^ Z.of_nat (m_depth s))%Z -> wf (update_spec s r k).
Proof.
  intros Hwf Hidx. pose proof Hwf as [Hd Hn Hm [Hi0 Hi1]].
  assert (Hi : (mscb (m_depth s) (m_index s + 1) < m_depth s)%nat).
  { pose proof (pow2_le_30 (m_depth s) ltac:(lia)). apply mscb_lt; lia. }
  constructor; simpl.
  - done.
  - by rewrite settle_length, staged_nodes_length.
  - apply settle_models, staged_nodes_models; [done|lia].
  - lia.
Qed.

Section SettleLookup.

Variables (stop split : R) (k : nat) (r : bool).

(** Steps 3 and 4, level by level. *)
Lemma settle_lookup ns : forall j n,
  ns !! j = Some n ->
  exists n', settle stop split k r ns !! j = Some n' /\
    m_model n' = observe k r (m_model n) /\
    m_log_buf n' = m_log_buf n /\
    m_log_weighted n' =
      match settle stop split k r ns !! S j with
      | Some below =>
          logAdd (stop + node_logMarginal n')
                 (split + m_log_weighted below + m_log_buf n')
      | None => node_logMarginal n'
      end.
Proof.
  induction ns as [|n0 rest IH]; intros j n Hn; [done|].
  destruct j as [|j]; simpl in Hn.
  - simplify_eq. cbn [settle].
    generalize (settle stop split k r rest). intros rest'.
    eexists. split; [done|]. by destruct rest'.
  - destruct (IH j n Hn) as (n' & H1 & H2). exists n'. done.
Qed.

End SettleLookup.

Lemma update_spec_levels s r k :
  wf s -> (m_index s < 2 ^ Z.of_nat (m_depth s))%Z ->
  let s' := update_spec s r k in
  let i := mscb (m_depth s) (m_index s + 1) in
  forall j, (j <= m_depth s)%nat ->
    m_model (node_at s' j) = observe k r (m_model (staged s i j)) /\
    m_log_buf (node_at s' j) = m_log_buf (staged s i j) /\
    m_log_weighted (node_at s' j) =
      if decide (j = m_depth s) then node_logMarginal (node_at s' j)
      else logAdd (LogStopWeight s + node_logMarginal (node_at s' j))
                  (LogSplitWeight s + m_log_weighted (node_at s' (j + 1))
                   + m_log_buf (node_at s' j)).
Proof.
  intros Hwf Hidx s' i j Hj.
  destruct (settle_lookup (LogStopWeight s) (LogSplitWeight s) k r
              (staged_nodes s i) j (staged s i j)
              (staged_nodes_lookup s i j Hj)) as (n' & Hn' & Hm & Hb & Hw).
  assert (Hat : node_at s' j = n').
  { unfold node_at, s', update_spec. cbn [m_nodes m_arms].
    fold i. by rewrite Hn'. }
  rewrite Hat. split; [done|]. split; [done|]. rewrite Hw.
  case_decide as Hjd.
  - rewrite lookup_ge_None_2; [done|].
    rewrite settle_length, staged_nodes_length. lia.
  - replace (j + 1)%nat with (S j) by lia.
    unfold node_at, s', update_spec. cbn [m_nodes m_arms]. fold i.
    destruct (lookup_lt_is_Some_2
                (settle (LogStopWeight s) (LogSplitWeight s) k r
                        (staged_nodes s i)) (S j)) as [below ->]; [|done].
    rewrite settle_length, staged_nodes_length. lia.
Qed.

(** C1. At every 1-based step t = index + 1 with 1 <= t <= 2^D of a
    well-formed model (1 <= D <= 30, vectors of the constructor's sizes) and
    for every arm k in range, [update(r, k)] returns, and with i = mscb(t)
    the model it returns is the one of the specification.  Here mscb(1) = 0
    and i < D, and for t >= 2 the value i is the position, counted from the
    most significant bit of the D-bit representation, of the highest bit at
    which t-1 and t-2 differ: they differ at bit D-1-i and agree on the
    bits above it.  At every level j the node is first [n[j]] itself above
    i, [n[i]] with [n[i+1].wl] copied into its buffer at i, and a fresh
    node below i; then arm k's KT estimator is updated with r; and
    [n[D].wl = n[D].logMarginal()] while for j < D
    [n[j].wl = logAdd(LogStop + n[j].logMarginal(),
                      LogSplit + n[j+1].wl + n[j].buf)]. *)
Theorem update_performs_algorithm (s : ActivePTW) (r : bool) (k : nat) :
  wf s -> (k < m_arms s)%nat ->
  let D := m_depth s in
  let t := (m_index s + 1)%Z in
  (1 <= t <= 2 ^ Z.of_nat D)%Z ->
  let i := mscb D t in
  exists s', update s r k = Done s' /\
    mscb D 1 = 0%nat /\ (i < D)%nat /\
    ((2 <= t)%Z ->
     Z.testbit (t - 1) (Z.of_nat (D - 1 - i))
       <> Z.testbit (t - 2) (Z.of_nat (D - 1 - i)) /\
     forall c, (D - 1 - i < c < D)%nat ->
       Z.testbit (t - 1) (Z.of_nat c) = Z.testbit (t - 2) (Z.of_nat c)) /\
    m_index s' = t /\ m_depth s' = D /\ m_arms s' = m_arms s /\
    LogStopWeight s' = LogStopWeight s /\
    LogSplitWeight s' = LogSplitWeight s /\
    length (m_nodes s') = (D + 1)%nat /\
    forall j, (j <= D)%nat ->
      m_model (node_at s' j) = observe k r (m_model (staged s i j)) /\
      m_log_buf (node_at s' j) = m_log_buf (staged s i j) /\
      m_log_weighted (node_at s' j) =
        if decide (j = D) then node_logMarginal (node_at s' j)
        else logAdd (LogStopWeight s + node_logMarginal (node_at s' j))
                    (LogSplitWeight s + m_log_weighted (node_at s' (j + 1))
                     + m_log_buf (node_at s' j)).
Proof.
  intros Hwf Hk D t Ht i. exists (update_spec s r k).
  assert (Hidx : (m_index s < 2 ^ Z.of_nat (m_depth s))%Z) by (unfold t, D in Ht; lia).
  split; [by apply update_refines|].
  split; [done|].
  split.
  { pose proof (wf_depth s Hwf). pose proof (pow2_le_30 D ltac:(unfold D; lia)).
    apply mscb_lt; unfold D in *; lia. }
  split.
  { intros Ht2. pose proof (wf_depth s Hwf).
    pose proof (pow2_le_30 D ltac:(unfold D; lia)).
    destruct (mscb_highest_differing_bit D t) as (_ & Hdiff & Hagree);
      [unfold D; lia | lia | done]. }
  do 5 (split; [done|]).
  split; [apply (wf_nodes _ (update_spec_wf s r k Hwf Hidx))|].
  by apply update_spec_levels.
Qed.

(** *** Runs of updates *)

Lemma run_Done : forall obs s,
  wf s ->
  Forall (fun o : bool * nat => (o.2 < m_arms s)%nat) obs ->
  (m_index s + Z.of_nat (length obs) <= 2 ^ Z.of_nat (m_depth s))%Z ->
  exists s', run s obs = Done s' /\ wf s' /\
    m_index s' = (m_index s + Z.of_nat (length obs))%Z /\
    m_depth s' = m_depth s /\ m_arms s' = m_arms s /\
    LogStopWeight s' = LogStopWeight s.
Proof.
  induction obs as [|[r k] rest IH]; intros s Hwf Hk Hlen; simpl in *.
  - exists s. split_and!; try done. lia.
  - inversion Hk as [|? ? Hk1 Hk2]; subst. simpl in Hk1.
    assert (Hidx : (m_index s < 2 ^ Z.of_nat (m_depth s))%Z) by lia.
    rewrite (update_refines s r k Hwf Hidx Hk1). simpl.
    destruct (IH (update_spec s r k)) as (s' & Hrun & Hwf' & Hi & Hd & Ha & Hl).
    + by apply update_spec_wf.
    + done.
    + simpl. lia.
    + exists s'. simpl in *. split_and!; try done. lia.
Qed.

Lemma run_app s obs1 obs2 :
  run s (obs1 ++ obs2) = run s obs1 ≫= fun s' => run s' obs2.
Proof.
  revert s. induction obs1 as [|[r k] rest IH]; intros s; simpl; [done|].
  destruct (update s r k) as [s'|f]; simpl; [apply IH|done].
Qed.

(** At the horizon the assertion of [update] fails. *)
Lemma update_at_horizon s r k :
  (m_depth s <= 30)%nat -> (2 ^ Z.of_nat (m_depth s) <= m_index s)%Z ->
  update s r k = Failed AssertionFailed.
Proof.
  intros Hd Hidx. unfold update. rewrite shl1_int_Done by done. simpl.
  rewrite bool_decide_false by lia. done.
Qed.

Lemma run_beyond_horizon obs s :
  wf s ->
  Forall (fun o : bool * nat => (o.2 < m_arms s)%nat) obs ->
  (2 ^ Z.of_nat (m_depth s) < m_index s + Z.of_nat (length obs))%Z ->
  run s obs = Failed AssertionFailed.
Proof.
  intros Hwf Hk Hlen.
  pose proof (wf_index s Hwf) as [Hi0 Hi1]. pose proof (wf_depth s Hwf) as Hd.
  set (n := Z.to_nat (2 ^ Z.of_nat (m_depth s) - m_index s)).
  assert (Hn : (n < length obs)%nat) by lia.
  rewrite <- (take_drop n obs), run_app.
  destruct (run_Done (take n obs) s Hwf) as (s' & -> & Hwf' & Hi & Hd' & _).
  - by apply Forall_take.
  - rewrite length_take. lia.
  - simpl. destruct (drop n obs) as [|[r k] rest] eqn:Hdrop.
    + apply (f_equal length) in Hdrop. rewrite length_drop in Hdrop.
      simpl in Hdrop. lia.
    + simpl. rewrite update_at_horizon; [done|lia|].
      rewrite Hd', Hi, length_take. lia.
Qed.

(** *** The level posterior *)

Lemma logAdd_ge_l (a b : R) : a <= logAdd a b.
Proof.
  unfold logAdd.
  assert (Hln : forall d, d < ln (1 + exp d)).
  { intros d. rewrite <- (ln_exp d) at 1. pose proof (exp_pos d).
    apply ln_increasing; lra. }
  assert (Hln0 : forall d, 0 < ln (1 + exp d)).
  { intros d. rewrite <- ln_1. pose proof (exp_pos d).
    apply ln_increasing; lra. }
  destruct (Rltb b a) eqn:Hba.
  - apply Rltb_true in Hba.
    destruct (Rltb (a - b) 100); [pose proof (Hln (a - b))|]; lra.
  - apply Rltb_false in Hba.
    destruct (Rltb (b - a) 100); [pose proof (Hln0 (b - a))|]; lra.
Qed.

Lemma fold_fresh (arms : nat) (acc : R) :
  fold_left (fun rval e => rval + KT.logMarginal e)
            (replicate arms KT.fresh) acc = acc.
Proof.
  revert acc. induction arms as [|arms IH]; intros acc; simpl; [done|].
  rewrite IH. unfold KT.logMarginal. simpl. lra.
Qed.

Lemma fresh_node_logMarginal (arms : nat) :
  node_logMarginal (fresh_node arms) = 0.
Proof. unfold node_logMarginal. simpl. apply fold_fresh. Qed.

Lemma make_wf (depth arms : nat) :
  (1 <= depth <= 30)%nat -> wf (make depth arms).
Proof.
  intros Hd. constructor; simpl.
  - done.
  - apply length_replicate.
  - apply Forall_replicate. simpl. apply length_replicate.
  - split; [done|]. apply Z.lt_le_incl, Z.pow_pos_nonneg; lia.
Qed.

(** With two arms or more the stop weight is the logarithm of a
    probability. *)
Lemma make_LogStop_nonpos (depth arms : nat) :
  (2 <= arms)%nat -> LogStopWeight (make depth arms) <= 0.
Proof.
  intros Ha. simpl.
  assert (H2 : 2 <= INR arms) by (apply (le_INR 2); lia).
  assert (Hinv : 0 < / INR arms) by (apply Rinv_0_lt_compat; lra).
  assert (Heq : (INR arms - 1) / INR arms = 1 - / INR arms) by (field; lra).
  rewrite <- ln_1. apply Rlt_le, ln_increasing.
  - apply Rdiv_lt_0_compat; lra.
  - lra.
Qed.

Lemma make_dominated (depth arms : nat) :
  (2 <= arms)%nat -> dominated (make depth arms).
Proof.
  intros Ha j Hj. pose proof (make_LogStop_nonpos depth arms Ha) as Hs.
  assert (Hn : node_at (make depth arms) j = fresh_node arms).
  { unfold node_at. simpl. destruct (replicate (depth + 1) _ !! j) eqn:Hl.
    - by apply lookup_replicate in Hl as [-> _].
    - done. }
  rewrite Hn, fresh_node_logMarginal. simpl (m_log_weighted _). lra.
Qed.

Lemma update_spec_dominated s r k :
  wf s -> (m_index s < 2 ^ Z.of_nat (m_depth s))%Z ->
  LogStopWeight s <= 0 -> dominated (update_spec s r k).
Proof.
  intros Hwf Hidx Hs j Hj. simpl in Hj.
  destruct (update_spec_levels s r k Hwf Hidx j Hj) as (_ & _ & Hw).
  rewrite Hw. change (LogStopWeight (update_spec s r k)) with (LogStopWeight s).
  case_decide; [lra|apply logAdd_ge_l].
Qed.

Lemma run_dominated : forall obs s s',
  wf s -> LogStopWeight s <= 0 -> dominated s ->
  Forall (fun o : bool * nat => (o.2 < m_arms s)%nat) obs ->
  (m_index s + Z.of_nat (length obs) <= 2 ^ Z.of_nat (m_depth s))%Z ->
  run s obs = Done s' -> dominated s'.
Proof.
  induction obs as [|[r k] rest IH]; intros s s' Hwf Hs Hdom Hk Hlen Hrun;
    simpl in *.
  - change (Done s = Done s') in Hrun. by simplify_eq.
  - inversion Hk as [|? ? Hk1 Hk2]; subst. simpl in Hk1.
    assert (Hidx : (m_index s < 2 ^ Z.of_nat (m_depth s))%Z) by lia.
    rewrite (update_refines s r k Hwf Hidx Hk1) in Hrun. simpl in Hrun.
    apply (IH (update_spec s r k)); try done.
    + by apply update_spec_wf.
    + by apply update_spec_dominated.
    + simpl. lia.
Qed.

Lemma Rsum_snoc (l : list R) (x : R) : Rsum (l ++ [x]) = Rsum l + x.
Proof. induction l as [|y l IH]; simpl; [lra|]. rewrite IH. lra. Qed.

(** What its assertions tell of a level posterior that has been returned:
    one entry per level, each of [0, 1]. *)
Lemma levelPosterior_loop_inv s : forall iters i mass dest dest',
  levelPosterior_loop s iters i mass dest = Done dest' ->
  Forall (fun p => 0 <= p <= 1) dest ->
  length dest' = (length dest + iters)%nat /\
  Forall (fun p => 0 <= p <= 1) dest'.
Proof.
  induction iters as [|iters IH]; intros i mass dest dest' Hrun Hdest.
  - apply mret_Done_inv in Hrun as <-. split; [lia|done].
  - cbn [levelPosterior_loop] in Hrun.
    apply bind_Done_inv in Hrun as (n & _ & Hrun). cbn zeta in Hrun.
    apply bind_Done_inv in Hrun as (u1 & Hback & Hrun).
    apply bind_Done_inv in Hrun as (u2 & _ & Hrun).
    apply assert_Done_inv, andb_true_iff in Hback as [H0 H1].
    apply Rleb_true in H0, H1.
    destruct (IH _ _ _ _ Hrun) as [Hl Hf].
    + apply Forall_app. split; [done|]. by constructor.
    + rewrite length_app in Hl. simpl in Hl. split; [lia|done].
Qed.

Lemma levelPosterior_Done_inv s post :
  levelPosterior s = Done post ->
  length post = (m_depth s + 1)%nat /\ Forall (fun p => 0 <= p <= 1) post.
Proof.
  unfold levelPosterior. intros Hrun.
  apply bind_Done_inv in Hrun as (dest & Hloop & Hrun).
  apply bind_Done_inv in Hrun as (u & _ & Hrun).
  apply mret_Done_inv in Hrun as <-.
  destruct (levelPosterior_loop_inv s _ _ _ _ _ Hloop) as [Hl Hf];
    [constructor|].
  simpl in Hl. done.
Qed.

(** On a model with its D + 1 nodes, [levelPosterior] fails by an
    assertion only. *)
Lemma levelPosterior_loop_failure s (f : failure) :
  length (m_nodes s) = (m_depth s + 1)%nat ->
  forall iters i mass dest,
    (i + iters <= m_depth s + 1)%nat ->
    levelPosterior_loop s iters i mass dest = Failed f ->
    f = AssertionFailed.
Proof.
  intros Hlen. induction iters as [|iters IH]; intros i mass dest Hi Hrun;
    [done|].
  cbn [levelPosterior_loop] in Hrun.
  rewrite (vget_lookup _ _ _ (node_at_lookup s i ltac:(lia))) in Hrun.
  cbn [mbind outcome_bind] in Hrun. cbn zeta in Hrun.
  match type of Hrun with
  | assert ?b ≫= _ = _ => destruct (assert b) as [u1|f1] eqn:Hback
  end.
  - cbn [mbind outcome_bind] in Hrun.
    match type of Hrun with
    | assert ?b ≫= _ = _ => destruct (assert b) as [u2|f2] eqn:Hleft
    end.
    + cbn [mbind outcome_bind] in Hrun. eapply IH; [|exact Hrun]. lia.
    + cbn [mbind outcome_bind] in Hrun. injection Hrun as <-.
      by apply assert_Failed_inv in Hleft.
  - cbn [mbind outcome_bind] in Hrun. injection Hrun as <-.
    by apply assert_Failed_inv in Hback.
Qed.

Lemma levelPosterior_failure s (f : failure) :
  length (m_nodes s) = (m_depth s + 1)%nat ->
  levelPosterior s = Failed f -> f = AssertionFailed.
Proof.
  intros Hlen. unfold levelPosterior.
  destruct (levelPosterior_loop s (m_depth s + 1) 0 1 []) as [dest|f1]
    eqn:Hloop; cbn [mbind outcome_bind].
  - destruct (assert _) as [u|f2] eqn:Ha; cbn [mbind outcome_bind]; [done|].
    intros [= <-]. by apply assert_Failed_inv in Ha.
  - intros [= <-].
    apply (levelPosterior_loop_failure s f1 Hlen (m_depth s + 1) 0 1 []);
      [lia|done].
Qed.

(** The first assertion needs the weighted value of the root to be at
    least its stop branch: when it is below it by 2^-52 or more, the stop
    posterior of the root exceeds 1 and [levelPosterior] fails.  Over the
    reals [update] keeps every weighted value above its stop branch
    ([run_dominated]); the doubles of the code do not, since the rounded
    [logAdd] can return less than its larger argument. *)
Lemma levelPosterior_root_above_one s n0 rest :
  m_nodes s = n0 :: rest ->
  / 2 ^ 52 <= LogStopWeight s + node_logMarginal n0 - m_log_weighted n0 ->
  levelPosterior s = Failed AssertionFailed.
Proof.
  intros Hnodes Hx. unfold levelPosterior.
  rewrite Nat.add_1_r. cbn [levelPosterior_loop].
  unfold vget. rewrite Hnodes. cbn [lookup list_lookup mbind outcome_bind].
  set (x := LogStopWeight s + node_logMarginal n0 - m_log_weighted n0) in *.
  assert (Hpos : 0 < x).
  { assert (0 < / 2 ^ 52) by (apply Rinv_0_lt_compat, pow_lt; lra). lra. }
  assert (Hexp : 1 < exp x).
  { rewrite <- exp_0. by apply exp_increasing. }
  rewrite (proj2 (Rleb_false (1 * exp x) 1)) by lra.
  by rewrite andb_false_r.
Qed.

(** The first update of a model of depth 2 over two arms. *)
Lemma update_performs_algorithm_witness :
  exists s', update (make 2 2) true 0 = Done s' /\
    m_index s' = 1%Z /\
    m_log_weighted (node_at s' 2) = node_logMarginal (node_at s' 2).
Proof.
  destruct (update_performs_algorithm (make 2 2) true 0)
    as (s' & Hup & _ & _ & _ & Hidx & _ & _ & _ & _ & _ & Hlev).
  - apply make_wf. lia.
  - simpl. lia.
  - simpl. lia.
  - exists s'. split; [exact Hup|]. split; [exact Hidx|].
    destruct (Hlev 2%nat) as (_ & _ & Hw); [simpl; lia|]. exact Hw.
Defined.

End PTWFacts.

(** ** The PTW policies and the horizon of their model *)

Module TSFacts.
Import TS.

Lemma updates_run : forall obs st,
  updates st obs
  = PTW.run (m_model st) (map swap_obs obs) ≫= fun m =>
      Done (mkAPTW m (m_arms st)).
Proof.
  induction obs as [|[arm reward] rest IH]; intros st; simpl.
  - by destruct st.
  - unfold update. simpl.
    destruct (PTW.update (m_model st) reward arm) as [m|f]; simpl; [|done].
    by rewrite IH.
Qed.

Lemma updates_paranoid_updates : forall obs pst,
  match updates (m_aptw pst) obs with
  | Done st =>
      exists pst', updates_paranoid pst obs = Done pst' /\ m_aptw pst' = st
  | Failed f => updates_paranoid pst obs = Failed f
  end.
Proof.
  induction obs as [|[arm reward] rest IH]; intros pst; simpl.
  - by exists pst.
  - unfold update_paranoid.
    destruct (update (m_aptw pst) arm reward) as [st|f]; simpl; [|done].
    apply (IH (mkParanoid (p_arms pst) st (u64 (m_trials pst + 1)))).
Qed.

Lemma swap_obs_valid (n_arms : nat) (obs : list (nat * bool)) :
  Forall (fun o : nat * bool => (o.1 < n_arms)%nat) obs ->
  Forall (fun o : bool * nat => (o.2 < n_arms)%nat) (map swap_obs obs).
Proof. intros H. apply Forall_fmap. eapply Forall_impl; [exact H|done]. Qed.

(** C10. [ActivePTWBanditStrategy], and [ParanoidPTWBanditStrategy] which
    wraps it, build their model with depth 30 whatever the number of arms
    (the number of trials is not an argument); [update] fails its assertion
    when the index has reached 2^30; hence every run of at most 2^30 updates
    succeeds, the index counting them, and every longer run stops on the
    assertion. *)
Theorem aptw_depth_30_horizon (n_arms : nat) (obs : list (nat * bool)) :
  Forall (fun o : nat * bool => (o.1 < n_arms)%nat) obs ->
  PTW.m_depth (m_model (make n_arms)) = 30%nat /\
  PTW.m_depth (m_model (m_aptw (make_paranoid n_arms))) = 30%nat /\
  (forall s r k, PTW.m_depth s = 30%nat -> (2 ^ 30 <= PTW.m_index s)%Z ->
     PTW.update s r k = Failed AssertionFailed) /\
  ((Z.of_nat (length obs) <= 2 ^ 30)%Z ->
     exists st pst,
       updates (make n_arms) obs = Done st /\
       PTW.m_index (m_model st) = Z.of_nat (length obs) /\
       updates_paranoid (make_paranoid n_arms) obs = Done pst /\
       m_aptw pst = st) /\
  ((2 ^ 30 < Z.of_nat (length obs))%Z ->
     updates (make n_arms) obs = Failed AssertionFailed /\
     updates_paranoid (make_paranoid n_arms) obs = Failed AssertionFailed).
Proof.
  intros Hobs. split; [done|]. split; [done|].
  pose proof (PTWFacts.make_wf 30 n_arms ltac:(lia)) as Hwf.
  pose proof (swap_obs_valid n_arms obs Hobs) as Hobs'.
  pose proof (updates_paranoid_updates obs (make_paranoid n_arms)) as Hp.
  simpl in Hp. split_and!.
  - intros s r k Hd Hi. apply PTWFacts.update_at_horizon; rewrite Hd; [lia|done].
  - intros Hlen.
    destruct (PTWFacts.run_Done (map swap_obs obs) (PTW.make 30 n_arms) Hwf Hobs')
      as (m & Hrun & _ & Hi & _); [rewrite length_map; simpl; lia|].
    rewrite updates_run in Hp |- *. simpl in Hp |- *.
    rewrite Hrun in Hp |- *. simpl in Hp |- *.
    destruct Hp as (pst & Hp1 & Hp2).
    exists (mkAPTW m n_arms), pst. rewrite length_map in Hi. simpl in Hi.
    split_and!; [done|simpl; lia|done|done].
  - intros Hlen.
    rewrite updates_run in Hp |- *. simpl in Hp |- *.
    rewrite PTWFacts.run_beyond_horizon in Hp |- *;
      [done|done|done|rewrite length_map; simpl; lia|done|done
      |rewrite length_map; simpl; lia].
Qed.

(** Three observations on a two-armed policy. *)
Lemma aptw_depth_30_horizon_witness :
  exists st,
    updates (make 2) [(0%nat, true); (1%nat, false); (0%nat, true)] = Done st /\
    PTW.m_index (m_model st) = 3%Z.
Proof.
  destruct (aptw_depth_30_horizon 2
              [(0%nat, true); (1%nat, false); (0%nat, true)])
    as (_ & _ & _ & Hshort & _).
  - repeat constructor.
  - destruct Hshort as (st & pst & Hrun & Hidx & _); [simpl; lia|].
    exists st. split; [exact Hrun|exact Hidx].
Defined.

End TSFacts.

(** ** The environment: best arm and regret bookkeeping *)

Module BanditsFacts.
Import Bandits.

Lemma lookup_snoc_Some {A} (l : list A) (x y : A) (j : nat) :
  (l ++ [x]) !! j = Some y ->
  l !! j = Some y \/ (j = Datatypes.length l /\ y = x).
Proof.
  intros H. apply lookup_app_Some in H as [H|[Hj H]]; [by left|right].
  destruct (j - Datatypes.length l)%nat as [|n] eqn:Hn; simpl in H;
    [|done].
  simplify_eq. split; [lia|done].
Qed.

Lemma max_element_loop_spec : forall rest pre i largest vl,
  i = Datatypes.length pre ->
  pre !! largest = Some vl ->
  (forall j y, pre !! j = Some y -> y <= vl) ->
  (forall j y, (j < largest)%nat -> pre !! j = Some y -> y < vl) ->
  first_argmax (pre ++ rest) (max_element_loop largest vl i rest).
Proof.
  induction rest as [|x tl IH]; intros pre i largest vl Hi Hl Hle Hlt; simpl.
  - rewrite app_nil_r. exists vl. done.
  - replace (pre ++ x :: tl) with ((pre ++ [x]) ++ tl)
      by (by rewrite <- app_assoc).
    pose proof (lookup_lt_Some _ _ _ Hl) as Hlargest.
    destruct (Rltb vl x) eqn:Hx.
    + apply Rltb_true in Hx. apply IH.
      * rewrite length_app. simpl. lia.
      * rewrite lookup_app_r by lia. by rewrite Hi, Nat.sub_diag.
      * intros j y Hj. apply lookup_snoc_Some in Hj as [Hj|[_ ->]]; [|lra].
        pose proof (Hle j y Hj). lra.
      * intros j y Hji Hj. apply lookup_snoc_Some in Hj as [Hj|[-> _]]; [|lia].
        pose proof (Hle j y Hj). lra.
    + apply Rltb_false in Hx. apply IH.
      * rewrite length_app. simpl. lia.
      * by rewrite lookup_app_l by lia.
      * intros j y Hj. apply lookup_snoc_Some in Hj as [Hj|[_ ->]]; [|lra].
        by apply (Hle j y).
      * intros j y Hji Hj. apply lookup_snoc_Some in Hj as [Hj|[-> _]]; [|lia].
        by apply (Hlt j y).
Qed.

(** [bestArm()] is the index of the first maximal mean. *)
Lemma bestArm_first_argmax (bp : StochasticBanditProblem) :
  m_thetas bp <> [] -> first_argmax (m_thetas bp) (bestArm bp).
Proof.
  intros Hne. unfold bestArm. destruct (m_thetas bp) as [|x tl]; [done|].
  apply (max_element_loop_spec tl [x] 1 0 x); try done.
  - intros [|j] y Hj; simpl in Hj; simplify_eq. lra.
  - intros j y Hj. lia.
Qed.

(** One pull on a valid arm. *)
Lemma pull_Done bp arm flip fresh :
  (arm < Datatypes.length (m_thetas bp))%nat ->
  schedule_ok (m_change_schedule bp) (Datatypes.length (m_thetas bp)) ->
  exists bp' vmax,
    pull bp arm flip fresh = Done ((if flip then 1 else 0), bp') /\
    first_argmax (m_thetas bp) (bestArm bp) /\
    m_thetas bp !! bestArm bp = Some vmax /\
    m_cumm_reward bp' = m_cumm_reward bp + (if flip then 1 else 0) /\
    m_exp_cumm_reward bp' = m_exp_cumm_reward bp + vmax /\
    m_change_schedule bp' = m_change_schedule bp /\
    Datatypes.length (m_thetas bp') = Datatypes.length (m_thetas bp).
Proof.
  intros Harm Hok.
  assert (Hne : m_thetas bp <> []).
  { intros Heq. rewrite Heq in Harm. simpl in Harm. lia. }
  pose proof (bestArm_first_argmax bp Hne) as Hbest.
  destruct Hbest as (vmax & Hv & Hmax & Hfirst).
  unfold pull. rewrite bool_decide_false by lia.
  rewrite (vget_lookup _ _ _ Hv). simpl.
  set (t := u64 (m_num_trials bp + 1)).
  destruct (changepoint (m_change_schedule bp) t) eqn:Hcp.
  - case_bool_decide as Hnil.
    + eexists _, vmax. split; [done|]. simpl.
      split_and!; try done; [by exists vmax|].
      by rewrite length_map, length_seq.
    + destruct (Hok t Hcp) as [Hc|Hc]; [done|].
      rewrite assert_true by (by apply bool_decide_eq_true). simpl.
      eexists _, vmax. split; [done|]. simpl.
      split_and!; try done. by exists vmax.
  - eexists _, vmax. split; [done|]. simpl.
    split_and!; try done. by exists vmax.
Qed.

Lemma pulls_Done : forall ins bp,
  schedule_ok (m_change_schedule bp) (Datatypes.length (m_thetas bp)) ->
  Forall (fun i => (pull_arm i < Datatypes.length (m_thetas bp))%nat) ins ->
  exists bp', pulls bp ins = Done bp' /\
    m_exp_cumm_reward bp + expected_reward bp ins <= m_exp_cumm_reward bp' /\
    Datatypes.length (m_thetas bp') = Datatypes.length (m_thetas bp).
Proof.
  induction ins as [|i rest IH]; intros bp Hok Hins; simpl.
  - exists bp. split_and!; [done|lra|done].
  - inversion Hins as [|? ? Hi Hrest]; subst.
    destruct (pull_Done bp (pull_arm i) (pull_flip i) (pull_fresh i) Hi Hok)
      as (bp1 & vmax & Hpull & Hbest & Hv & Hr & He & Hs & Hl).
    rewrite Hpull. simpl.
    destruct (IH bp1) as (bp' & Hrun & Hexp & Hlen).
    + by rewrite Hs, Hl.
    + by rewrite Hl.
    + exists bp'. split; [done|]. split; [|congruence].
      destruct Hbest as (vmax' & Hv' & Hmax & _).
      assert (vmax' = vmax) by congruence. subst vmax'.
      destruct (lookup_lt_is_Some_2 _ _ Hi) as [y Hy].
      rewrite (nth_lookup_Some _ _ 0 _ Hy).
      pose proof (Hmax _ _ Hy) as Hyv.
      eapply Rle_trans; [|exact Hexp]. rewrite He. clear -Hyv. lra.
Qed.

(** C4 as stated fails: two arms of means 1/2 and 1/4, arm 0 is pulled and
    the coin, which Bernoulli(1/2) allows, comes up 1.  The realized reward
    is 1 and the best-hindsight expected return 1/2. *)
Lemma hindsight_below_realized_counterexample :
  exists bp',
    realisable (1 / 2) true /\
    pulls (make 2 NoChangeSchecule
                (fun i => match i with O => 1 / 2 | S _ => 1 / 4 end))
          [mkPull 0 true (fun _ => 0)] = Done bp' /\
    cummulativeReward bp' = 1 /\
    bestHindsightExpectedReturn bp' = 1 / 2 /\
    ~ (cummulativeReward bp' <= bestHindsightExpectedReturn bp').
Proof.
  eexists. split; [simpl; lra|].
  split.
  - unfold pulls, pull, make, reset, bestArm. simpl. rdecide. simpl. done.
  - unfold cummulativeReward, bestHindsightExpectedReturn. simpl.
    split_and!; lra.
Qed.

(** C4, amended.  For every sequence of valid pulls (any arms, any coins,
    any change points whose custom means have one entry per arm), every
    pull returns, and after every prefix the best-hindsight expected
    return R* has grown by at least the expected reward of the arms
    pulled, the sum of their means at the time of each pull; the realized
    reward R can exceed R*.  [bestArm()] is the index of the first maximal
    entry of the current theta vector. *)
Theorem hindsight_return_dominates_expected
    (bp : StochasticBanditProblem) (ins : list pull_input) :
  schedule_ok (m_change_schedule bp) (arms bp) ->
  Forall (fun i => (pull_arm i < arms bp)%nat) ins ->
  exists bp', pulls bp ins = Done bp' /\
    bestHindsightExpectedReturn bp + expected_reward bp ins
      <= bestHindsightExpectedReturn bp' /\
    (m_thetas bp' <> [] -> first_argmax (m_thetas bp') (bestArm bp')).
Proof.
  intros Hok Hins.
  destruct (pulls_Done ins bp Hok Hins) as (bp' & Hrun & Hexp & _).
  exists bp'. split; [done|]. split; [done|].
  apply bestArm_first_argmax.
Qed.

(** Two pulls on the two-armed problem of the counterexample. *)
Lemma hindsight_return_dominates_expected_witness :
  exists bp',
    pulls (make 2 NoChangeSchecule
                (fun i => match i with O => 1 / 2 | S _ => 1 / 4 end))
          [mkPull 0 true (fun _ => 0); mkPull 1 false (fun _ => 0)]
      = Done bp' /\
    1 / 2 + 1 / 4 <= bestHindsightExpectedReturn bp'.
Proof.
  destruct (hindsight_return_dominates_expected
              (make 2 NoChangeSchecule
                    (fun i => match i with O => 1 / 2 | S _ => 1 / 4 end))
              [mkPull 0 true (fun _ => 0); mkPull 1 false (fun _ => 0)])
    as (bp' & Hrun & Hexp & _).
  - intros t Ht. simpl in Ht. discriminate.
  - repeat constructor; simpl; lia.
  - exists bp'. split; [exact Hrun|].
    revert Hexp. unfold bestHindsightExpectedReturn, expected_reward, pull,
      make, reset, bestArm. simpl. rdecide. simpl. rdecide. simpl. lra.
Defined.

End BanditsFacts.

(** ** The UCB family: every arm once in the first K rounds *)

Module PolicyFacts.
Import Policy.

Lemma covers_of_distinct (K : nat) (chosen : list nat) :
  NoDup chosen -> Forall (fun a => (a < K)%nat) chosen ->
  length chosen = K -> covers K chosen.
Proof.
  intros Hnd Hlt Hlen a Ha.
  assert (Hsub : chosen ⊆+ seq 0 K).
  { apply NoDup_submseteq; [done|]. intros x Hx. apply elem_of_seq.
    pose proof (proj1 (Forall_forall _ _) Hlt x Hx). simpl in *. lia. }
  apply submseteq_length_Permutation in Hsub; [|rewrite length_seq; lia].
  rewrite Hsub. apply elem_of_seq. lia.
Qed.

Lemma not_covers_short (K : nat) (chosen : list nat) :
  (length chosen < K)%nat -> ~ covers K chosen.
Proof.
  intros Hlen Hcov.
  assert (Hsub : seq 0 K ⊆+ chosen).
  { apply NoDup_submseteq; [apply NoDup_seq|]. intros x Hx.
    apply elem_of_seq in Hx. apply Hcov. lia. }
  apply submseteq_length in Hsub. rewrite length_seq in Hsub. lia.
Qed.

Section FirstRound.

Context {S : Type} {P : BanditStrategy S}.
Variable K : nat.

(** [Inv st chosen]: [st] is the state after the arms [chosen] were played. *)
Variable Inv : S -> list nat -> Prop.

Hypothesis getAction_unchosen : forall st chosen o,
  Inv st chosen -> (length chosen < K)%nat ->
  exists a, getAction st o = Done (a, st) /\ (a < K)%nat /\ a ∉ chosen.

Hypothesis update_Inv : forall st chosen a r,
  Inv st chosen -> (length chosen < K)%nat -> (a < K)%nat -> a ∉ chosen ->
  exists st', update st a r = Done st' /\
    ((length chosen + 1 < K)%nat -> Inv st' (chosen ++ [a])).

Lemma play_distinct : forall rounds st chosen,
  (rounds <> [] -> Inv st chosen) ->
  NoDup chosen -> Forall (fun a => (a < K)%nat) chosen ->
  (length chosen + length rounds <= K)%nat ->
  exists arms st', play st rounds = Done (arms, st') /\
    length arms = length rounds /\
    NoDup (chosen ++ arms) /\
    Forall (fun a => (a < K)%nat) arms.
Proof.
  induction rounds as [|[o r] rest IH]; intros st chosen HInv Hnd Hlt Hlen.
  - exists [], st. rewrite app_nil_r. done.
  - simpl in Hlen. specialize (HInv ltac:(done)).
    destruct (getAction_unchosen st chosen o HInv ltac:(lia))
      as (a & Hget & Ha & Hnew).
    destruct (update_Inv st chosen a r HInv ltac:(lia) Ha Hnew)
      as (st1 & Hupd & HInv1).
    destruct (IH st1 (chosen ++ [a])) as (arms & st' & Hplay & Hl & Hnd' & Hlt').
    + intros Hrest. apply HInv1. destruct rest; [done|]. simpl in Hlen. lia.
    + apply NoDup_app. split_and!; [done| |apply NoDup_singleton].
      intros x Hx Hxa. apply list_elem_of_singleton in Hxa. by subst.
    + apply Forall_app. split; [done|]. by constructor.
    + rewrite length_app. simpl. lia.
    + exists (a :: arms), st'. cbn [play]. rewrite Hget. simpl.
      rewrite Hupd. simpl. rewrite Hplay. simpl.
      rewrite <- app_assoc in Hnd'. split_and!; try done.
      * by rewrite Hl.
      * by constructor.
Qed.

Lemma explores_first_of_Inv (st : S) : Inv st [] -> explores_first K st.
Proof.
  intros HInv rounds Hlen.
  destruct (play_distinct rounds st [] (fun _ => HInv) (NoDup_nil_2) (Forall_nil_2 _))
    as (arms & st' & Hplay & Hl & Hnd & Hlt); [simpl; lia|].
  exists arms, st'. split; [done|].
  apply covers_of_distinct; [done|done|lia].
Qed.

End FirstRound.

(** *** The common pre-step *)

Lemma unvisited_loop_spec (visits : list R) : forall iters arm rval,
  (arm + iters <= length visits)%nat ->
  unvisited_loop visits iters arm rval
  = Done (rval ++ List.filter (is_unvisited visits) (seq arm iters)).
Proof.
  induction iters as [|iters IH]; intros arm rval Hlen; simpl.
  - by rewrite app_nil_r.
  - destruct (lookup_lt_is_Some_2 visits arm ltac:(lia)) as [v Hv].
    rewrite (vget_lookup _ _ _ Hv). simpl. rewrite IH by lia.
    unfold is_unvisited at 2. rewrite Hv.
    destruct (Reqb v 0); [by rewrite <- app_assoc|done].
Qed.

(** While an arm is unchosen, the pre-step picks an unchosen arm. *)
Lemma explore_pick (visits : list R) (chosen : list nat) (K rnd : nat)
    (other : outcome nat) :
  length visits = K -> (forall a, (a < K)%nat -> marks visits chosen a) ->
  (length chosen < K)%nat ->
  exists a,
    (unvisited ← unvisited_loop visits K 0 [];
     if bool_decide (unvisited <> []) then pick_unvisited unvisited rnd
     else other) = Done a /\
    (a < K)%nat /\ a ∉ chosen.
Proof.
  intros Hlen Hmarks Hshort. rewrite unvisited_loop_spec by lia. simpl.
  set (unvisited := List.filter (is_unvisited visits) (seq 0 K)).
  assert (Hin : forall a, a ∈ unvisited -> (a < K)%nat /\ a ∉ chosen).
  { intros a Ha. apply list_elem_of_In, filter_In in Ha as [Ha Hu].
    apply list_elem_of_In, elem_of_seq in Ha. split; [lia|].
    destruct (Hmarks a ltac:(lia)) as (v & Hv & [[_ ->]|[Hn _]]); [|done].
    unfold is_unvisited in Hu. rewrite Hv in Hu. apply Reqb_true in Hu. lra. }
  assert (Hne : unvisited <> []).
  { intros Hnil. apply (not_covers_short K chosen Hshort). intros a Ha.
    destruct (Hmarks a Ha) as (v & Hv & [[Hc _]|[_ ->]]); [done|].
    exfalso. assert (Hu : a ∈ unvisited); [|by rewrite Hnil in Hu; inversion Hu].
    apply list_elem_of_In, filter_In. split.
    - apply list_elem_of_In, elem_of_seq. lia.
    - unfold is_unvisited. rewrite Hv. by apply Reqb_true. }
  rewrite bool_decide_true by done. unfold pick_unvisited.
  assert (Hlt : (rnd mod length unvisited < length unvisited)%nat).
  { apply Nat.mod_upper_bound. by destruct unvisited. }
  destruct (lookup_lt_is_Some_2 _ _ Hlt) as [a Ha].
  exists a. rewrite (vget_lookup _ _ _ Ha). split; [done|].
  apply Hin. by eapply list_elem_of_lookup_2.
Qed.

(** Counting the visit of a fresh arm keeps the marks. *)
Lemma marks_visit (visits : list R) (chosen : list nat) (K a : nat) (v : R) :
  length visits = K -> (forall b, (b < K)%nat -> marks visits chosen b) ->
  (a < K)%nat -> a ∉ chosen -> visits !! a = Some v ->
  forall b, (b < K)%nat -> marks (<[a := v + 1]> visits) (chosen ++ [a]) b.
Proof.
  intros Hlen Hmarks Ha Hnew Hv b Hb. unfold marks.
  destruct (decide (b = a)) as [->|Hne].
  - rewrite list_lookup_insert_eq by lia. eexists. split; [done|]. left.
    split; [apply elem_of_app; right; by apply list_elem_of_singleton|].
    destruct (Hmarks a Ha) as (v' & Hv' & [[Hc _]|[_ Hz]]); [done|].
    assert (v' = v) by congruence. lra.
  - rewrite list_lookup_insert_ne by done.
    destruct (Hmarks b Hb) as (v' & Hv' & [[Hc Hz]|[Hc Hz]]);
      exists v'; (split; [done|]).
    + left. split; [|done]. apply elem_of_app. by left.
    + right. split; [|done]. intros Hin. apply elem_of_app in Hin as [Hin|Hin];
        [done|]. apply list_elem_of_singleton in Hin. done.
Qed.

Lemma marks_replicate (K : nat) :
  forall a, (a < K)%nat -> marks (replicate K 0) [] a.
Proof.
  intros a Ha. exists 0. split; [by apply lookup_replicate_2|].
  right. split; [apply not_elem_of_nil|done].
Qed.

(** *** UCB1 *)

Lemma ucb_getAction_unchosen K st chosen (o : nat) :
  ucb_inv K st chosen -> (length chosen < K)%nat ->
  exists a, getAction st o = Done (a, st) /\ (a < K)%nat /\ a ∉ chosen.
Proof.
  intros (Harms & Hc & Hv & Hmarks) Hshort.
  destruct (explore_pick (UCB.m_arm_visits st) chosen K o
              (best_loop (UCB.ucb st) (UCB.m_arms st) 0 None 0)
              Hv Hmarks Hshort) as (a & Hpick & Ha & Hnew).
  exists a. split; [|done]. simpl.
  unfold UCB.getAction, UCB.unvisitedArms. rewrite Harms.
  rewrite Harms in Hpick. by rewrite Hpick.
Qed.

Lemma ucb_update_inv K st chosen a r :
  ucb_inv K st chosen -> (length chosen < K)%nat -> (a < K)%nat ->
  a ∉ chosen ->
  exists st', update st a r = Done st' /\
    ((length chosen + 1 < K)%nat -> ucb_inv K st' (chosen ++ [a])).
Proof.
  intros (Harms & Hc & Hv & Hmarks) Hshort Ha Hnew. simpl. unfold UCB.update.
  destruct (lookup_lt_is_Some_2 (UCB.m_arm_cumm_reward st) a ltac:(lia))
    as [c Hca].
  destruct (lookup_lt_is_Some_2 (UCB.m_arm_visits st) a ltac:(lia))
    as [v Hva].
  rewrite (vget_lookup _ _ _ Hca). simpl. rewrite vset_lt by lia. simpl.
  rewrite (vget_lookup _ _ _ Hva). simpl. rewrite vset_lt by lia. simpl.
  eexists. split; [done|]. intros _. unfold ucb_inv. simpl.
  rewrite !length_insert. split_and!; try done.
  by apply (marks_visit _ _ K).
Qed.

Lemma ucb_explores (K : nat) : explores_first K (UCB.make K).
Proof.
  apply (explores_first_of_Inv K (ucb_inv K)).
  - apply ucb_getAction_unchosen.
  - apply ucb_update_inv.
  - unfold ucb_inv. simpl. rewrite !length_replicate.
    split_and!; try done. apply marks_replicate.
Qed.

(** *** KL-UCB *)

Lemma klucb_getAction_unchosen fuel K st chosen (o : nat) :
  klucb_inv K st chosen -> (length chosen < K)%nat ->
  exists a, getAction (BanditStrategy := klucb_strategy fuel) st o
            = Done (a, st) /\ (a < K)%nat /\ a ∉ chosen.
Proof.
  intros (Harms & Hc & Hv & Hmarks) Hshort.
  destruct (explore_pick (KLUCB.m_arm_visits st) chosen K o
              (best_loop (KLUCB.klUCB fuel st) (KLUCB.m_arms st) 0 None 0)
              Hv Hmarks Hshort) as (a & Hpick & Ha & Hnew).
  exists a. split; [|done]. simpl.
  unfold KLUCB.getAction, KLUCB.unvisitedArms. rewrite Harms.
  rewrite Harms in Hpick. by rewrite Hpick.
Qed.

Lemma klucb_update_inv fuel K st chosen a r :
  klucb_inv K st chosen -> (length chosen < K)%nat -> (a < K)%nat ->
  a ∉ chosen ->
  exists st', update (BanditStrategy := klucb_strategy fuel) st a r = Done st' /\
    ((length chosen + 1 < K)%nat -> klucb_inv K st' (chosen ++ [a])).
Proof.
  intros (Harms & Hc & Hv & Hmarks) Hshort Ha Hnew. simpl.
  unfold KLUCB.update.
  destruct (lookup_lt_is_Some_2 (KLUCB.m_arm_successes st) a ltac:(lia))
    as [c Hca].
  destruct (lookup_lt_is_Some_2 (KLUCB.m_arm_visits st) a ltac:(lia))
    as [v Hva].
  rewrite (vget_lookup _ _ _ Hca). simpl. rewrite vset_lt by lia. simpl.
  rewrite (vget_lookup _ _ _ Hva). simpl. rewrite vset_lt by lia. simpl.
  eexists. split; [done|]. intros _. unfold klucb_inv. simpl.
  rewrite !length_insert. split_and!; try done.
  by apply (marks_visit _ _ K).
Qed.

Lemma klucb_explores (fuel K : nat) :
  explores_first (P := klucb_strategy fuel) K (KLUCB.make K).
Proof.
  apply (explores_first_of_Inv (P := klucb_strategy fuel) K (klucb_inv K)).
  - apply klucb_getAction_unchosen.
  - apply klucb_update_inv.
  - unfold klucb_inv. simpl. rewrite !length_replicate.
    split_and!; try done. apply marks_replicate.
Qed.

(** *** Sliding-window UCB *)

Lemma sw_getAction_unchosen K st chosen (o : nat) :
  sw_inv K st chosen -> (length chosen < K)%nat ->
  exists a, getAction st o = Done (a, st) /\ (a < K)%nat /\ a ∉ chosen.
Proof.
  intros (Harms & Hc & Hv & Hmarks & _) Hshort.
  destruct (explore_pick (SlidingUCB.m_arm_visits st) chosen K o
              (best_loop (SlidingUCB.ucb st) (SlidingUCB.m_arms st) 0 None 0)
              Hv Hmarks Hshort) as (a & Hpick & Ha & Hnew).
  exists a. split; [|done]. simpl.
  unfold SlidingUCB.getAction, SlidingUCB.unvisitedArms. rewrite Harms.
  rewrite Harms in Hpick. by rewrite Hpick.
Qed.

Lemma sw_update_inv K st chosen a r :
  sw_inv K st chosen -> (length chosen < K)%nat -> (a < K)%nat ->
  a ∉ chosen ->
  exists st', update st a r = Done st' /\
    ((length chosen + 1 < K)%nat -> sw_inv K st' (chosen ++ [a])).
Proof.
  intros (Harms & Hc & Hv & Hmarks & Hplays & Hrew & Hlt & Hw) Hshort Ha Hnew.
  simpl. unfold SlidingUCB.update.
  destruct (lookup_lt_is_Some_2 (SlidingUCB.m_arm_cumm_reward st) a
              ltac:(lia)) as [c Hca].
  destruct (lookup_lt_is_Some_2 (SlidingUCB.m_arm_visits st) a ltac:(lia))
    as [v Hva].
  rewrite (vget_lookup _ _ _ Hca). simpl. rewrite vset_lt by lia. simpl.
  rewrite (vget_lookup _ _ _ Hva). simpl. rewrite vset_lt by lia. simpl.
  rewrite Hplays, length_app. simpl.
  case_bool_decide as Hevict.
  - (* the window overflows: this is the last of the K rounds *)
    destruct (chosen ++ [a]) as [|front plays'] eqn:Hfront.
    { by destruct chosen. }
    destruct (SlidingUCB.m_rewards st ++ [reward_value r])
      as [|rfront rewards'] eqn:Hrfront.
    { by destruct (SlidingUCB.m_rewards st). }
    assert (Hf : (front < K)%nat).
    { assert (Hin : front ∈ chosen ++ [a]) by (rewrite Hfront; left).
      apply elem_of_app in Hin as [Hin|Hin].
      - apply (proj1 (Forall_forall _ _) Hlt _ Hin).
      - apply list_elem_of_singleton in Hin. by subst. }
    destruct (lookup_lt_is_Some_2 (<[a := v + 1]> (SlidingUCB.m_arm_visits st))
                front ltac:(rewrite length_insert; lia)) as [vf Hvf].
    destruct (lookup_lt_is_Some_2
                (<[a := c + reward_value r]> (SlidingUCB.m_arm_cumm_reward st))
                front ltac:(rewrite length_insert; lia)) as [cf Hcf].
    rewrite (vget_lookup _ _ _ Hvf). simpl.
    rewrite vset_lt by (rewrite length_insert; lia). simpl.
    rewrite (vget_lookup _ _ _ Hcf). simpl.
    rewrite vset_lt by (rewrite length_insert; lia). simpl.
    eexists. split; [done|]. intros Hmore. lia.
  - eexists. split; [done|]. intros _. unfold sw_inv. simpl.
    rewrite !length_insert, !length_app. simpl.
    split_and!; try done.
    + by apply (marks_visit _ _ K).
    + lia.
    + apply Forall_app. split; [done|]. by constructor.
Qed.

Lemma sw_explores (K : nat) (W : Z) :
  (Z.of_nat K - 1 <= W)%Z -> explores_first K (SlidingUCB.make K W).
Proof.
  intros HW. apply (explores_first_of_Inv K (sw_inv K)).
  - apply sw_getAction_unchosen.
  - apply sw_update_inv.
  - unfold sw_inv. simpl. rewrite !length_replicate.
    split_and!; try done. apply marks_replicate.
Qed.

(** C5 as stated fails for Sliding-UCB with a window shorter than K - 1:
    three arms, window 1, every draw 0.  Arm 0 is played first, arm 1
    second, and the second update evicts the play of arm 0, whose visit
    count returns to zero; the third call picks among the unvisited arms 0
    and 2 and takes arm 0.  Arm 2 is not chosen in the first three calls. *)
Lemma sliding_window_counterexample :
  exists st',
    play (SlidingUCB.make 3 1) [(0%nat, false); (0%nat, false); (0%nat, false)]
      = Done ([0; 1; 0]%nat, st') /\
    ~ covers 3 [0; 1; 0]%nat.
Proof.
  eexists. split.
  - unfold play, getAction, update, sliding_ucb_strategy,
      SlidingUCB.getAction, SlidingUCB.update, SlidingUCB.unvisitedArms,
      SlidingUCB.make.
    simpl. rdecide. simpl. rdecide. simpl. rdecide. simpl. rdecide. simpl.
    reflexivity.
  - intros Hcov. specialize (Hcov 2%nat ltac:(lia)).
    repeat (apply elem_of_cons in Hcov as [Hcov|Hcov]; [lia|]).
    by apply not_elem_of_nil in Hcov.
Qed.

(** C5, amended.  Under the interaction loop in which the arm returned by
    [getAction] is passed to [update] with some reward, UCB1, KL-UCB and
    Sliding-Window UCB with a window of at least K - 1 choose every arm of
    [0, K) among the first K calls of [getAction]. *)
Theorem ucb_family_explores_every_arm (K : nat) :
  explores_first K (UCB.make K) /\
  (forall fuel, explores_first (P := klucb_strategy fuel) K (KLUCB.make K)) /\
  (forall W, (Z.of_nat K - 1 <= W)%Z ->
     explores_first K (SlidingUCB.make K W)).
Proof.
  split; [apply ucb_explores|]. split; [intros; apply klucb_explores|].
  apply sw_explores.
Qed.

(** Two arms: the three policies, the window being 1. *)
Lemma ucb_family_explores_every_arm_witness :
  (exists chosen st',
     play (UCB.make 2) [(5%nat, true); (7%nat, false)] = Done (chosen, st') /\
     covers 2 chosen) /\
  (exists chosen st',
     play (P := klucb_strategy 64) (KLUCB.make 2)
          [(5%nat, true); (7%nat, false)] = Done (chosen, st') /\
     covers 2 chosen) /\
  (exists chosen st',
     play (SlidingUCB.make 2 1) [(5%nat, true); (7%nat, false)]
       = Done (chosen, st') /\
     covers 2 chosen).
Proof.
  destruct (ucb_family_explores_every_arm 2) as (Hucb & Hkl & Hsw).
  split; [|split].
  - apply Hucb. reflexivity.
  - apply (Hkl 64%nat). reflexivity.
  - apply (Hsw 1%Z); [lia|reflexivity].
Defined.

(** *** The bisection of KL-UCB ends *)

Lemma eps_pos : 0 < KLUCB.eps.
Proof. unfold KLUCB.eps. apply Rinv_0_lt_compat, pow_lt. lra. Qed.

(** Each turn halves the bracket, so [fuel] turns suffice for a bracket of
    width at most 2^fuel * eps. *)
Lemma bisect_Done (p ub : R) : forall fuel low high,
  (1 <= fuel)%nat -> 0 <= high - low <= 2 ^ fuel * KLUCB.eps ->
  exists r, KLUCB.bisect fuel p ub low high = Done r /\ low <= r <= high.
Proof.
  pose proof eps_pos as Heps.
  induction fuel as [|fuel IH]; intros low high Hfuel Hw; [lia|].
  cbn [KLUCB.bisect].
  set (q := low + (high - low) / 2).
  assert (Hhalf : forall low' high' : R,
            (low', high') = (low, q) \/ (low', high') = (q, high) ->
            exists r, (if Rltb KLUCB.eps (high' - low')
                       then KLUCB.bisect fuel p ub low' high'
                       else mret low') = Done r /\ low <= r <= high).
  { intros low' high' Hcase.
    assert (Hw' : high' - low' = (high - low) / 2 /\ low <= low' /\ high' <= high).
    { unfold q in Hcase. destruct Hcase as [[= -> ->]|[= -> ->]]; lra. }
    destruct Hw' as (Hw' & Hl & Hh).
    destruct (Rltb KLUCB.eps (high' - low')) eqn:Hgo.
    - apply Rltb_true in Hgo.
      assert (Hf : (1 <= fuel)%nat).
      { destruct fuel; [|lia]. simpl in Hw. lra. }
      destruct (IH low' high' Hf) as (r & Hr & Hrange).
      + simpl in Hw. lra.
      + exists r. split; [done|]. lra.
    - exists low'. split; [done|]. lra. }
  destruct (XReal.xlt _ _); apply Hhalf; auto.
Qed.

Lemma maxRelEntropy_Done (p ub : R) :
  0 <= p <= 1 -> 0 < ub ->
  exists r, KLUCB.maxRelEntropy 27 p ub = Done r /\ p <= r <= 1.
Proof.
  intros Hp Hub. unfold KLUCB.maxRelEntropy.
  rewrite assert_true by (by apply Rltb_true). cbn [mbind outcome_bind].
  apply bisect_Done; [lia|].
  assert (H2 : 2 ^ 27 = 134217728) by (simpl; lra).
  assert (H10 : 10 ^ 8 = 100000000) by (simpl; lra).
  unfold KLUCB.eps. rewrite H2, H10. lra.
Qed.

End PolicyFacts.

(** ** MALG: a window always contains tau *)

Module MALGFacts.
Import MALG.

Lemma rho_pos st t : (1 <= m_arms st)%nat -> 0 < t -> 0 < rho st t.
Proof.
  intros HK Ht. unfold rho.
  assert (Ha : 1 <= INR (m_arms st)) by (apply (le_INR 1); lia).
  assert (Hq : 0 < INR (m_arms st) / t) by (apply Rdiv_lt_0_compat; lra).
  pose proof (sqrt_pos (INR (m_arms st) / t)). lra.
Qed.

Lemma pow2_pos (m : nat) : 0 < 2 ^ m.
Proof. apply pow_lt. lra. Qed.

Lemma mod_succ (n p : Z) :
  (0 < p)%Z -> ((n + 1) mod p <> 0)%Z -> ((n + 1) mod p = n mod p + 1)%Z.
Proof.
  intros Hp Hne. pose proof (Z.mod_pos_bound n p Hp) as Hr.
  pose proof (Z.div_mod n p ltac:(lia)) as Hn.
  destruct (decide (n mod p + 1 < p)%Z) as [Hlt|Hge].
  - symmetry. apply (Z.mod_unique (n + 1) p (n / p)); lia.
  - exfalso. apply Hne. symmetry.
    apply (Z.mod_unique (n + 1) p (n / p + 1)); lia.
Qed.

Section Schedule.

Variables (K D : nat) (n : Z).
Hypothesis HK : (1 <= K)%nat.
Hypothesis HD : (D <= 30)%nat.
Hypothesis Hn : (0 <= n)%Z.
Hypothesis Hbound : (n + 2 ^ Z.of_nat D + 1 < 2 ^ 64)%Z.

(** The first turn of the scheduling loop, at the top level. *)
Lemma schedule_level_top st u :
  malg_inv K D n st -> u < 1 ->
  exists st1, schedule_level u D st = Done st1 /\ malg_scheduled K D n st1.
Proof.
  intros (Harms & Hmn & Htau & Hlen & Htop) Hu.
  pose proof (pow2_le_30 D HD) as Hp.
  unfold schedule_level. rewrite shl1_int_Done by done. simpl.
  rewrite Htau. replace (n + 1 - 1)%Z with n by lia.
  rewrite (u64_small n) by lia.
  case_bool_decide as Hmod.
  - rewrite Hmn.
    assert (Hrho : 0 < rho st (2 ^ D)) by (apply rho_pos; [lia|apply pow2_pos]).
    replace (rho st (2 ^ D) / rho st (2 ^ D)) with 1 by (field; lra).
    rewrite (proj2 (Rltb_true u 1)) by done.
    rewrite ?shl1_int_Done by done. simpl.
    destruct (lookup_lt_is_Some_2 (m_instances st) D ltac:(lia)) as [cur Hcur].
    rewrite (vget_lookup _ _ _ Hcur). simpl.
    rewrite vset_lt by lia. simpl.
    eexists. split; [done|]. unfold malg_scheduled. simpl.
    rewrite length_insert. split_and!; try done.
    eexists. split; [apply list_lookup_insert_eq; lia|].
    rewrite (u64_small (n + 1 + 2 ^ Z.of_nat D)) by lia.
    rewrite u64_small by lia.
    unfold top_window. destruct cur; simpl; rewrite Hmod; lia.
  - exists st. split; [done|]. unfold malg_scheduled.
    split_and!; try done. by apply Htop.
Qed.

(** A turn below the top level leaves the top-level instance alone. *)
Lemma schedule_level_below st u m :
  malg_scheduled K D n st -> (m < D)%nat ->
  exists st1, schedule_level u m st = Done st1 /\ malg_scheduled K D n st1.
Proof.
  intros Hst Hm. pose proof Hst as (Harms & Hmn & Htau & Hlen & i & Hi & Hw).
  unfold schedule_level. rewrite shl1_int_Done by lia. simpl.
  case_bool_decide as Hmod; [|by exists st].
  destruct (Rltb u _); [|by exists st].
  rewrite ?shl1_int_Done by lia. simpl.
  destruct (lookup_lt_is_Some_2 (m_instances st) m ltac:(lia)) as [cur Hcur].
  rewrite (vget_lookup _ _ _ Hcur). simpl.
  rewrite vset_lt by lia. simpl.
  eexists. split; [done|]. unfold malg_scheduled. simpl.
  rewrite length_insert. split_and!; try done.
  exists i. split; [|done]. by rewrite list_lookup_insert_ne by lia.
Qed.

Lemma schedule_loop_below us : forall todo st,
  malg_scheduled K D n st -> (todo <= D)%nat ->
  exists st1, schedule_loop us todo st = Done st1 /\ malg_scheduled K D n st1.
Proof.
  induction todo as [|m IH]; intros st Hst Htodo; simpl.
  - by exists st.
  - destruct (schedule_level_below st (us m) m Hst ltac:(lia))
      as (st1 & -> & Hst1). simpl. apply IH; [done|lia].
Qed.

Lemma schedule_loop_spec st us :
  malg_inv K D n st -> unit_draws us ->
  exists st1, schedule_loop us (D + 1) st = Done st1 /\
              malg_scheduled K D n st1.
Proof.
  intros Hinv Hus. rewrite Nat.add_1_r. simpl.
  destruct (schedule_level_top st (us D) Hinv (proj2 (Hus D)))
    as (st1 & -> & Hst1). simpl.
  by apply schedule_loop_below.
Qed.

End Schedule.

(** *** [activeInstance] *)

Lemma active_loop_spec (tau : Z) : forall insts pre best best_idx,
  least_cover tau pre best best_idx ->
  least_cover tau (pre ++ insts)
    (active_loop tau insts (Z.of_nat (Datatypes.length pre)) best best_idx).1
    (active_loop tau insts (Z.of_nat (Datatypes.length pre)) best best_idx).2.
Proof.
  induction insts as [|oe rest IH]; intros pre best best_idx Hlc.
  - simpl. by rewrite app_nil_r.
  - replace (pre ++ oe :: rest) with ((pre ++ [oe]) ++ rest)
      by (by rewrite <- app_assoc).
    assert (Hnext : (Z.of_nat (Datatypes.length pre) + 1)%Z
                    = Z.of_nat (Datatypes.length (pre ++ [oe]))).
    { rewrite length_app. simpl. lia. }
    destruct Hlc as (Hmax & Hwit & Hmin).
    assert (Hkeep : least_cover tau (pre ++ [oe]) best best_idx
                    \/ exists e_, oe = Some e_ /\ (s e_ <= tau <= e e_)%Z /\
                         (length e_ < best)%Z).
    { destruct oe as [e_|].
      - destruct (decide ((s e_ <= tau <= e e_)%Z /\ (length e_ < best)%Z))
          as [Hc|Hc]; [right; by exists e_|left].
        split_and!; [done| |].
        + intros Hb. destruct (Hwit Hb) as (i & Hi & Hcov & Hl).
          exists i. split; [|done]. by apply lookup_app_l_Some.
        + intros j i Hj Hcov.
          apply BanditsFacts.lookup_snoc_Some in Hj as [Hj|[_ Hj]];
            [by eapply Hmin|]. simplify_eq. lia.
      - left. split_and!; [done| |].
        + intros Hb. destruct (Hwit Hb) as (i & Hi & Hcov & Hl).
          exists i. split; [|done]. by apply lookup_app_l_Some.
        + intros j i Hj Hcov.
          apply BanditsFacts.lookup_snoc_Some in Hj as [Hj|[_ Hj]];
            [by eapply Hmin|done]. }
    destruct Hkeep as [Hkeep|(e_ & -> & Hcov & Hlt)].
    + assert (Hsame :
        active_loop tau (oe :: rest) (Z.of_nat (Datatypes.length pre))
                    best best_idx
        = active_loop tau rest (Z.of_nat (Datatypes.length pre) + 1)%Z
                      best best_idx).
      { cbn [active_loop]. destruct oe as [e_|]; [|done].
        destruct (bool_decide (s e_ <= tau)%Z && bool_decide (tau <= e e_)%Z
                  && bool_decide (length e_ < best)%Z) eqn:Hc; [|done].
        exfalso. apply andb_true_iff in Hc as [Hc Hc3].
        apply andb_true_iff in Hc as [Hc1 Hc2].
        apply bool_decide_eq_true in Hc1, Hc2, Hc3.
        destruct Hkeep as (_ & _ & Hmin').
        pose proof (Hmin' (Datatypes.length pre) e_) as Hm.
        rewrite lookup_app_r, Nat.sub_diag in Hm by lia.
        specialize (Hm eq_refl ltac:(lia)). lia. }
      rewrite Hsame, Hnext. by apply IH.
    + cbn [active_loop].
      rewrite !bool_decide_true by lia. simpl. rewrite Hnext. apply IH.
      split_and!.
      * lia.
      * intros _. exists e_. rewrite Nat2Z.id.
        rewrite lookup_app_r, Nat.sub_diag by lia. done.
      * intros j i Hj Hcov'.
        apply BanditsFacts.lookup_snoc_Some in Hj as [Hj|[_ Hj]].
        -- pose proof (Hmin j i Hj Hcov'). lia.
        -- simplify_eq. lia.
Qed.

Lemma activeInstance_spec K D n st :
  (D <= 30)%nat -> (0 <= n)%Z -> (n + 2 ^ Z.of_nat D + 1 < 2 ^ 64)%Z ->
  malg_scheduled K D n st ->
  exists idx i, activeInstance st = Done idx /\ covering st (Z.to_nat idx) i.
Proof.
  intros HD Hn Hbound (Harms & Hmn & Htau & Hlen & top & Htop & Hs & He).
  pose proof (pow2_le_30 D HD) as Hp.
  pose proof (Z.mod_pos_bound n (2 ^ Z.of_nat D) ltac:(lia)) as Hmod.
  pose proof (active_loop_spec (m_tau st) (m_instances st) []
                size_t_max size_t_max) as Hloop.
  unfold activeInstance. cbn [app Datatypes.length] in Hloop.
  change (Z.of_nat 0) with 0%Z in Hloop.
  destruct (active_loop (m_tau st) (m_instances st) 0 size_t_max size_t_max)
    as [best best_idx].
  destruct Hloop as (Hmax & Hwit & Hmin).
  { unfold least_cover, size_t_max.
    split_and!; [lia|intros; lia|intros j i Hj; done]. }
  cbn [fst snd] in *.
  assert (Hcov : (s top <= m_tau st <= e top)%Z) by lia.
  pose proof (Hmin D top Htop Hcov) as Hb.
  assert (Hl : length top = (2 ^ Z.of_nat D)%Z).
  { unfold length. rewrite u64_small; lia. }
  assert (Hlt : (best < size_t_max)%Z) by (unfold size_t_max; lia).
  rewrite assert_true by (apply bool_decide_eq_true; lia). simpl.
  destruct (Hwit Hlt) as (i & Hi & Hci & _).
  exists best_idx, i. done.
Qed.

(** *** One round *)

Lemma getAction_state K D n st us rnd arm st1 :
  (1 <= K)%nat -> (D <= 30)%nat -> (0 <= n)%Z ->
  (n + 2 ^ Z.of_nat D + 1 < 2 ^ 64)%Z ->
  malg_inv K D n st -> unit_draws us ->
  getAction st us rnd = Done (arm, st1) ->
  schedule_loop us (D + 1) st = Done st1 /\ malg_scheduled K D n st1.
Proof.
  intros HK HD Hn Hbound Hinv Hus Hget.
  destruct (schedule_loop_spec K D n HK HD Hn Hbound st us Hinv Hus)
    as (st1' & Hsched & Hst1').
  unfold getAction in Hget. destruct Hinv as (_ & Hmn & _).
  rewrite Hmn, Hsched in Hget. simpl in Hget.
  destruct (activeInstance st1') as [idx|]; simpl in Hget; [|done].
  destruct (deref st1' idx) as [i|]; simpl in Hget; [|done].
  destruct (UCB.getAction (alg i) rnd) as [a|]; simpl in Hget; [|done].
  change (Done (a, st1') = Done (arm, st1)) in Hget. by simplify_eq.
Qed.

Lemma update_inv K D n st1 arm reward st2 :
  (D <= 30)%nat -> (0 <= n)%Z -> (n + 2 ^ Z.of_nat D + 1 < 2 ^ 64)%Z ->
  malg_scheduled K D n st1 ->
  update st1 arm reward = Done st2 ->
  malg_inv K D (n + 1) st2.
Proof.
  intros HD Hn Hbound Hst1 Hupd.
  destruct (activeInstance_spec K D n st1 HD Hn Hbound Hst1)
    as (idx & i & Hact & Hi & Hcov).
  destruct Hst1 as (Harms & Hmn & Htau & Hlen & top & Htop & Hs & He).
  pose proof (pow2_le_30 D HD) as Hp.
  unfold update in Hupd. rewrite Hact in Hupd. simpl in Hupd.
  unfold deref in Hupd. rewrite (vget_lookup _ _ _ Hi) in Hupd.
  simpl in Hupd.
  destruct (UCB.update (alg i) arm reward) as [alg'|]; simpl in Hupd; [|done].
  rewrite vset_lt in Hupd by (by eapply lookup_lt_Some).
  simpl in Hupd. unfold mret, outcome_ret in Hupd. injection Hupd as <-.
  unfold malg_inv. simpl. rewrite length_insert, Htau.
  rewrite u64_small by lia. split_and!; try done.
  intros Hmod.
  pose proof (mod_succ n (2 ^ Z.of_nat D) ltac:(lia) Hmod) as Hsucc.
  destruct (decide (Z.to_nat idx = D)) as [Heq|Hne].
  - rewrite Heq in Hi |- *. assert (i = top) by congruence. subst i.
    eexists. split; [apply list_lookup_insert_eq; lia|].
    unfold top_window. simpl. lia.
  - exists top. split; [by rewrite list_lookup_insert_ne|].
    unfold top_window. lia.
Qed.

Lemma ready_inv K D : forall n st,
  (1 <= K)%nat -> (D <= 30)%nat ->
  (Z.of_nat n + 2 ^ Z.of_nat D + 1 < 2 ^ 64)%Z ->
  ready K D n st -> malg_inv K D (Z.of_nat n) st.
Proof.
  intros n st HK HD Hbound Hready.
  induction Hready as [|n st us rnd arm st1 reward st2 Hready IH Hus Hget Hupd].
  - unfold malg_inv. simpl. rewrite length_replicate. split_and!; done.
  - specialize (IH ltac:(lia)).
    destruct (getAction_state K D (Z.of_nat n) st us rnd arm st1
                HK HD ltac:(lia) ltac:(lia) IH Hus Hget) as (_ & Hst1).
    replace (Z.of_nat (S n)) with (Z.of_nat n + 1)%Z by lia.
    by apply (update_inv K D (Z.of_nat n) st1 arm reward st2); try lia.
Qed.

(** C6. For every state [st] reached by rounds of [getAction] and [update]
    from the constructor (tau = 1), over K >= 1 arms and depth D <= 30 and
    before the counters wrap, the scheduling loop of the next [getAction]
    returns a state on which [activeInstance] returns the index of an
    installed instance whose window [s, e] contains tau: its assertion
    holds.  That state is the one [getAction] returns, so the call of
    [activeInstance] in the following [update] sees it too. *)
Theorem malg_active_window_exists (K D n : nat) (st : MalgUCB)
    (us : nat -> R) :
  (1 <= K)%nat -> (D <= 30)%nat ->
  (Z.of_nat n + 2 ^ Z.of_nat D + 1 < 2 ^ 64)%Z ->
  ready K D n st -> unit_draws us ->
  exists st1 idx i,
    schedule_loop us (m_n st + 1) st = Done st1 /\
    activeInstance st1 = Done idx /\
    covering st1 (Z.to_nat idx) i /\
    (1 <= m_tau st1)%Z /\
    (forall rnd arm st1', getAction st us rnd = Done (arm, st1') -> st1' = st1).
Proof.
  intros HK HD Hbound Hready Hus.
  pose proof (ready_inv K D n st HK HD Hbound Hready) as Hinv.
  destruct (schedule_loop_spec K D (Z.of_nat n) HK HD ltac:(lia) Hbound
              st us Hinv Hus) as (st1 & Hsched & Hst1).
  destruct (activeInstance_spec K D (Z.of_nat n) st1 HD ltac:(lia) Hbound Hst1)
    as (idx & i & Hact & Hcov).
  exists st1, idx, i. pose proof Hinv as (_ & Hmn & _).
  rewrite Hmn. split_and!; try done.
  - destruct Hst1 as (_ & _ & Htau & _). lia.
  - intros rnd arm st1' Hget.
    destruct (getAction_state K D (Z.of_nat n) st us rnd arm st1'
                HK HD ltac:(lia) Hbound Hinv Hus Hget) as (Hs' & _).
    congruence.
Qed.

(** *** The rounds never fail *)

Lemma best_loop_Done (K : nat) (score : nat -> outcome R) :
  (forall j, (j < K)%nat -> exists x, score j = Done x) ->
  forall iters i best best_idx,
    (i + iters <= K)%nat -> (best_idx < K)%nat ->
    exists a, best_loop score iters i best best_idx = Done a /\ (a < K)%nat.
Proof.
  intros Hscore. induction iters as [|iters IH]; intros i best best_idx Hi Hb.
  - by exists best_idx.
  - simpl. destruct (Hscore i ltac:(lia)) as [x ->]. simpl.
    destruct (match best with None => true | Some b => Rltb b x end);
      apply IH; lia.
Qed.

Lemma ucb_getAction_Done (K : nat) (a : UCB.UCBStrategy) (rnd : nat) :
  (1 <= K)%nat -> alg_ok K a ->
  exists arm, UCB.getAction a rnd = Done arm /\ (arm < K)%nat.
Proof.
  intros HK (Harms & Hc & Hv). unfold UCB.getAction, UCB.unvisitedArms.
  rewrite PolicyFacts.unvisited_loop_spec by lia. simpl.
  set (unvisited := List.filter _ _). case_bool_decide as Hne.
  - unfold pick_unvisited.
    assert (Hlt : (rnd mod Datatypes.length unvisited
                   < Datatypes.length unvisited)%nat).
    { apply Nat.mod_upper_bound. by destruct unvisited. }
    destruct (lookup_lt_is_Some_2 _ _ Hlt) as [arm Harm].
    exists arm. rewrite (vget_lookup _ _ _ Harm). split; [done|].
    apply list_elem_of_lookup_2, list_elem_of_In, filter_In in Harm as [Hin _].
    apply list_elem_of_In, elem_of_seq in Hin. lia.
  - rewrite Harms. apply (best_loop_Done K); [|lia|lia].
    intros j Hj. unfold UCB.ucb.
    destruct (lookup_lt_is_Some_2 (UCB.m_arm_cumm_reward a) j ltac:(lia))
      as [c Hcj].
    destruct (lookup_lt_is_Some_2 (UCB.m_arm_visits a) j ltac:(lia))
      as [v Hvj].
    rewrite (vget_lookup _ _ _ Hcj). simpl.
    rewrite (vget_lookup _ _ _ Hvj). simpl. by eexists.
Qed.

Lemma ucb_update_Done (K : nat) (a : UCB.UCBStrategy) (arm : nat) (r : bool) :
  alg_ok K a -> (arm < K)%nat ->
  exists a', UCB.update a arm r = Done a' /\ alg_ok K a'.
Proof.
  intros (Harms & Hc & Hv) Harm. unfold UCB.update.
  destruct (lookup_lt_is_Some_2 (UCB.m_arm_cumm_reward a) arm ltac:(lia))
    as [c Hca].
  destruct (lookup_lt_is_Some_2 (UCB.m_arm_visits a) arm ltac:(lia))
    as [v Hva].
  rewrite (vget_lookup _ _ _ Hca). simpl. rewrite vset_lt by lia. simpl.
  rewrite (vget_lookup _ _ _ Hva). simpl. rewrite vset_lt by lia. simpl.
  eexists. split; [done|]. unfold alg_ok. simpl.
  by rewrite !length_insert.
Qed.

Lemma ucb_update_ok (K : nat) (a a' : UCB.UCBStrategy) (arm : nat) (r : bool) :
  alg_ok K a -> UCB.update a arm r = Done a' -> alg_ok K a'.
Proof.
  intros (Harms & Hc & Hv) Hupd. unfold UCB.update in Hupd.
  apply bind_Done_inv in Hupd as (c & _ & Hupd).
  apply bind_Done_inv in Hupd as (cs & Hcs & Hupd).
  apply bind_Done_inv in Hupd as (v & _ & Hupd).
  apply bind_Done_inv in Hupd as (vs & Hvs & Hupd).
  apply vset_Done_inv in Hcs as [_ ->]. apply vset_Done_inv in Hvs as [_ ->].
  apply mret_Done_inv in Hupd as <-.
  unfold alg_ok. simpl. by rewrite !length_insert.
Qed.

Lemma schedule_level_ok K st u m st1 :
  insts_ok K st -> schedule_level u m st = Done st1 -> insts_ok K st1.
Proof.
  intros Hok Hs. pose proof Hok as (Harms & Halgs).
  unfold schedule_level in Hs.
  apply bind_Done_inv in Hs as (p & _ & Hs).
  case_bool_decide; [|by apply mret_Done_inv in Hs as <-].
  destruct (Rltb u _); [|by apply mret_Done_inv in Hs as <-].
  apply bind_Done_inv in Hs as (p' & _ & Hs).
  apply bind_Done_inv in Hs as (cur & Hcur & Hs).
  apply bind_Done_inv in Hs as (insts & Hinsts & Hs).
  apply vset_Done_inv in Hinsts as [Hm ->].
  apply mret_Done_inv in Hs as <-.
  split; [done|]. simpl. intros j i Hj.
  destruct (decide (j = m)) as [->|Hne].
  - rewrite list_lookup_insert_eq in Hj by done. injection Hj as <-.
    apply vget_Done in Hcur.
    destruct cur as [i0|]; simpl.
    + destruct (Halgs m i0 Hcur) as (Ha & _). unfold alg_ok. simpl.
      by rewrite !length_replicate.
    + unfold alg_ok. simpl. by rewrite !length_replicate.
  - rewrite list_lookup_insert_ne in Hj by done. by apply (Halgs j).
Qed.

Lemma schedule_loop_ok K us : forall todo st st1,
  insts_ok K st -> schedule_loop us todo st = Done st1 -> insts_ok K st1.
Proof.
  induction todo as [|m IH]; intros st st1 Hok Hs; simpl in Hs.
  - by apply mret_Done_inv in Hs as <-.
  - apply bind_Done_inv in Hs as (st' & Hl & Hs).
    eapply IH; [|done]. by eapply schedule_level_ok.
Qed.

Lemma update_ok K st1 arm reward st2 :
  insts_ok K st1 -> update st1 arm reward = Done st2 -> insts_ok K st2.
Proof.
  intros (Harms & Halgs) Hupd. unfold update in Hupd.
  apply bind_Done_inv in Hupd as (idx & _ & Hupd).
  apply bind_Done_inv in Hupd as (i & Hi & Hupd).
  apply bind_Done_inv in Hupd as (alg' & Halg & Hupd).
  apply bind_Done_inv in Hupd as (insts & Hinsts & Hupd).
  apply vset_Done_inv in Hinsts as [Hidx ->].
  apply mret_Done_inv in Hupd as <-.
  unfold deref in Hi. apply bind_Done_inv in Hi as (oi & Hoi & Hi).
  destruct oi as [i0|]; [|done]. apply mret_Done_inv in Hi as ->.
  apply vget_Done in Hoi.
  split; [done|]. simpl. intros j i' Hj.
  destruct (decide (j = Z.to_nat idx)) as [->|Hne].
  - rewrite list_lookup_insert_eq in Hj by done. injection Hj as <-. simpl.
    eapply ucb_update_ok; [|done]. by apply (Halgs (Z.to_nat idx)).
  - rewrite list_lookup_insert_ne in Hj by done. by apply (Halgs j).
Qed.

Lemma ready_ok K D n st : ready K D n st -> insts_ok K st.
Proof.
  induction 1 as [|n st us rnd arm st1 reward st2 Hready IH Hus Hget Hupd].
  - split; [done|]. simpl. intros j i Hj.
    apply lookup_replicate in Hj as [Hj _]. done.
  - eapply update_ok; [|done]. unfold getAction in Hget.
    apply bind_Done_inv in Hget as (st1' & Hs & Hget).
    apply bind_Done_inv in Hget as (idx & _ & Hget).
    apply bind_Done_inv in Hget as (i & _ & Hget).
    apply bind_Done_inv in Hget as (a & _ & Hget).
    apply mret_Done_inv in Hget. injection Hget as <- <-.
    by eapply schedule_loop_ok.
Qed.

(** From a reached state the next round returns: the reached states are as
    many as the rounds. *)
Lemma ready_progress (K D n : nat) (st : MalgUCB) (us : nat -> R)
    (rnd : nat) (reward : bool) :
  (1 <= K)%nat -> (D <= 30)%nat ->
  (Z.of_nat n + 2 ^ Z.of_nat D + 1 < 2 ^ 64)%Z ->
  ready K D n st -> unit_draws us ->
  exists arm st1 st2,
    getAction st us rnd = Done (arm, st1) /\ (arm < K)%nat /\
    update st1 arm reward = Done st2 /\ ready K D (S n) st2.
Proof.
  intros HK HD Hbound Hready Hus.
  pose proof (ready_inv K D n st HK HD Hbound Hready) as Hinv.
  destruct (schedule_loop_spec K D (Z.of_nat n) HK HD ltac:(lia) Hbound
              st us Hinv Hus) as (st1 & Hsched & Hst1).
  pose proof (schedule_loop_ok K us _ _ _ (ready_ok K D n st Hready) Hsched)
    as (Harms & Halgs).
  destruct (activeInstance_spec K D (Z.of_nat n) st1 HD ltac:(lia) Hbound Hst1)
    as (idx & i & Hact & Hi & Hcov).
  destruct (ucb_getAction_Done K (alg i) rnd HK (Halgs _ _ Hi))
    as (arm & Harm & Hlt).
  destruct (ucb_update_Done K (alg i) arm reward (Halgs _ _ Hi) Hlt)
    as (alg' & Halg' & _).
  assert (Hget : getAction st us rnd = Done (arm, st1)).
  { unfold getAction. destruct Hinv as (_ & -> & _). rewrite Hsched. simpl.
    rewrite Hact. simpl. unfold deref. rewrite (vget_lookup _ _ _ Hi). simpl.
    by rewrite Harm. }
  assert (Hupd : exists st2, update st1 arm reward = Done st2).
  { unfold update. rewrite Hact. simpl. unfold deref.
    rewrite (vget_lookup _ _ _ Hi). simpl. rewrite Halg'. simpl.
    rewrite vset_lt by (by eapply lookup_lt_Some). simpl. by eexists. }
  destruct Hupd as [st2 Hupd].
  exists arm, st1, st2. split_and!; try done.
  by eapply ready_round.
Qed.

(** The first call on two arms and depth 2, every draw being 0. *)
Lemma malg_active_window_exists_witness :
  exists st1 idx i,
    schedule_loop (fun _ => 0) 3 (make 2 2) = Done st1 /\
    activeInstance st1 = Done idx /\
    covering st1 (Z.to_nat idx) i.
Proof.
  destruct (malg_active_window_exists 2 2 0 (make 2 2) (fun _ => 0))
    as (st1 & idx & i & Hs & Ha & Hc & _).
  - lia.
  - lia.
  - simpl. lia.
  - apply ready_make.
  - intros m. lra.
  - exists st1, idx, i. split; [exact Hs|]. split; [exact Ha|exact Hc].
Defined.

(** *** The first call on two arms and depth 2 *)

(** One turn of the scheduling loop, evaluated. *)
Lemma schedule_level_eval st u m :
  (m <= 30)%nat -> (m < Datatypes.length (m_instances st))%nat ->
  (1 <= m_tau st)%Z -> (m_tau st + 2 ^ Z.of_nat m < 2 ^ 64)%Z ->
  schedule_level u m st
  = Done (if bool_decide (((m_tau st - 1) mod 2 ^ Z.of_nat m)%Z = 0%Z)
             && Rltb u (rho st (2 ^ m_n st) / rho st (2 ^ m))
          then install st m else st).
Proof.
  intros Hm Hlen Htau Hbound. pose proof (pow2_le_30 m Hm) as Hp.
  unfold schedule_level. rewrite !shl1_int_Done by done. simpl.
  rewrite (u64_small (m_tau st - 1)) by lia.
  destruct (bool_decide _); [|done]. destruct (Rltb u _); [|done]. simpl.
  destruct (lookup_lt_is_Some_2 _ _ Hlen) as [cur Hcur].
  rewrite (vget_lookup _ _ _ Hcur). simpl. rewrite vset_lt by done. simpl.
  unfold mret, outcome_ret, install. rewrite Hcur.
  rewrite (u64_small (m_tau st + 2 ^ Z.of_nat m)) by lia.
  rewrite u64_small by lia. by destruct cur.
Qed.

(** The install threshold of level [m] in a MALG over 2 arms and depth 2. *)
Lemma threshold_pos (m : nat) :
  0 < rho (make 2 2) (2 ^ 2) / rho (make 2 2) (2 ^ m).
Proof.
  apply Rdiv_lt_0_compat; apply rho_pos;
    try apply pow2_pos; cbn [m_arms make]; lia.
Qed.

Lemma first_call (us : nat -> R) :
  unit_draws us ->
  exists st1 top,
    schedule_loop us 3 (make 2 2) = Done st1 /\
    rho (make 2 2) (2 ^ 2) / rho (make 2 2) (2 ^ 2) = 1 /\
    m_instances st1 !! 2%nat = Some (Some top) /\
    s top = 1%Z /\ e top = 4%Z /\ length top = 4%Z /\
    activeInstance st1 =
      Done (if Rltb (us 0%nat) (rho (make 2 2) (2 ^ 2) / rho (make 2 2) (2 ^ 0))
            then 0
            else if Rltb (us 1%nat)
                         (rho (make 2 2) (2 ^ 2) / rho (make 2 2) (2 ^ 1))
            then 1 else 2)%Z.
Proof.
  intros Hus.
  assert (Hth : rho (make 2 2) (2 ^ 2) / rho (make 2 2) (2 ^ 2) = 1).
  { pose proof (rho_pos (make 2 2) (2 ^ 2) ltac:(simpl; lia) (pow2_pos 2)).
    field. lra. }
  assert (Hrho : forall st t, m_arms st = 2%nat -> rho st t = rho (make 2 2) t).
  { intros st t Ha. unfold rho. by rewrite Ha. }
  cbn [schedule_loop].
  rewrite schedule_level_eval by (simpl; lia). cbn [mbind outcome_bind].
  change (m_n (make 2 2)) with 2%nat. rewrite Hth.
  rewrite (proj2 (Rltb_true (us 2%nat) 1)) by apply Hus.
  rewrite bool_decide_true by done. cbn [andb].
  set (st_a := install (make 2 2) 2).
  rewrite schedule_level_eval by (simpl; lia). cbn [mbind outcome_bind].
  rewrite !(Hrho st_a) by done. change (m_n st_a) with 2%nat.
  rewrite bool_decide_true by done. cbn [andb].
  destruct (Rltb (us 1%nat) _) eqn:H1.
  - set (st_b := install st_a 1).
    rewrite schedule_level_eval by (simpl; lia). cbn [mbind outcome_bind].
    rewrite !(Hrho st_b) by done. change (m_n st_b) with 2%nat.
    rewrite bool_decide_true by done. cbn [andb].
    destruct (Rltb (us 0%nat) _) eqn:H0.
    + eexists _, _. split; [reflexivity|]. split; [done|].
      split; [reflexivity|]. done.
    + eexists _, _. split; [reflexivity|]. split; [done|].
      split; [reflexivity|]. done.
  - rewrite schedule_level_eval by (simpl; lia). cbn [mbind outcome_bind].
    rewrite !(Hrho st_a) by done. change (m_n st_a) with 2%nat.
    rewrite bool_decide_true by done. cbn [andb].
    destruct (Rltb (us 0%nat) _) eqn:H0.
    + eexists _, _. split; [reflexivity|]. split; [done|].
      split; [reflexivity|]. done.
    + eexists _, _. split; [reflexivity|]. split; [done|].
      split; [reflexivity|]. done.
Qed.

(** C7 as stated fails where every draw is 0: the level-2 instance
    installs, with the window [1, 4] of length 4 and not 1, but so do the
    instances of levels 1 and 0, and the active instance is the one of
    level 0, whose window [1, 1] is the shortest. *)
Lemma malg_first_call_counterexample :
  exists st1 top,
    schedule_loop (fun _ => 0) 3 (make 2 2) = Done st1 /\
    m_instances st1 !! 2%nat = Some (Some top) /\
    length top = 4%Z /\ length top <> 1%Z /\
    activeInstance st1 = Done 0%Z /\
    activeInstance st1 <> Done 2%Z.
Proof.
  destruct (first_call (fun _ => 0)) as (st1 & top & Hs & _ & Ht & _ & _ & Hl & Ha).
  { intros m. lra. }
  rewrite (proj2 (Rltb_true 0 _) (threshold_pos 0)) in Ha.
  exists st1, top. rewrite Ha, Hl. done.
Qed.

(** C7, amended.  For MalgUCB with K = 2 arms and depth D = 2, on the first
    [getAction] call (tau = 1) the level-2 instance, whose window is [1, 4]
    and has length 4, installs whatever the draw (its threshold is
    rho(4)/rho(4) = 1); the active instance is the installed instance with
    the shortest window: level 0 if it installs, else level 1 if it
    installs, and level 2 only when neither does. *)
Theorem malg_first_call_two_arms (us : nat -> R) :
  unit_draws us ->
  exists st1 top,
    schedule_loop us 3 (make 2 2) = Done st1 /\
    rho (make 2 2) (2 ^ 2) / rho (make 2 2) (2 ^ 2) = 1 /\
    m_instances st1 !! 2%nat = Some (Some top) /\
    s top = 1%Z /\ e top = 4%Z /\ length top = 4%Z /\
    activeInstance st1 =
      Done (if Rltb (us 0%nat) (rho (make 2 2) (2 ^ 2) / rho (make 2 2) (2 ^ 0))
            then 0
            else if Rltb (us 1%nat)
                         (rho (make 2 2) (2 ^ 2) / rho (make 2 2) (2 ^ 1))
            then 1 else 2)%Z.
Proof. apply first_call. Qed.

(** Every draw 1/2. *)
Lemma malg_first_call_two_arms_witness :
  exists st1 top,
    schedule_loop (fun _ => 1 / 2) 3 (make 2 2) = Done st1 /\
    m_instances st1 !! 2%nat = Some (Some top) /\
    length top = 4%Z.
Proof.
  destruct (malg_first_call_two_arms (fun _ => 1 / 2))
    as (st1 & top & Hs & _ & Ht & _ & _ & Hl & _).
  - intros m. lra.
  - exists st1, top. split; [exact Hs|]. split; [exact Ht|exact Hl].
Defined.

(** The interaction loop never fails on MALG: every round returns, no
    assertion fails, and the arms chosen are arms. *)
Lemma malg_play_never_fails (K D : nat) :
  (1 <= K)%nat -> (D <= 30)%nat ->
  forall (rounds : list ((nat -> R) * nat * bool)) (n : nat) (st : MalgUCB),
    (Z.of_nat (n + Datatypes.length rounds) + 2 ^ Z.of_nat D < 2 ^ 64)%Z ->
    ready K D n st ->
    Forall (fun o => unit_draws o.1.1) rounds ->
    exists arms st',
      Policy.play (P := Policy.malg_strategy) st rounds = Done (arms, st') /\
      ready K D (n + Datatypes.length rounds) st' /\
      Forall (fun a => (a < K)%nat) arms.
Proof.
  intros HK HD. induction rounds as [|[[us rnd] reward] rest IH];
    intros n st Hbound Hready Hus.
  - exists [], st. rewrite Nat.add_0_r. done.
  - inversion Hus as [|? ? Hus1 Hus2]; subst. simpl in Hus1, Hbound.
    destruct (ready_progress K D n st us rnd reward HK HD ltac:(lia)
                Hready Hus1) as (arm & st1 & st2 & Hget & Harm & Hupd & Hr).
    destruct (IH (S n) st2 ltac:(lia) Hr Hus2) as (arms & st' & Hplay & Hr' & Ha).
    exists (arm :: arms), st'. cbn [Policy.play].
    cbn [Policy.getAction Policy.update Policy.malg_strategy fst snd].
    rewrite Hget. cbn [mbind outcome_bind]. rewrite Hupd.
    cbn [mbind outcome_bind]. rewrite Hplay. cbn [mbind outcome_bind].
    split; [done|]. split; [|by constructor].
    by replace (n + Datatypes.length ((us, rnd, reward) :: rest))%nat
      with (S n + Datatypes.length rest)%nat by (simpl; lia).
Qed.

End MALGFacts.

(** ** The log-domain addition of [common.hpp] *)

Module LogAddFacts.

Lemma ln_le_mono (x y : R) : 0 < x -> x <= y -> ln x <= ln y.
Proof.
  intros Hx [Hlt| ->]; [|lra]. left. by apply ln_increasing.
Qed.

Lemma ln_nonpos (x : R) : 0 < x -> x <= 1 -> ln x <= 0.
Proof. intros Hx Hle. rewrite <- ln_1. by apply ln_le_mono. Qed.

Lemma exp_le_mono (x y : R) : x <= y -> exp x <= exp y.
Proof.
  intros [Hlt| ->]; [|lra]. left. by apply exp_increasing.
Qed.

(** The branch that calls [log1p]: ln (1 + exp (y - x)) + x = ln (e^x + e^y). *)
Lemma log1p_branch (x y : R) : ln (1 + exp (y - x)) + x = ln (exp x + exp y).
Proof.
  pose proof (exp_pos x) as Hx. pose proof (exp_pos (y - x)) as Hd.
  rewrite <- (ln_exp x) at 2. rewrite <- ln_mult by lra. f_equal.
  rewrite Rmult_plus_distr_r, <- exp_plus. replace (y - x + x) with y by lra.
  lra.
Qed.

Lemma max_le_lse (a b : R) : Rmax a b <= ln (exp a + exp b).
Proof.
  pose proof (exp_pos a) as Ha. pose proof (exp_pos b) as Hb.
  apply Rmax_lub.
  - rewrite <- (ln_exp a) at 1. apply ln_le_mono; lra.
  - rewrite <- (ln_exp b) at 1. apply ln_le_mono; lra.
Qed.

Lemma logAdd_ordered (x y : R) :
  x <= y ->
  logAdd x y = (if Rltb (y - x) 100 then ln (exp x + exp y) else y) /\
  logAdd y x = (if Rltb (y - x) 100 then ln (exp x + exp y) else y).
Proof.
  intros Hle. unfold logAdd. split.
  - rewrite (proj2 (Rltb_false y x)) by lra.
    destruct (Rltb (y - x) 100); [apply log1p_branch|lra].
  - destruct (Rltb x y) eqn:Hlt.
    + destruct (Rltb (y - x) 100); [apply log1p_branch|lra].
    + apply Rltb_false in Hlt. assert (y = x) as -> by lra.
      destruct (Rltb (x - x) 100); [apply log1p_branch|lra].
Qed.

Lemma Rltb_ext (a b c : R) : a = b -> Rltb a c = Rltb b c.
Proof. by intros ->. Qed.

Lemma logAdd_form (a b : R) :
  logAdd a b = logAdd b a /\
  logAdd a b =
    (if Rltb (Rabs (a - b)) 100 then ln (exp a + exp b) else Rmax a b).
Proof.
  destruct (Rle_dec a b) as [Hle|Hgt].
  - destruct (logAdd_ordered a b Hle) as [H1 H2]. split; [congruence|].
    rewrite H1, Rmax_right by done.
    by rewrite (Rltb_ext (Rabs (a - b)) (b - a))
      by (rewrite Rabs_left1; lra).
  - assert (Hle : b <= a) by lra.
    destruct (logAdd_ordered b a Hle) as [H1 H2]. split; [congruence|].
    rewrite H2, Rmax_left by done.
    rewrite (Rltb_ext (Rabs (a - b)) (a - b)) by (rewrite Rabs_right; lra).
    by rewrite (Rplus_comm (exp b)).
Qed.

Lemma logAdd_le_lse (a b : R) : logAdd a b <= ln (exp a + exp b).
Proof.
  destruct (logAdd_form a b) as [_ ->].
  destruct (Rltb _ _); [lra|apply max_le_lse].
Qed.





End LogAddFacts.

(** ** More on the KT estimator *)

Module KTBounds.
Import KT KTFacts.

Lemma pred_prob_bounds past b :
  0 < pred_prob past b < 1 /\ pred_prob past false + pred_prob past true = 1.
Proof.
  unfold pred_prob.
  pose proof (pos_INR (occ false past)) as H0.
  pose proof (pos_INR (occ true past)) as H1.
  set (d := INR (occ false past) + INR (occ true past) + 1).
  assert (Hd : 0 < d) by (unfold d; lra).
  split; [split|].
  - apply Rdiv_lt_0_compat; [destruct b; lra|done].
  - apply (Rmult_lt_reg_r d); [done|].
    unfold Rdiv. rewrite Rmult_assoc, Rinv_l by lra.
    destruct b; unfold d; lra.
  - unfold d. field. fold d. lra.
Qed.

(** X2. After any sequence of bits shorter than 2^64, the predictions of the
    estimator for the two symbols are positive and add up to one. *)
Theorem kt_prob_is_distribution (bs : list bool) :
  (Z.of_nat (length bs) < 2 ^ 64)%Z ->
  let e := feed fresh bs in
  0 < prob e false /\ 0 < prob e true /\ prob e false + prob e true = 1.
Proof.
  intros Hlen e.
  destruct (feed_tracks bs fresh []) as [Ht _]; [done|simpl; lia|].
  simpl in Ht. fold e in Ht.
  rewrite !(prob_tracks e bs) by done.
  pose proof (pred_prob_bounds bs false) as [[? ?] ?].
  pose proof (pred_prob_bounds bs true) as [[? ?] ?]. done.
Qed.

Lemma kt_prob_is_distribution_witness :
  let e := feed fresh [true; true; false] in
  0 < prob e false /\ 0 < prob e true /\ prob e false + prob e true = 1.
Proof. apply (kt_prob_is_distribution [true; true; false]). simpl. lia. Defined.

Lemma feed_snoc e bs b : feed e (bs ++ [b]) = update (feed e bs) b.
Proof. unfold feed. by rewrite fold_left_app. Qed.

Lemma seq_logprob_nonpos bs : forall past, seq_logprob past bs <= 0.
Proof.
  induction bs as [|b tl IH]; intros past; simpl; [lra|].
  pose proof (pred_prob_bounds past b) as [[Hp Hq] _].
  pose proof (LogAddFacts.ln_nonpos (pred_prob past b) Hp) as Hln.
  specialize (IH (past ++ [b])). lra.
Qed.

(** X3. The log-marginal of a fresh estimator is never positive, and every
    further bit makes it strictly smaller. *)
Theorem kt_logMarginal_decreases (bs : list bool) (b : bool) :
  (Z.of_nat (length bs) < 2 ^ 64)%Z ->
  logMarginal (feed fresh (bs ++ [b])) < logMarginal (feed fresh bs) <= 0.
Proof.
  intros Hlen.
  destruct (feed_tracks bs fresh []) as [Ht Hl]; [done|simpl; lia|].
  simpl in Ht. rewrite feed_snoc. unfold logMarginal. rewrite update_log.
  rewrite (prob_tracks _ bs) by done.
  pose proof (pred_prob_bounds bs b) as [[Hp Hq] _].
  assert (ln (pred_prob bs b) < 0).
  { rewrite <- ln_1. by apply ln_increasing. }
  rewrite Hl. simpl. pose proof (seq_logprob_nonpos bs []). lra.
Qed.

Lemma kt_logMarginal_decreases_witness :
  logMarginal (feed fresh ([true; false] ++ [true]))
    < logMarginal (feed fresh [true; false]) <= 0.
Proof. apply (kt_logMarginal_decreases [true; false] true). simpl. lia. Defined.

(** Two bits in either order: same counts, same log-probability. *)
Lemma update_swap e past a b :
  tracks e past -> (Z.of_nat (length past) < 2 ^ 64 - 2)%Z ->
  update (update e a) b = update (update e b) a.
Proof.
  intros Ht Hlen. destruct (bool_decide (a = b)) eqn:Hab.
  { apply bool_decide_eq_true in Hab. by subst. }
  apply bool_decide_eq_false in Hab.
  pose proof (update_tracks e past a Ht ltac:(lia)) as Hta.
  pose proof (update_tracks e past b Ht ltac:(lia)) as Htb.
  assert (Hl : m_log_kt (update (update e a) b)
               = m_log_kt (update (update e b) a)).
  { rewrite !update_log.
    rewrite (prob_tracks e past), (prob_tracks e past) by (done || lia).
    rewrite (prob_tracks _ (past ++ [a])), (prob_tracks _ (past ++ [b]))
      by (done || rewrite length_app; simpl; lia).
    unfold pred_prob. rewrite !occ_snoc.
    pose proof (pos_INR (occ false past)) as H0.
    pose proof (pos_INR (occ true past)) as H1.
    destruct a, b; try done; simpl;
      repeat (destruct (Bool.bool_dec _ _); try done);
      rewrite ?Nat.add_0_r, ?plus_INR; simpl;
      unfold Rdiv; rewrite !ln_mult, !ln_Rinv;
      try lra; try (apply Rinv_0_lt_compat; lra);
      replace (INR (occ false past) + (INR (occ true past) + 1) + 1)
        with (INR (occ false past) + 1 + INR (occ true past) + 1) by lra;
      lra. }
  destruct Ht as [H0 H1]. pose proof (occ_total past) as Htot.
  destruct e as [l c0 c1]. simpl in *.
  destruct a, b; try done; unfold update in *; simpl in *;
    rewrite Hl; done.
Qed.

Lemma feed_perm bs bs' :
  Permutation bs bs' ->
  forall e past, tracks e past ->
    (Z.of_nat (length past + length bs) < 2 ^ 64)%Z ->
    feed e bs = feed e bs'.
Proof.
  induction 1 as [|x l l' Hp IH|x y l|l l' l'' Hp1 IH1 Hp2 IH2];
    intros e past Ht Hlen; simpl in *.
  - done.
  - unfold feed in *. simpl. apply (IH _ (past ++ [x])).
    + apply update_tracks; [done|lia].
    + rewrite length_app. simpl. lia.
  - unfold feed. simpl. f_equal. apply (update_swap e past); [done|lia].
  - rewrite (IH1 e past) by done. apply (IH2 e past); [done|].
    apply Permutation_length in Hp1. lia.
Qed.

(** X4. The estimator is exchangeable: two sequences of bits that are
    rearrangements of each other leave a fresh estimator in the same state,
    so its log-marginal and its posterior depend on the counts alone. *)
Theorem kt_order_invariant (bs bs' : list bool) :
  Permutation bs bs' -> (Z.of_nat (length bs) < 2 ^ 64)%Z ->
  feed fresh bs = feed fresh bs'.
Proof.
  intros Hp Hlen. apply (feed_perm bs bs' Hp fresh []); [done|simpl; lia].
Qed.

Lemma kt_order_invariant_witness :
  feed fresh [true; false; true] = feed fresh [false; true; true].
Proof.
  apply (kt_order_invariant [true; false; true] [false; true; true]).
  - apply perm_trans with [false; true; true]; [apply perm_swap|done].
  - simpl. lia.
Defined.

End KTBounds.
(** ** The blocks of Active PTW *)

Module PTWBlocks.
Import PTW PTWFacts.

(** *** [mscb] and the dyadic boundaries *)

Lemma testbit_above (a : Z) (n : Z) :
  (0 <= a < 2 ^ n)%Z -> (0 <= n)%Z -> Z.testbit a n = false.
Proof.
  intros Ha Hn. apply Z.testbit_false; [done|].
  rewrite Z.div_small by done. done.
Qed.

Lemma differ_at_top (a c : Z) :
  (0 <= a)%Z -> (0 <= c)%Z ->
  Z.testbit (a + 1) c <> Z.testbit a c ->
  (forall n, (c < n)%Z -> Z.testbit (a + 1) n = Z.testbit a n) ->
  ((a + 1) mod 2 ^ (c + 1) = 2 ^ c)%Z.
Proof.
  intros Ha Hc Hdiff Hagree.
  assert (Hq : (Z.shiftr (a + 1) (c + 1) = Z.shiftr a (c + 1))%Z).
  { apply Z.bits_inj'. intros n Hn. rewrite !Z.shiftr_spec by done.
    apply Hagree. lia. }
  rewrite !Z.shiftr_div_pow2 in Hq by lia.
  assert (HP : (0 < 2 ^ c)%Z) by (apply Z.pow_pos_nonneg; lia).
  assert (Hpw : (2 ^ (c + 1) = 2 * 2 ^ c)%Z)
    by (rewrite Z.pow_add_r by lia; lia).
  rewrite Hpw in *.
  set (P := (2 ^ c)%Z) in *.
  pose proof (Z.div_mod (a + 1) (2 * P) ltac:(lia)) as Eb.
  pose proof (Z.div_mod a (2 * P) ltac:(lia)) as Ea.
  pose proof (Z.mod_pos_bound (a + 1) (2 * P) ltac:(lia)) as Bb.
  pose proof (Z.mod_pos_bound a (2 * P) ltac:(lia)) as Ba.
  rewrite Hq in Eb.
  set (q := (a / (2 * P))%Z) in *.
  set (rb := ((a + 1) mod (2 * P))%Z) in *.
  set (ra := (a mod (2 * P))%Z) in *.
  assert (Hr : (rb = ra + 1)%Z) by lia.
  (* the bit c of a number is that of its remainder modulo 2P *)
  assert (Hbit : forall x, Z.testbit x c = Z.testbit (x mod (2 * P)) c).
  { intros x. rewrite <- Hpw.
    rewrite Z.mod_pow2_bits_low by lia. done. }
  rewrite (Hbit (a + 1)%Z), (Hbit a) in Hdiff. fold rb ra in Hdiff.
  assert (Hlow : forall r, (0 <= r < 2 * P)%Z ->
            Z.testbit r c = bool_decide (P <= r)%Z).
  { intros r Hr'. case_bool_decide as Hle.
    - apply Z.testbit_true; [done|]. fold P.
      assert (r / P = 1)%Z as ->; [|done].
      symmetry. apply (Z.div_unique r P 1 (r - P)); lia.
    - apply Z.testbit_false; [done|]. fold P.
      rewrite Z.div_small by lia. done. }
  rewrite (Hlow rb), (Hlow ra) in Hdiff by lia.
  repeat case_bool_decide; try done; lia.
Qed.

Lemma mscb_dyadic (depth : nat) (t : Z) :
  (1 <= depth <= 63)%nat -> (2 <= t <= 2 ^ Z.of_nat depth)%Z ->
  ((t - 1) mod 2 ^ Z.of_nat (depth - mscb depth t)
   = 2 ^ Z.of_nat (depth - 1 - mscb depth t))%Z.
Proof.
  intros Hd Ht.
  assert (Hpow : (2 ^ Z.of_nat depth <= 2 ^ 63)%Z)
    by (apply Z.pow_le_mono_r; lia).
  destruct (mscb_highest_differing_bit depth t) as (Hi & Hdiff & Hagree);
    [lia|lia|].
  set (i := mscb depth t) in *.
  replace (Z.of_nat (depth - i)) with (Z.of_nat (depth - 1 - i) + 1)%Z by lia.
  replace (t - 1)%Z with (t - 2 + 1)%Z in * by lia.
  apply differ_at_top; [lia|lia|done|].
  intros n Hn. destruct (decide (n < Z.of_nat depth)%Z) as [Hlt|Hge].
  - specialize (Hagree (Z.to_nat n) ltac:(lia)).
    rewrite Z2Nat.id in Hagree by lia. done.
  - assert (2 ^ Z.of_nat depth <= 2 ^ n)%Z by (apply Z.pow_le_mono_r; lia).
    rewrite !testbit_above; try done; lia.
Qed.

(** The levels below [mscb(t)] are those whose block length divides
    t - 1. *)
Lemma mscb_below_iff (depth : nat) (t : Z) (j : nat) :
  (1 <= depth <= 63)%nat -> (2 <= t <= 2 ^ Z.of_nat depth)%Z ->
  (j <= depth)%nat ->
  (mscb depth t < j)%nat <-> ((t - 1) mod 2 ^ Z.of_nat (depth - j) = 0)%Z.
Proof.
  intros Hd Ht Hj.
  assert (Hpow : (2 ^ Z.of_nat depth <= 2 ^ 63)%Z)
    by (apply Z.pow_le_mono_r; lia).
  assert (Hi : (mscb depth t < depth)%nat) by (apply mscb_lt; lia).
  pose proof (mscb_dyadic depth t Hd Ht) as Hdy.
  set (i := mscb depth t) in *.
  assert (Hc : (0 < 2 ^ Z.of_nat (depth - 1 - i))%Z)
    by (apply Z.pow_pos_nonneg; lia).
  assert (Hj2 : (0 < 2 ^ Z.of_nat (depth - j))%Z)
    by (apply Z.pow_pos_nonneg; lia).
  split.
  - intros Hlt. apply Z.mod_divide; [lia|].
    assert (Hdiv1 : (2 ^ Z.of_nat (depth - j) | 2 ^ Z.of_nat (depth - 1 - i))%Z).
    { exists (2 ^ Z.of_nat (depth - 1 - i - (depth - j)))%Z.
      rewrite <- Z.pow_add_r by lia. f_equal. lia. }
    assert (Hdiv2 : (2 ^ Z.of_nat (depth - j) | 2 ^ Z.of_nat (depth - i))%Z).
    { exists (2 ^ Z.of_nat (depth - i - (depth - j)))%Z.
      rewrite <- Z.pow_add_r by lia. f_equal. lia. }
    rewrite (Z.div_mod (t - 1) (2 ^ Z.of_nat (depth - i))), Hdy
      by (apply Z.pow_nonzero; lia).
    apply Z.divide_add_r; [|done]. by apply Z.divide_mul_l.
  - intros Hmod. destruct (decide (i < j)%nat) as [|Hge]; [done|exfalso].
    apply Z.mod_divide in Hmod; [|lia].
    assert (Hdiv : (2 ^ Z.of_nat (depth - i) | 2 ^ Z.of_nat (depth - j))%Z).
    { exists (2 ^ Z.of_nat (depth - j - (depth - i)))%Z.
      rewrite <- Z.pow_add_r by lia. f_equal. lia. }
    assert (Hall : (2 ^ Z.of_nat (depth - i) | t - 1)%Z)
      by (by apply (Z.divide_trans _ (2 ^ Z.of_nat (depth - j)))).
    apply Z.mod_divide in Hall; [|apply Z.pow_nonzero; lia]. lia.
Qed.

(** X5. For a time step t of 2 .. 2^depth, [mscb(t)] is depth - 1 - v, where v
    is the number of times 2 divides t - 1: t - 1 is an odd multiple of
    2^(depth - 1 - mscb(t)).  The levels below [mscb(t)] are therefore
    the ones whose blocks begin at step t. *)
Theorem mscb_is_dyadic_valuation (depth : nat) (t : Z) :
  (1 <= depth <= 63)%nat -> (2 <= t <= 2 ^ Z.of_nat depth)%Z ->
  let i := mscb depth t in
  (i < depth)%nat /\
  ((t - 1) mod 2 ^ Z.of_nat (depth - i) = 2 ^ Z.of_nat (depth - 1 - i))%Z /\
  forall j, (j <= depth)%nat ->
    ((i < j)%nat <-> ((t - 1) mod 2 ^ Z.of_nat (depth - j) = 0)%Z).
Proof.
  intros Hd Ht i.
  assert (Hpow : (2 ^ Z.of_nat depth <= 2 ^ 63)%Z)
    by (apply Z.pow_le_mono_r; lia).
  split_and!.
  - apply mscb_lt; lia.
  - by apply mscb_dyadic.
  - intros j Hj. by apply mscb_below_iff.
Qed.

Lemma mscb_is_dyadic_valuation_witness :
  let i := mscb 3 5 in
  (i < 3)%nat /\
  ((5 - 1) mod 2 ^ Z.of_nat (3 - i) = 2 ^ Z.of_nat (3 - 1 - i))%Z /\
  forall j, (j <= 3)%nat ->
    ((i < j)%nat <-> ((5 - 1) mod 2 ^ Z.of_nat (3 - j) = 0)%Z).
Proof. apply (mscb_is_dyadic_valuation 3 5); simpl; lia. Defined.

(** *** The observations a node holds *)

(** Level [j] starts a new block at step n + 1 exactly when its node is
    below [mscb(n + 1)]. *)
Lemma reset_iff_boundary (D j n : nat) :
  (1 <= D <= 30)%nat -> (j <= D)%nat -> (n < 2 ^ D)%nat ->
  (mscb D (Z.of_nat n + 1) < j)%nat
  <-> (j <> 0%nat /\ n mod 2 ^ (D - j) = 0)%nat.
Proof.
  intros HD Hj Hn.
  assert (HnZ : (Z.of_nat n < 2 ^ Z.of_nat D)%Z).
  { apply Nat2Z.inj_lt in Hn. rewrite Nat2Z.inj_pow in Hn. done. }
  assert (Hmod : forall m, (n mod 2 ^ m = 0)%nat
                 <-> (Z.of_nat n mod 2 ^ Z.of_nat m = 0)%Z).
  { intros m.
    assert (Z.of_nat (n mod 2 ^ m) = Z.of_nat n mod 2 ^ Z.of_nat m)%Z
      by (by rewrite Nat2Z.inj_mod, Nat2Z.inj_pow).
    lia. }
  destruct (decide (n = 0)%nat) as [->|Hn0].
  - simpl. rewrite mscb_1. rewrite Nat.Div0.mod_0_l. lia.
  - pose proof (mscb_below_iff D (Z.of_nat n + 1) j ltac:(lia) ltac:(lia) Hj)
      as Hiff.
    replace (Z.of_nat n + 1 - 1)%Z with (Z.of_nat n) in Hiff by lia.
    rewrite Hmod, <- Hiff. split; [|tauto].
    intros Hlt. split; [lia|done].
Qed.

Lemma observe_all_snoc obs o model :
  observe_all (obs ++ [o]) model = observe o.2 o.1 (observe_all obs model).
Proof. unfold observe_all. by rewrite fold_left_app. Qed.

Lemma node_at_make D K j :
  (j <= D)%nat -> node_at (make D K) j = fresh_node K.
Proof.
  intros Hj. unfold node_at, make. simpl.
  rewrite lookup_replicate_2 by lia. done.
Qed.

Lemma block_start_le D j n : (block_start D j n <= n - 1)%nat.
Proof.
  unfold block_start. set (B := (2 ^ (D - j))%nat).
  assert (B <> 0)%nat by (apply Nat.pow_nonzero; lia).
  pose proof (Nat.div_mod_eq (n - 1) B). nia.
Qed.

Lemma block_start_boundary D j n :
  (n mod 2 ^ (D - j) = 0)%nat -> block_start D j (S n) = n.
Proof.
  intros Hmod. unfold block_start. replace (S n - 1)%nat with n by lia.
  set (B := (2 ^ (D - j))%nat) in *.
  pose proof (Nat.div_mod_eq n B). lia.
Qed.

Lemma block_start_inside D j n :
  (n mod 2 ^ (D - j) <> 0)%nat -> block_start D j (S n) = block_start D j n.
Proof.
  intros Hmod. unfold block_start. replace (S n - 1)%nat with n by lia.
  set (B := (2 ^ (D - j))%nat) in *.
  assert (HB : (B <> 0)%nat) by (apply Nat.pow_nonzero; lia).
  f_equal. destruct n as [|m]; [by rewrite Nat.Div0.mod_0_l in Hmod|].
  replace (S m - 1)%nat with m by lia.
  pose proof (Nat.div_mod_eq (S m) B) as E.
  pose proof (Nat.mod_upper_bound (S m) B HB) as Hb.
  apply (Nat.div_unique m B (S m / B) (S m mod B - 1)); lia.
Qed.

Lemma block_start_top D n : (n <= 2 ^ D)%nat -> block_start D 0 n = 0%nat.
Proof.
  intros Hn. unfold block_start. rewrite Nat.sub_0_r.
  destruct n as [|m]; [simpl; by rewrite Nat.Div0.div_0_l|].
  rewrite Nat.div_small by lia. done.
Qed.

Lemma block_start_leaf D n : block_start D D n = (n - 1)%nat.
Proof.
  unfold block_start. rewrite Nat.sub_diag.
  change (2 ^ 0)%nat with 1%nat. rewrite Nat.div_1_r. lia.
Qed.

(** The models of the nodes after a run from the fresh state. *)
Lemma run_models (D K : nat) : forall obs,
  (1 <= D <= 30)%nat ->
  Forall (fun o : bool * nat => (o.2 < K)%nat) obs ->
  (length obs <= 2 ^ D)%nat ->
  exists s, run (make D K) obs = Done s /\ wf s /\
    m_index s = Z.of_nat (length obs) /\ m_depth s = D /\ m_arms s = K /\
    forall j, (j <= D)%nat ->
      m_model (node_at s j)
      = observe_all (drop (block_start D j (length obs)) obs)
                    (replicate K KT.fresh).
Proof.
  intros obs HD. induction obs as [|[r k] obs IH] using rev_ind;
    intros Hk Hlen.
  - exists (make D K). simpl. split_and!; try done; [by apply make_wf|].
    intros j Hj. rewrite node_at_make by done. simpl. by rewrite drop_nil.
  - apply Forall_app in Hk as [Hk1 Hk2].
    inversion Hk2 as [|? ? Hk3 _]; subst. simpl in Hk3.
    rewrite length_app in *. simpl in Hlen.
    destruct IH as (s & Hrun & Hwf & Hidx & Hd & Ha & Hmodels);
      [done|lia|].
    assert (HlenZ : (Z.of_nat (length obs) < 2 ^ Z.of_nat D)%Z).
    { assert (Z.of_nat (2 ^ D) = 2 ^ Z.of_nat D)%Z
        by (by rewrite Nat2Z.inj_pow).
      lia. }
    assert (Hlt : (m_index s < 2 ^ Z.of_nat (m_depth s))%Z) by (rewrite Hidx, Hd; lia).
    rewrite run_app, Hrun. simpl.
    rewrite (update_refines s r k) by (done || lia). simpl.
    exists (update_spec s r k).
    split_and!; try done.
    + by apply update_spec_wf.
    + simpl. lia.
    + intros j Hj.
      destruct (update_spec_levels s r k Hwf Hlt j ltac:(lia)) as (Hm & _).
      rewrite Hm. rewrite Hidx, Hd. simpl length.
      replace (length obs + 1)%nat with (S (length obs)) by lia.
      set (i := mscb D (Z.of_nat (length obs) + 1)).
      pose proof (reset_iff_boundary D j (length obs) HD Hj ltac:(lia)) as Hreset.
      fold i in Hreset. unfold staged.
      destruct (decide (i < j)%nat) as [Hij|Hij].
      * apply Hreset in Hij as [Hj0 Hmod].
        rewrite decide_False by lia. rewrite decide_False by lia.
        rewrite block_start_boundary by done.
        rewrite drop_app_length. simpl. by rewrite Ha.
      * assert (Hkeep : m_model
            (if decide (j < i)%nat then node_at s j
             else if decide (j = i) then
               {| m_model := m_model (node_at s i);
                  m_log_weighted := m_log_weighted (node_at s i);
                  m_log_buf := m_log_weighted (node_at s (i + 1)) |}
             else fresh_node (m_arms s)) = m_model (node_at s j)).
        { destruct (decide (j < i)%nat); [done|].
          destruct (decide (j = i)) as [->|]; [done|lia]. }
        rewrite Hkeep, Hmodels by done.
        assert (Hbs : block_start D j (S (length obs))
                      = block_start D j (length obs)).
        { destruct (decide (length obs mod 2 ^ (D - j) = 0)%nat) as [Hmod|Hmod].
          - assert (j = 0)%nat as -> by tauto.
            rewrite !block_start_top by lia. done.
          - by apply block_start_inside. }
        rewrite Hbs.
        pose proof (block_start_le D j (length obs)).
        rewrite drop_app_le by lia.
        by rewrite observe_all_snoc.
Qed.

Lemma observe_all_lookup (a : nat) : forall obs model e,
  model !! a = Some e ->
  observe_all obs model !! a = Some (KT.feed e (rewards_of a obs)).
Proof.
  induction obs as [|[r k] obs IH]; intros model e He; simpl; [done|].
  unfold rewards_of. rewrite filter_cons. simpl.
  destruct (decide (k = a)) as [->|Hne].
  - simpl. apply IH. unfold observe. rewrite list_lookup_alter, He.
    by rewrite decide_True.
  - apply IH. unfold observe. rewrite list_lookup_alter_ne by done. done.
Qed.

Lemma rewards_of_length a obs : (length (rewards_of a obs) <= length obs)%nat.
Proof.
  unfold rewards_of. rewrite length_map. apply length_filter.
Qed.

(** The posterior of a node whose model is known. *)
Lemma posterior_block (D K : nat) (obs : list (bool * nat)) s (j arm : nat) :
  (1 <= D <= 30)%nat -> wf s -> m_depth s = D ->
  (length obs <= 2 ^ D)%nat -> (j <= D)%nat -> (arm < K)%nat ->
  m_model (node_at s j)
    = observe_all (drop (block_start D j (length obs)) obs)
                  (replicate K KT.fresh) ->
  let block := drop (block_start D j (length obs)) obs in
  posterior s j arm =
    Done (1 / 2 + INR (KT.occ true (rewards_of arm block)),
          1 / 2 + INR (KT.occ false (rewards_of arm block))).
Proof.
  intros HD Hwf Hd Hlen Hj Harm Hmodel block. unfold posterior.
  rewrite (vget_lookup _ _ (node_at s j))
    by (apply node_at_lookup; rewrite (wf_nodes s Hwf); lia).
  simpl. rewrite Hmodel. fold block.
  rewrite (vget_lookup _ _ (KT.feed KT.fresh (rewards_of arm block))).
  2:{ apply observe_all_lookup. by apply lookup_replicate_2. }
  simpl.
  assert (Hb : (Z.of_nat (length (rewards_of arm block)) < 2 ^ 64)%Z).
  { pose proof (rewards_of_length arm block) as Hr. unfold block in *.
    rewrite length_drop in Hr.
    assert (Z.of_nat (2 ^ D) = 2 ^ Z.of_nat D)%Z
      by (by rewrite Nat2Z.inj_pow).
    pose proof (pow2_le_30 D ltac:(lia)). lia. }
  destruct (KTFacts.feed_tracks (rewards_of arm block) KT.fresh [])
    as [[H0 H1] _]; [done|simpl; lia|].
  simpl in H0, H1. unfold KT.posterior, KT.KT_Alpha, mret, outcome_ret.
  simpl. rewrite H0, H1, <- !INR_IZR_INZ. done.
Qed.

(** X6. After any run of at most 2^D observations on a fresh model, the node of
    level [j] holds exactly the observations of the current block of that
    level: its posterior for an arm counts the rewards this arm received
    since the block began.  Level 0 has a single block, so it counts the
    whole history; a block of the leaf level is one step, so the leaf
    counts the last observation alone. *)
Theorem node_counts_current_block (D K : nat) (obs : list (bool * nat))
    (j arm : nat) :
  (1 <= D <= 30)%nat ->
  Forall (fun o : bool * nat => (o.2 < K)%nat) obs ->
  (length obs <= 2 ^ D)%nat ->
  (j <= D)%nat -> (arm < K)%nat ->
  let block := drop (block_start D j (length obs)) obs in
  (j = 0%nat -> block = obs) /\
  (j = D -> block = drop (length obs - 1) obs) /\
  exists s, run (make D K) obs = Done s /\
    posterior s j arm =
      Done (1 / 2 + INR (KT.occ true (rewards_of arm block)),
            1 / 2 + INR (KT.occ false (rewards_of arm block))).
Proof.
  intros HD Hk Hlen Hj Harm block. split_and!.
  - intros ->. unfold block. rewrite block_start_top by done. done.
  - intros ->. unfold block. rewrite block_start_leaf. done.
  - destruct (run_models D K obs HD Hk Hlen)
      as (s & Hrun & Hwf & Hidx & Hd & Ha & Hmodels).
    exists s. split; [done|].
    apply (posterior_block D K obs s j arm); try done. by apply Hmodels.
Qed.

Lemma node_counts_current_block_witness :
  let obs := [(true, 0%nat); (false, 1%nat); (true, 1%nat)] in
  let block := drop (block_start 2 1 (length obs)) obs in
  (1%nat = 0%nat -> block = obs) /\
  (1%nat = 2%nat -> block = drop (length obs - 1) obs) /\
  exists s, run (make 2 2) obs = Done s /\
    posterior s 1 1 =
      Done (1 / 2 + INR (KT.occ true (rewards_of 1 block)),
            1 / 2 + INR (KT.occ false (rewards_of 1 block))).
Proof.
  apply (node_counts_current_block 2 2
           [(true, 0%nat); (false, 1%nat); (true, 1%nat)] 1 1);
    simpl; try lia.
  repeat constructor; simpl; lia.
Defined.

(** *** The prior over the levels *)

Lemma stop_weight (K : nat) :
  (2 <= K)%nat ->
  0 < (INR K - 1) / INR K < 1 /\ 1 - (INR K - 1) / INR K = / INR K /\
  0 < / INR K < 1.
Proof.
  intros HK. assert (Ha : 2 <= INR K) by (apply (le_INR 2); lia).
  assert (Hi : 0 < / INR K) by (apply Rinv_0_lt_compat; lra).
  assert (Hone : INR K * / INR K = 1) by (apply Rinv_r; lra).
  unfold Rdiv. split_and!; nra.
Qed.

Lemma levelPosterior_loop_fresh (D K : nat) :
  (2 <= K)%nat ->
  forall iters i dest, (i + iters = D + 1)%nat ->
    levelPosterior_loop (make D K) iters i ((/ INR K) ^ i) dest
    = Done (dest ++ map (fun j => (INR K - 1) / INR K * (/ INR K) ^ j)
                        (seq i iters)).
Proof.
  intros HK. destruct (stop_weight K HK) as (Hq & Hsplit & Hinv).
  induction iters as [|iters IH]; intros i dest Hi.
  - simpl. by rewrite app_nil_r.
  - cbn [levelPosterior_loop].
    rewrite (vget_lookup _ _ (fresh_node K))
      by (simpl; apply lookup_replicate_2; lia).
    cbn [mbind outcome_bind]. rewrite fresh_node_logMarginal.
    cbn [make LogStopWeight fresh_node m_log_weighted].
    replace (ln ((INR K - 1) / INR K) + 0 - 0)
      with (ln ((INR K - 1) / INR K)) by lra.
    rewrite exp_ln by lra.
    set (q := (INR K - 1) / INR K) in *.
    assert (Hm : 0 < (/ INR K) ^ i <= 1).
    { split; [apply pow_lt; lra|].
      rewrite <- (pow1 i). apply pow_incr. lra. }
    set (m := (/ INR K) ^ i) in *.
    rewrite (Rmax_left (m * (1 - q)) 0) by nra.
    rewrite !assert_true
      by (apply andb_true_iff; split; apply Rleb_true; nra).
    cbn [mbind outcome_bind].
    replace (m * (1 - q)) with ((/ INR K) ^ S i)
      by (rewrite Hsplit; unfold m; simpl; lra).
    rewrite IH by lia. rewrite <- app_assoc. simpl.
    do 3 f_equal. unfold m. lra.
Qed.

Lemma Rsum_geometric (x : R) (n : nat) :
  Rsum (map (fun j => (1 - x) * x ^ j) (seq 0 n)) = 1 - x ^ n.
Proof.
  induction n as [|n IH]; [simpl; lra|].
  rewrite seq_S, map_app. cbn [map]. rewrite Rsum_snoc, IH. simpl. lra.
Qed.

(** X7. Before any observation, with K >= 2 arms, [levelPosterior()] is the
    geometric prior: level j has mass (K-1)/K * K^(-j).  The D + 1 masses
    add up to 1 - K^(-(D+1)): the mass that would split below the leaf is
    given to no level. *)
Theorem levelPosterior_prior_is_geometric (D K : nat) :
  (2 <= K)%nat ->
  let prior := map (fun j => (INR K - 1) / INR K * (/ INR K) ^ j)
                   (seq 0 (D + 1)) in
  levelPosterior (make D K) = Done prior /\
  Rsum prior = 1 - (/ INR K) ^ (D + 1).
Proof.
  intros HK prior. destruct (stop_weight K HK) as (Hq & Hsplit & Hinv).
  split.
  - unfold levelPosterior.
    pose proof (levelPosterior_loop_fresh D K HK (D + 1) 0 [] ltac:(lia))
      as Hloop.
    simpl pow in Hloop. cbn [m_depth make]. rewrite Hloop.
    cbn [mbind outcome_bind app]. fold prior.
    rewrite assert_true; [done|].
    apply bool_decide_eq_true. unfold prior.
    by rewrite length_map, length_seq.
  - unfold prior. rewrite <- (Rsum_geometric (/ INR K) (D + 1)).
    f_equal. apply map_ext. intros j. rewrite <- Hsplit. lra.
Qed.

Lemma levelPosterior_prior_is_geometric_witness :
  let prior := map (fun j => (INR 2 - 1) / INR 2 * (/ INR 2) ^ j)
                   (seq 0 (3 + 1)) in
  levelPosterior (make 3 2) = Done prior /\
  Rsum prior = 1 - (/ INR 2) ^ (3 + 1).
Proof. apply (levelPosterior_prior_is_geometric 3 2). lia. Defined.

(** *** Sound estimators in every node *)

Lemma kt_ok_mono n m e : kt_ok n e -> (n <= m)%Z -> kt_ok m e.
Proof. intros (H0 & H1 & Hs & Hl) Hle. split_and!; try done. lia. Qed.

Lemma kt_ok_fresh : kt_ok 0 KT.fresh.
Proof. split_and!; simpl; (lia || lra). Qed.

Lemma kt_ok_prob n e b :
  kt_ok n e -> (n < 2 ^ 64)%Z ->
  0 < KT.prob e b < 1 /\ KT.prob e false + KT.prob e true = 1.
Proof.
  intros (H0 & H1 & Hs & Hl) Hn.
  unfold KT.prob, KT.KT_Alpha2, KT.KT_Alpha. rewrite u64_small by lia.
  rewrite plus_IZR. simpl KT.m_counts.
  assert (Hc0 : 0 <= IZR (KT.m_counts0 e)) by (by apply IZR_le).
  assert (Hc1 : 0 <= IZR (KT.m_counts1 e)) by (by apply IZR_le).
  set (c0 := IZR (KT.m_counts0 e)) in *. set (c1 := IZR (KT.m_counts1 e)) in *.
  set (d := c0 + c1 + (1 / 2 + 1 / 2)).
  assert (Hd : 0 < d) by (unfold d; lra).
  split; [split|].
  - apply Rdiv_lt_0_compat; [destruct b; simpl; fold c0 c1; lra|done].
  - apply (Rmult_lt_reg_r d); [done|].
    unfold Rdiv. rewrite Rmult_assoc, Rinv_l by lra.
    destruct b; simpl; fold c0 c1; unfold d; lra.
  - unfold d. field. fold d. lra.
Qed.

Lemma kt_ok_update n e b :
  kt_ok n e -> (n < 2 ^ 64 - 1)%Z -> kt_ok (n + 1) (KT.update e b).
Proof.
  intros Hok Hn. pose proof (kt_ok_prob n e b Hok ltac:(lia)) as [[Hp Hq] _].
  destruct Hok as (H0 & H1 & Hs & Hl).
  assert (Hln : ln (KT.prob e b) <= 0)
    by (apply LogAddFacts.ln_nonpos; lra).
  unfold KT.update.
  destruct b; split_and!; simpl; rewrite ?u64_small by lia; (lia || lra).
Qed.

Lemma observe_ok n k r model :
  Forall (kt_ok n) model -> (n < 2 ^ 64 - 1)%Z ->
  Forall (kt_ok (n + 1)) (observe k r model).
Proof.
  intros Hall Hn. apply Forall_lookup. intros i e He.
  unfold observe in He. rewrite list_lookup_alter in He.
  destruct (decide (k = i)) as [->|Hne].
  - destruct (model !! i) as [e0|] eqn:Hi; simplify_eq/=.
    apply kt_ok_update; [|done]. by apply (Forall_lookup_1 _ _ _ _ Hall Hi).
  - apply (kt_ok_mono n); [|lia]. by apply (Forall_lookup_1 _ _ _ _ Hall He).
Qed.

Lemma fold_logMarginal_nonpos n model : forall acc,
  Forall (kt_ok n) model -> acc <= 0 ->
  fold_left (fun rval e => rval + KT.logMarginal e) model acc <= 0.
Proof.
  induction model as [|e model IH]; intros acc Hall Hacc; simpl; [done|].
  inversion Hall as [|? ? (_ & _ & _ & Hl) Hrest]; subst.
  apply IH; [done|]. unfold KT.logMarginal. lra.
Qed.

Lemma node_logMarginal_nonpos n node :
  Forall (kt_ok n) (m_model node) -> node_logMarginal node <= 0.
Proof. intros Hall. by apply (fold_logMarginal_nonpos n); [|lra]. Qed.

Lemma make_ok (D K : nat) : (2 <= K)%nat -> ptw_ok (make D K).
Proof.
  intros HK. destruct (stop_weight K HK) as (Hq & Hsplit & Hinv). split.
  - simpl. rewrite !exp_ln by lra. lra.
  - intros j Hj. simpl in Hj. rewrite node_at_make by done.
    split_and!; simpl; try lra.
    apply Forall_replicate, kt_ok_fresh.
Qed.

Lemma staged_ok s i j :
  (0 <= m_index s)%Z -> (i < m_depth s)%nat -> (j <= m_depth s)%nat ->
  ptw_ok s -> node_ok (m_index s) (staged s i j).
Proof.
  intros Hidx Hi Hj [_ Hok]. unfold staged.
  destruct (decide (j < i)%nat); [by apply Hok|].
  destruct (decide (j = i)) as [->|].
  - destruct (Hok i ltac:(lia)) as (Hm & Hw & Hb).
    destruct (Hok (i + 1)%nat ltac:(lia)) as (_ & Hw1 & _).
    split_and!; done.
  - split_and!; simpl; try lra.
    apply Forall_replicate. apply (kt_ok_mono 0); [apply kt_ok_fresh|done].
Qed.

Lemma logAdd_nonpos (stop split a b : R) :
  exp stop + exp split <= 1 -> a <= 0 -> b <= 0 ->
  logAdd (stop + a) (split + b) <= 0.
Proof.
  intros Hw Ha Hb.
  eapply Rle_trans; [apply LogAddFacts.logAdd_le_lse|].
  pose proof (exp_pos (stop + a)). pose proof (exp_pos (split + b)).
  pose proof (LogAddFacts.exp_le_mono (stop + a) stop ltac:(lra)).
  pose proof (LogAddFacts.exp_le_mono (split + b) split ltac:(lra)).
  apply LogAddFacts.ln_nonpos; lra.
Qed.

Lemma update_spec_ok s r k :
  wf s -> (m_index s < 2 ^ Z.of_nat (m_depth s))%Z ->
  ptw_ok s -> ptw_ok (update_spec s r k).
Proof.
  intros Hwf Hidx Hok. pose proof Hok as [Hw _].
  pose proof (wf_index s Hwf) as [Hi0 _]. pose proof (wf_depth s Hwf) as HD.
  pose proof (pow2_le_30 (m_depth s) ltac:(lia)) as Hpow.
  assert (Hi : (mscb (m_depth s) (m_index s + 1) < m_depth s)%nat)
    by (apply mscb_lt; lia).
  set (i := mscb (m_depth s) (m_index s + 1)) in *.
  split; [done|].
  (* the models and the buffers *)
  assert (Hmb : forall j, (j <= m_depth s)%nat ->
            Forall (kt_ok (m_index s + 1)) (m_model (node_at (update_spec s r k) j)) /\
            m_log_buf (node_at (update_spec s r k) j) <= 0).
  { intros j Hj.
    destruct (update_spec_levels s r k Hwf Hidx j Hj) as (Hm & Hb & _).
    fold i in Hm, Hb.
    destruct (staged_ok s i j Hi0 Hi Hj Hok) as (Hsm & _ & Hsb).
    rewrite Hm, Hb. split; [|done]. apply observe_ok; [done|lia]. }
  (* the weights, from the leaf up *)
  assert (Hwl : forall d j, (j + d = m_depth s)%nat ->
            m_log_weighted (node_at (update_spec s r k) j) <= 0).
  { induction d as [|d IH]; intros j Hj.
    - destruct (update_spec_levels s r k Hwf Hidx j ltac:(lia)) as (_ & _ & Hwj).
      rewrite Hwj, decide_True by lia.
      apply (node_logMarginal_nonpos (m_index s + 1)). apply Hmb. lia.
    - destruct (update_spec_levels s r k Hwf Hidx j ltac:(lia)) as (_ & _ & Hwj).
      rewrite Hwj, decide_False by lia.
      destruct (Hmb j ltac:(lia)) as [Hm Hb].
      pose proof (node_logMarginal_nonpos _ _ Hm).
      pose proof (IH (j + 1)%nat ltac:(lia)).
      rewrite Rplus_assoc. apply logAdd_nonpos; [done|lra|lra]. }
  intros j Hj. simpl in Hj. destruct (Hmb j Hj) as [Hm Hb].
  split_and!; [done| |done].
  apply (Hwl (m_depth s - j)%nat). lia.
Qed.

Lemma run_ok : forall obs s s',
  wf s -> ptw_ok s ->
  Forall (fun o : bool * nat => (o.2 < m_arms s)%nat) obs ->
  (m_index s + Z.of_nat (length obs) <= 2 ^ Z.of_nat (m_depth s))%Z ->
  run s obs = Done s' -> ptw_ok s'.
Proof.
  induction obs as [|[r k] rest IH]; intros s s' Hwf Hok Hk Hlen Hrun;
    simpl in *.
  - change (Done s = Done s') in Hrun. by simplify_eq.
  - inversion Hk as [|? ? Hk1 Hk2]; subst. simpl in Hk1.
    assert (Hidx : (m_index s < 2 ^ Z.of_nat (m_depth s))%Z) by lia.
    rewrite (update_refines s r k Hwf Hidx Hk1) in Hrun. simpl in Hrun.
    apply (IH (update_spec s r k)); try done.
    + by apply update_spec_wf.
    + by apply update_spec_ok.
    + simpl. lia.
Qed.

(** Everything known about the state after a run from the fresh model. *)
Lemma run_summary (D K : nat) (obs : list (bool * nat)) :
  (1 <= D <= 30)%nat -> (2 <= K)%nat ->
  Forall (fun o : bool * nat => (o.2 < K)%nat) obs ->
  (length obs <= 2 ^ D)%nat ->
  exists s, run (make D K) obs = Done s /\ wf s /\ dominated s /\ ptw_ok s /\
    m_index s = Z.of_nat (length obs) /\ m_depth s = D /\ m_arms s = K /\
    LogStopWeight s = ln ((INR K - 1) / INR K) /\
    forall j, (j <= D)%nat ->
      m_model (node_at s j)
      = observe_all (drop (block_start D j (length obs)) obs)
                    (replicate K KT.fresh).
Proof.
  intros HD HK Hk Hlen.
  destruct (run_models D K obs HD Hk Hlen)
    as (s & Hrun & Hwf & Hidx & Hd & Ha & Hmodels).
  assert (HlenZ : (Z.of_nat (length obs) <= 2 ^ Z.of_nat D)%Z).
  { assert (Z.of_nat (2 ^ D) = 2 ^ Z.of_nat D)%Z by (by rewrite Nat2Z.inj_pow).
    lia. }
  pose proof (make_wf D K HD) as Hwf0.
  destruct (run_Done obs (make D K) Hwf0 Hk ltac:(simpl; lia))
    as (s1 & Hrun1 & _ & _ & _ & _ & Hstop).
  assert (s1 = s) as -> by congruence.
  exists s. split_and!; try done.
  - apply (run_dominated obs (make D K) s);
      [done | by apply make_LogStop_nonpos | by apply make_dominated
      | done | simpl; lia | done].
  - apply (run_ok obs (make D K) s); [done|by apply make_ok|done|simpl; lia|done].
Qed.

(** *** The marginal of the whole model *)

Lemma fold_left_Rsum {A} (f : A -> R) (l : list A) : forall acc,
  fold_left (fun rval e => rval + f e) l acc = acc + Rsum (map f l).
Proof.
  induction l as [|e l IH]; intros acc; simpl; [lra|]. rewrite IH. lra.
Qed.

Lemma observe_all_length obs : forall model,
  length (observe_all obs model) = length model.
Proof.
  induction obs as [|[r k] obs IH]; intros model; simpl; [done|].
  rewrite IH. unfold observe. apply length_alter.
Qed.

Lemma observe_all_fresh (K : nat) obs :
  observe_all obs (replicate K KT.fresh)
  = map (fun k => KT.feed KT.fresh (rewards_of k obs)) (seq 0 K).
Proof.
  apply list_eq. intros i. destruct (decide (i < K)%nat) as [Hi|Hi].
  - rewrite (observe_all_lookup i obs _ KT.fresh)
      by (by apply lookup_replicate_2).
    symmetry. change map with (@fmap list _) at 1.
    rewrite list_lookup_fmap, lookup_seq_lt by done. done.
  - rewrite !lookup_ge_None_2; [done| |].
    + rewrite length_map, length_seq. lia.
    + rewrite observe_all_length, length_replicate. lia.
Qed.

(** X8. After any run within the horizon on a fresh model over K >= 2 arms,
    [logMarginal()] is a log-probability (it is not positive) and it is at
    least the log-probability that the model without any change point gives
    to the history, charged with the stop weight ln((K-1)/K): the sum
    over the arms of the KT log-marginal of the rewards of the arm. *)
Theorem ptw_logMarginal_bounds (D K : nat) (obs : list (bool * nat)) :
  (1 <= D <= 30)%nat -> (2 <= K)%nat ->
  Forall (fun o : bool * nat => (o.2 < K)%nat) obs ->
  (length obs <= 2 ^ D)%nat ->
  exists s l, run (make D K) obs = Done s /\ logMarginal s = Done l /\
    ln ((INR K - 1) / INR K)
    + Rsum (map (fun k => KT.logMarginal (KT.feed KT.fresh (rewards_of k obs)))
                (seq 0 K))
    <= l <= 0.
Proof.
  intros HD HK Hk Hlen.
  destruct (run_summary D K obs HD HK Hk Hlen)
    as (s & Hrun & Hwf & Hdom & [_ Hok] & Hidx & Hd & Ha & Hstop & Hmodels).
  exists s, (m_log_weighted (node_at s 0)). split_and!.
  - done.
  - unfold logMarginal.
    rewrite (vget_lookup _ _ (node_at s 0))
      by (apply node_at_lookup; rewrite (wf_nodes s Hwf); lia).
    done.
  - pose proof (Hdom 0%nat ltac:(lia)) as H0.
    unfold node_logMarginal in H0.
    rewrite (Hmodels 0%nat ltac:(lia)), block_start_top, drop_0 in H0 by done.
    rewrite observe_all_fresh, fold_left_Rsum, map_map, Hstop in H0. lra.
  - destruct (Hok 0%nat ltac:(lia)) as (_ & Hw & _). done.
Qed.

Lemma ptw_logMarginal_bounds_witness :
  exists s l,
    run (make 2 2) [(true, 0%nat); (false, 1%nat); (true, 0%nat)] = Done s /\
    logMarginal s = Done l /\
    ln ((INR 2 - 1) / INR 2)
    + Rsum (map (fun k => KT.logMarginal (KT.feed KT.fresh
                   (rewards_of k [(true, 0%nat); (false, 1%nat); (true, 0%nat)])))
                (seq 0 2))
    <= l <= 0.
Proof.
  apply (ptw_logMarginal_bounds 2 2
           [(true, 0%nat); (false, 1%nat); (true, 0%nat)]); simpl; try lia.
  repeat constructor; simpl; lia.
Defined.

(** *** The prediction *)

Lemma probs_loop_spec s r k :
  length (m_nodes s) = (m_depth s + 1)%nat ->
  (forall j, (j <= m_depth s)%nat -> (k < length (m_model (node_at s j)))%nat) ->
  forall iters i probs, (i + iters <= m_depth s + 1)%nat ->
    probs_loop s r k iters i probs
    = Done (probs ++ map (level_prob s r k) (seq i iters)).
Proof.
  intros Hlen Hk. induction iters as [|iters IH]; intros i probs Hi.
  - simpl. by rewrite app_nil_r.
  - cbn [probs_loop].
    rewrite (vget_lookup _ _ _ (node_at_lookup s i ltac:(lia))).
    cbn [mbind outcome_bind]. unfold node_prob.
    destruct (lookup_lt_is_Some_2 (m_model (node_at s i)) k
                (Hk i ltac:(lia))) as [e He].
    rewrite (vget_lookup _ _ e He). cbn [mbind outcome_bind].
    change (mret (KT.prob e r) ≫= _)
      with (probs_loop s r k iters (S i) (probs ++ [KT.prob e r])).
    rewrite IH by lia. rewrite <- app_assoc. simpl.
    assert (level_prob s r k i = KT.prob e r) as ->; [|done].
    unfold level_prob. by rewrite He.
Qed.

Lemma inner_product_spec : forall xs ys init,
  (length xs <= length ys)%nat ->
  inner_product xs ys init = Done (init + dot xs ys).
Proof.
  induction xs as [|x xs IH]; intros ys init Hlen; simpl.
  - unfold dot. simpl. unfold mret, outcome_ret. f_equal. lra.
  - destruct ys as [|y ys]; simpl in Hlen; [lia|].
    rewrite IH by lia. unfold dot. simpl. f_equal. lra.
Qed.

Lemma dot_mixture (f0 f1 : nat -> R) : forall (l : list nat) (post : list R),
  length post = length l ->
  Forall (fun p => 0 <= p <= 1) post ->
  Forall (fun j => 0 <= f0 j /\ 0 <= f1 j /\ f0 j + f1 j = 1) l ->
  0 <= dot post (map f0 l) /\ 0 <= dot post (map f1 l) /\
  dot post (map f0 l) + dot post (map f1 l) = Rsum post.
Proof.
  induction l as [|j l IH]; intros post Hlen Hpost Hf.
  - destruct post; [|done]. unfold dot. simpl. lra.
  - destruct post as [|p post]; [done|]. simpl in Hlen.
    inversion Hpost as [|? ? Hp Hpost']; subst.
    inversion Hf as [|? ? (H0 & H1 & H01) Hf']; subst.
    destruct (IH post ltac:(lia) Hpost' Hf') as (I0 & I1 & I01).
    unfold dot in *. simpl. split_and!; nra.
Qed.

(** X9. After any run within the horizon on a fresh model over K >= 2 arms,
    [prob(r, k)] does what its call of [levelPosterior] does: when that
    call fails, which only an assertion of it can make it do, [prob] fails
    with it; when it returns the level posterior, [prob] returns the
    mixture, under it, of the KT predictions of the nodes for arm k.  The
    mixture is never negative, and the predictions for the two rewards
    add up to the total mass of the level posterior. *)
Theorem ptw_prob_is_mixture (D K : nat) (obs : list (bool * nat)) (k : nat) :
  (1 <= D <= 30)%nat -> (2 <= K)%nat ->
  Forall (fun o : bool * nat => (o.2 < K)%nat) obs ->
  (length obs <= 2 ^ D)%nat -> (k < K)%nat ->
  exists s,
    run (make D K) obs = Done s /\
    (forall f, levelPosterior s = Failed f ->
       f = AssertionFailed /\ forall r, prob s r k = Failed f) /\
    (forall post, levelPosterior s = Done post ->
       let mix r := dot post (map (level_prob s r k) (seq 0 (D + 1))) in
       length post = (D + 1)%nat /\
       (forall r, prob s r k = Done (mix r) /\ 0 <= mix r) /\
       mix false + mix true = Rsum post).
Proof.
  intros HD HK Hobs Hlen Hk.
  destruct (run_summary D K obs HD HK Hobs Hlen)
    as (s & Hrun & Hwf & _ & [_ Hok] & Hidx & Hd & Ha & Hstop & Hmodels).
  exists s. split; [done|]. split.
  { intros f Hlp. split; [by apply (levelPosterior_failure s f (wf_nodes s Hwf))|].
    intros r. unfold prob. by rewrite Hlp. }
  intros post Hlp mix.
  destruct (levelPosterior_Done_inv s post Hlp) as [Hpl Hpost].
  assert (Hlev : Forall (fun j =>
            0 <= level_prob s false k j /\ 0 <= level_prob s true k j /\
            level_prob s false k j + level_prob s true k j = 1)
            (seq 0 (D + 1))).
  { apply Forall_forall. intros j Hj. apply elem_of_seq in Hj.
    destruct (Hok j ltac:(lia)) as (Hm & _ & _).
    pose proof (node_at_model_length s j Hwf ltac:(lia)) as Hml.
    destruct (lookup_lt_is_Some_2 (m_model (node_at s j)) k ltac:(lia))
      as [e He].
    pose proof (Forall_lookup_1 _ _ _ _ Hm He) as Hee.
    assert (Hb : (m_index s < 2 ^ 64)%Z).
    { pose proof (wf_index s Hwf). pose proof (pow2_le_30 (m_depth s) ltac:(lia)).
      lia. }
    unfold level_prob. rewrite He. simpl.
    pose proof (kt_ok_prob _ e false Hee Hb) as [[? ?] ?].
    pose proof (kt_ok_prob _ e true Hee Hb) as [[? ?] _].
    split_and!; (lra || done). }
  destruct (dot_mixture (level_prob s false k) (level_prob s true k)
              (seq 0 (D + 1)) post) as (M0 & M1 & M01);
    [by rewrite length_seq, Hpl, Hd|done|done|].
  split_and!; try done; [by rewrite Hpl, Hd|].
  intros r. split; [|by destruct r].
  unfold prob. rewrite Hlp. cbn [mbind outcome_bind].
  rewrite (probs_loop_spec s r k (wf_nodes s Hwf)).
  - cbn [mbind outcome_bind app]. rewrite inner_product_spec.
    + rewrite Hpl, Hd. unfold mix. f_equal. lra.
    + rewrite length_map, length_seq. lia.
  - intros j Hj. rewrite (node_at_model_length s j Hwf Hj). lia.
  - lia.
Qed.

(** Two arms, depth 2, a reward 1 on arm 0 and a reward 0 on arm 1. *)
Lemma ptw_prob_is_mixture_witness :
  exists s,
    run (make 2 2) [(true, 0%nat); (false, 1%nat)] = Done s /\
    (forall f, levelPosterior s = Failed f ->
       f = AssertionFailed /\ forall r, prob s r 0 = Failed f) /\
    (forall post, levelPosterior s = Done post ->
       let mix r := dot post (map (level_prob s r 0) (seq 0 (2 + 1))) in
       length post = (2 + 1)%nat /\
       (forall r, prob s r 0 = Done (mix r) /\ 0 <= mix r) /\
       mix false + mix true = Rsum post).
Proof.
  apply (ptw_prob_is_mixture 2 2 [(true, 0%nat); (false, 1%nat)] 0);
    simpl; try lia.
  repeat constructor; simpl; lia.
Defined.
End PTWBlocks.

(** ** The statistics of the UCB family *)

Module UCBFamilyFacts.
Import Stats Policy.

Lemma visits_of_snoc a obs o :
  visits_of a (obs ++ [o])
  = (visits_of a obs + if decide (o.1 = a) then 1 else 0)%nat.
Proof.
  unfold visits_of. rewrite filter_app, length_app. f_equal.
  rewrite filter_cons, filter_nil. by destruct (decide (o.1 = a)).
Qed.

Lemma successes_of_snoc a obs o :
  successes_of a (obs ++ [o])
  = (successes_of a obs + if decide (o.1 = a /\ o.2 = true) then 1 else 0)%nat.
Proof.
  unfold successes_of. rewrite filter_app, length_app. f_equal.
  rewrite filter_cons, filter_nil.
  by destruct (decide (o.1 = a /\ o.2 = true)).
Qed.

Lemma visits_of_cons a o obs :
  visits_of a (o :: obs)
  = ((if decide (o.1 = a) then 1 else 0) + visits_of a obs)%nat.
Proof.
  unfold visits_of. rewrite filter_cons. by destruct (decide (o.1 = a)).
Qed.

Lemma successes_of_cons a o obs :
  successes_of a (o :: obs)
  = ((if decide (o.1 = a /\ o.2 = true) then 1 else 0) + successes_of a obs)%nat.
Proof.
  unfold successes_of. rewrite filter_cons.
  by destruct (decide (o.1 = a /\ o.2 = true)).
Qed.

Lemma successes_le_visits a obs : (successes_of a obs <= visits_of a obs)%nat.
Proof.
  induction obs as [|o obs IH]; [done|].
  rewrite visits_of_cons, successes_of_cons.
  destruct (decide (o.1 = a /\ o.2 = true)) as [[? ?]|];
    destruct (decide (o.1 = a)); try done; lia.
Qed.

Lemma visits_le_length a obs : (visits_of a obs <= length obs)%nat.
Proof. unfold visits_of. apply length_filter. Qed.

Lemma counts_replicate (K : nat) : counts K (replicate K 0) (replicate K 0) [].
Proof.
  split_and!; try apply length_replicate.
  intros a Ha. by rewrite lookup_replicate_2.
Qed.

(** Playing [arm] with reward [r] adds one visit and the reward. *)
Lemma counts_add K visits cum obs arm r :
  counts K visits cum obs -> (arm < K)%nat ->
  counts K (<[arm := INR (visits_of arm obs) + 1]> visits)
           (<[arm := INR (successes_of arm obs) + reward_value r]> cum)
           (obs ++ [(arm, r)]).
Proof.
  intros (Hv & Hc & Hall) Harm. split_and!; rewrite ?length_insert; try done.
  intros a Ha. destruct (Hall a Ha) as [Hva Hca].
  rewrite visits_of_snoc, successes_of_snoc. simpl.
  destruct (decide (arm = a)) as [->|Hne].
  - rewrite !list_lookup_insert_eq by lia. rewrite !plus_INR. split.
    + done.
    + destruct r; simpl.
      * by rewrite decide_True.
      * rewrite decide_False by (intros [_ ?]; done). done.
  - rewrite !list_lookup_insert_ne by done.
    rewrite decide_False by (intros [? _]; done).
    by rewrite !Nat.add_0_r.
Qed.

(** Dropping the oldest round takes its visit and its reward back. *)
Lemma counts_remove K visits cum front rfront obs :
  counts K visits cum ((front, rfront) :: obs) -> (front < K)%nat ->
  counts K
    (<[front := INR (visits_of front ((front, rfront) :: obs)) - 1]> visits)
    (<[front := INR (successes_of front ((front, rfront) :: obs))
                - reward_value rfront]> cum)
    obs.
Proof.
  intros (Hv & Hc & Hall) Hfront.
  split_and!; rewrite ?length_insert; try done.
  intros a Ha. destruct (Hall a Ha) as [Hva Hca].
  rewrite visits_of_cons, successes_of_cons in *. simpl in *.
  destruct (decide (front = a)) as [->|Hne].
  - rewrite !list_lookup_insert_eq by lia.
    rewrite decide_True by done. rewrite !plus_INR. split.
    + f_equal. simpl. lra.
    + destruct rfront; simpl.
      * rewrite decide_True by done. f_equal. simpl. lra.
      * rewrite decide_False by (intros [_ ?]; done). f_equal. simpl. lra.
  - rewrite !list_lookup_insert_ne by done.
    rewrite decide_False in Hca by (intros [? _]; done). done.
Qed.

(** *** The arg-max loop *)

Lemma best_loop_first (K : nat) (score : nat -> outcome R) (f : nat -> R) :
  (forall j, (j < K)%nat -> score j = Done (f j)) ->
  forall iters i best best_idx,
    (i + iters = K)%nat ->
    (i = 0%nat /\ best = None /\ (1 <= K)%nat /\ best_idx = 0%nat) \/
    (best = Some (f best_idx) /\ (best_idx < i)%nat /\
     (forall j, (j < i)%nat -> f j <= f best_idx) /\
     (forall j, (j < best_idx)%nat -> f j < f best_idx)) ->
    exists a, best_loop score iters i best best_idx = Done a /\
              first_best K f a.
Proof.
  intros Hscore. induction iters as [|iters IH]; intros i best best_idx Hi Hinv.
  - exists best_idx. split; [done|].
    destruct Hinv as [(-> & _ & HK & _)|(_ & Hb & Hle & Hlt)]; [lia|].
    split_and!; [lia| |done]. intros j Hj. apply Hle. lia.
  - cbn [best_loop]. rewrite (Hscore i) by lia. cbn [mbind outcome_bind].
    destruct Hinv as [(-> & -> & HK & ->)|(-> & Hb & Hle & Hlt)].
    + apply IH; [lia|]. right. split_and!; [done|lia| |lia].
      intros j Hj. assert (j = 0)%nat as -> by lia. lra.
    + destruct (Rltb (f best_idx) (f i)) eqn:Hcmp.
      * apply Rltb_true in Hcmp. apply IH; [lia|]. right.
        split_and!; [done|lia| |].
        -- intros j Hj. destruct (decide (j = i)) as [->|]; [lra|].
           specialize (Hle j ltac:(lia)). lra.
        -- intros j Hj. specialize (Hle j Hj). lra.
      * apply Rltb_false in Hcmp. apply IH; [lia|]. right.
        split_and!; [done|lia| |done].
        intros j Hj. destruct (decide (j = i)) as [->|]; [lra|].
        apply Hle. lia.
Qed.

Lemma unvisited_none (visits : list R) (K : nat) :
  length visits = K -> Forall (fun v => v <> 0) visits ->
  unvisited_loop visits K 0 [] = Done [].
Proof.
  intros Hlen Hall. rewrite PolicyFacts.unvisited_loop_spec by lia. simpl.
  f_equal. induction (seq 0 K) as [|a l IH]; [done|]. simpl.
  unfold is_unvisited at 1. destruct (visits !! a) as [v|] eqn:Hv; [|done].
  pose proof (Forall_lookup_1 _ _ _ _ Hall Hv) as Hne.
  by rewrite (proj2 (Reqb_false v 0)).
Qed.

Lemma nth_lookup_R (l : list R) (i : nat) (x : R) :
  l !! i = Some x -> nth i l 0 = x.
Proof.
  revert i. induction l as [|y l IH]; intros [|i] H; simpl in *;
    try done; [by simplify_eq|by apply IH].
Qed.

(** X10. Once every arm has a visit, [getAction] of UCB1 and of Sliding-UCB is
    deterministic: it returns the first arm whose index is the largest
    (ties go to the lowest arm number) and the pseudo-random draw is not
    used. *)
Theorem ucb_exploits_first_best (K : nat) :
  (1 <= K)%nat ->
  (forall (st : UCB.UCBStrategy) (rnd : nat),
     UCB.m_arms st = K -> length (UCB.m_arm_cumm_reward st) = K ->
     length (UCB.m_arm_visits st) = K ->
     Forall (fun v => v <> 0) (UCB.m_arm_visits st) ->
     exists a, UCB.getAction st rnd = Done a /\
               first_best K (ucb_index st) a) /\
  (forall (st : SlidingUCB.SlidingUCBStrategy) (rnd : nat),
     SlidingUCB.m_arms st = K ->
     length (SlidingUCB.m_arm_cumm_reward st) = K ->
     length (SlidingUCB.m_arm_visits st) = K ->
     Forall (fun v => v <> 0) (SlidingUCB.m_arm_visits st) ->
     exists a, SlidingUCB.getAction st rnd = Done a /\
               first_best K (sw_index st) a).
Proof.
  intros HK. split.
  - intros st rnd Ha Hc Hv Hall.
    unfold UCB.getAction, UCB.unvisitedArms. rewrite Ha.
    rewrite (unvisited_none _ K Hv Hall). cbn [mbind outcome_bind].
    rewrite bool_decide_false by (intros H; by apply H).
    apply (best_loop_first K); [|lia|left; done].
    intros j Hj. unfold UCB.ucb, ucb_index.
    destruct (lookup_lt_is_Some_2 (UCB.m_arm_cumm_reward st) j ltac:(lia))
      as [c Hcj].
    destruct (lookup_lt_is_Some_2 (UCB.m_arm_visits st) j ltac:(lia))
      as [v Hvj].
    rewrite (vget_lookup _ _ _ Hcj), (vget_lookup _ _ _ Hvj).
    rewrite (nth_lookup_R _ _ _ Hcj), (nth_lookup_R _ _ _ Hvj). done.
  - intros st rnd Ha Hc Hv Hall.
    unfold SlidingUCB.getAction, SlidingUCB.unvisitedArms. rewrite Ha.
    rewrite (unvisited_none _ K Hv Hall). cbn [mbind outcome_bind].
    rewrite bool_decide_false by (intros H; by apply H).
    apply (best_loop_first K); [|lia|left; done].
    intros j Hj. unfold SlidingUCB.ucb, sw_index.
    destruct (lookup_lt_is_Some_2 (SlidingUCB.m_arm_cumm_reward st) j
                ltac:(lia)) as [c Hcj].
    destruct (lookup_lt_is_Some_2 (SlidingUCB.m_arm_visits st) j ltac:(lia))
      as [v Hvj].
    rewrite (vget_lookup _ _ _ Hcj), (vget_lookup _ _ _ Hvj).
    rewrite (nth_lookup_R _ _ _ Hcj), (nth_lookup_R _ _ _ Hvj). done.
Qed.

Lemma ucb_exploits_first_best_witness :
  (forall (st : UCB.UCBStrategy) (rnd : nat),
     UCB.m_arms st = 2%nat -> length (UCB.m_arm_cumm_reward st) = 2%nat ->
     length (UCB.m_arm_visits st) = 2%nat ->
     Forall (fun v => v <> 0) (UCB.m_arm_visits st) ->
     exists a, UCB.getAction st rnd = Done a /\
               first_best 2 (ucb_index st) a) /\
  (forall (st : SlidingUCB.SlidingUCBStrategy) (rnd : nat),
     SlidingUCB.m_arms st = 2%nat ->
     length (SlidingUCB.m_arm_cumm_reward st) = 2%nat ->
     length (SlidingUCB.m_arm_visits st) = 2%nat ->
     Forall (fun v => v <> 0) (SlidingUCB.m_arm_visits st) ->
     exists a, SlidingUCB.getAction st rnd = Done a /\
               first_best 2 (sw_index st) a).
Proof. apply (ucb_exploits_first_best 2). lia. Defined.

(** *** The bisection of KL-UCB *)

Lemma relEntropy_self (p : R) :
  0 <= p <= 1 ->
  XReal.bernoulliRelEntropy (XReal.Fin p) (XReal.Fin p) = XReal.Fin 0.
Proof.
  intros Hp. destruct (Req_dec_T p 0) as [->|H0].
  { unfold XReal.bernoulliRelEntropy. simpl. by rdecide. }
  destruct (Req_dec_T p 1) as [->|H1].
  { unfold XReal.bernoulliRelEntropy. simpl. by rdecide. }
  rewrite RelEntropyFacts.relEntropy_interior by lra.
  unfold Rdiv. rewrite !Rinv_r by lra. rewrite ln_1. f_equal. lra.
Qed.

(** The loop keeps a bracket [low, high] whose lower end passes the test
    and whose upper end is 1 or fails it; [fuel] turns are enough for a
    bracket of width at most 2^fuel * eps, and more fuel changes
    nothing. *)
Lemma bisect_spec (p ub : R) : forall fuel low high,
  (1 <= fuel)%nat -> 0 <= high - low <= 2 ^ fuel * KLUCB.eps ->
  exceeds p ub low = false ->
  (high = 1 \/ exceeds p ub high = true) ->
  exists r,
    (forall extra, KLUCB.bisect (fuel + extra) p ub low high = Done r) /\
    low <= r <= high /\ exceeds p ub r = false /\
    exists h, r <= h <= r + KLUCB.eps /\ h <= high /\
              (h = 1 \/ exceeds p ub h = true).
Proof.
  pose proof PolicyFacts.eps_pos as Heps.
  induction fuel as [|fuel IH]; intros low high Hfuel Hw Hlow Hhigh; [lia|].
  set (q := low + (high - low) / 2).
  assert (Hhalf : forall low' high' : R,
    high' - low' = (high - low) / 2 -> low <= low' -> high' <= high ->
    low' <= high' ->
    exceeds p ub low' = false -> (high' = 1 \/ exceeds p ub high' = true) ->
    exists r,
      (forall extra,
         (if Rltb KLUCB.eps (high' - low')
          then KLUCB.bisect (fuel + extra) p ub low' high'
          else mret low') = Done r) /\
      low <= r <= high /\ exceeds p ub r = false /\
      exists h, r <= h <= r + KLUCB.eps /\ h <= high /\
                (h = 1 \/ exceeds p ub h = true)).
  { intros low' high' Hw' Hl Hh Hord Hlow' Hhigh'.
    destruct (Rltb KLUCB.eps (high' - low')) eqn:Hgo.
    - apply Rltb_true in Hgo.
      assert (Hf : (1 <= fuel)%nat).
      { destruct fuel; [|lia]. simpl in Hw. lra. }
      destruct (IH low' high' Hf) as (r & Hr & Hrange & Hok & h & Hh1 & Hh2 & Hh3);
        [simpl in Hw; lra|done|done|].
      exists r. split_and!; [done|lra|lra|done|].
      exists h. split_and!; (done || lra).
    - apply Rltb_false in Hgo.
      exists low'. split_and!; [done|lra|lra|done|].
      exists high'. split_and!; (done || lra). }
  assert (Hq : low <= q <= high) by (unfold q; lra).
  destruct (exceeds p ub q) eqn:Hex.
  - destruct (Hhalf low q) as (r & Hr & Hrest);
      [unfold q; lra|lra|lra|lra|done|by right|].
    exists r. split; [|done]. intros extra.
    cbn [Nat.add KLUCB.bisect]. fold q.
    change (XReal.xlt _ _) with (exceeds p ub q). rewrite Hex. apply Hr.
  - destruct (Hhalf q high) as (r & Hr & Hrest);
      [unfold q; lra|lra|lra|lra|done|done|].
    exists r. split; [|done]. intros extra.
    cbn [Nat.add KLUCB.bisect]. fold q.
    change (XReal.xlt _ _) with (exceeds p ub q). rewrite Hex. apply Hr.
Qed.

Lemma first_bracket (p : R) : 0 <= p <= 1 -> 0 <= 1 - p <= 2 ^ 27 * KLUCB.eps.
Proof.
  intros Hp.
  assert (H2 : 2 ^ 27 = 134217728) by (simpl; lra).
  assert (H10 : 10 ^ 8 = 100000000) by (simpl; lra).
  unfold KLUCB.eps. rewrite H2, H10. lra.
Qed.

Lemma first_low (p ub : R) : 0 <= p <= 1 -> 0 < ub -> exceeds p ub p = false.
Proof.
  intros Hp Hub. unfold exceeds. rewrite relEntropy_self by done. simpl.
  apply Rltb_false. lra.
Qed.

Lemma maxRelEntropy_fuel (p ub : R) (fuel : nat) :
  0 <= p <= 1 -> 0 < ub -> (27 <= fuel)%nat ->
  exists r, KLUCB.maxRelEntropy fuel p ub = Done r.
Proof.
  intros Hp Hub Hfuel.
  destruct (bisect_spec p ub 27 p 1) as (r & Hr & _);
    [lia|by apply first_bracket|by apply first_low|by left|].
  exists r. unfold KLUCB.maxRelEntropy.
  rewrite assert_true by (by apply Rltb_true). cbn [mbind outcome_bind].
  replace fuel with (27 + (fuel - 27))%nat by lia. apply Hr.
Qed.

(** X11. For a mean p of [0,1] and a bound ub > 0, the bisection of
    [maxRelEntropy] ends within 27 turns.  Its result r lies in [p, 1] and
    passes the test of the loop (the relative entropy from p to r does not
    exceed ub), and within eps = 1e-8 above r there is a point that is 1 or
    fails the test: r is the upper confidence bound up to eps. *)
Theorem maxRelEntropy_is_upper_bound (p ub : R) :
  0 <= p <= 1 -> 0 < ub ->
  exists r,
    (forall fuel, (27 <= fuel)%nat -> KLUCB.maxRelEntropy fuel p ub = Done r) /\
    p <= r <= 1 /\ exceeds p ub r = false /\
    exists h, r <= h <= r + KLUCB.eps /\ h <= 1 /\
              (h = 1 \/ exceeds p ub h = true).
Proof.
  intros Hp Hub.
  destruct (bisect_spec p ub 27 p 1) as (r & Hr & Hrest);
    [lia|by apply first_bracket|by apply first_low|by left|].
  exists r. split; [|done]. intros fuel Hfuel. unfold KLUCB.maxRelEntropy.
  rewrite assert_true by (by apply Rltb_true). cbn [mbind outcome_bind].
  replace fuel with (27 + (fuel - 27))%nat by lia. apply Hr.
Qed.

Lemma maxRelEntropy_is_upper_bound_witness :
  exists r,
    (forall fuel, (27 <= fuel)%nat ->
       KLUCB.maxRelEntropy fuel (1 / 2) 1 = Done r) /\
    1 / 2 <= r <= 1 /\ exceeds (1 / 2) 1 r = false /\
    exists h, r <= h <= r + KLUCB.eps /\ h <= 1 /\
              (h = 1 \/ exceeds (1 / 2) 1 h = true).
Proof. apply (maxRelEntropy_is_upper_bound (1 / 2) 1); lra. Defined.

(** *** The interaction loop under an invariant *)

Section PlayInv.

Context {S : Type} {P : BanditStrategy S}.
Variable K : nat.

(** [Inv st obs]: [st] is the state after the rounds [obs]; [Good obs a]:
    what is known of the arm chosen after the rounds [obs]. *)
Variable Inv : S -> list (nat * bool) -> Prop.
Variable Good : list (nat * bool) -> nat -> Prop.

Hypothesis getAction_ok : forall st obs o,
  Inv st obs ->
  exists a, getAction st o = Done (a, st) /\ (a < K)%nat /\ Good obs a.

Hypothesis update_ok : forall st obs a r,
  Inv st obs -> (a < K)%nat ->
  exists st', update st a r = Done st' /\ Inv st' (obs ++ [(a, r)]).

Lemma play_inv : forall rounds st obs,
  Inv st obs ->
  exists arms st', play st rounds = Done (arms, st') /\
    length arms = length rounds /\
    Forall (fun a => (a < K)%nat) arms /\
    Inv st' (obs ++ zip arms (map snd rounds)) /\
    forall i a, arms !! i = Some a ->
      Good (obs ++ take i (zip arms (map snd rounds))) a.
Proof.
  induction rounds as [|[o r] rest IH]; intros st obs HInv.
  - exists [], st. simpl. rewrite app_nil_r. split_and!; try done.
  - destruct (getAction_ok st obs o HInv) as (a & Hget & Ha & Hgood).
    destruct (update_ok st obs a r HInv Ha) as (st1 & Hupd & HInv1).
    destruct (IH st1 (obs ++ [(a, r)]) HInv1)
      as (arms & st' & Hplay & Hl & Hlt & HInv' & Hg).
    exists (a :: arms), st'. cbn [play]. rewrite Hget. cbn [mbind outcome_bind].
    rewrite Hupd. cbn [mbind outcome_bind]. rewrite Hplay.
    cbn [mbind outcome_bind]. simpl zip.
    split_and!; try done.
    + simpl. by rewrite Hl.
    + by constructor.
    + by rewrite <- app_assoc in HInv'.
    + intros [|i] b Hb; simpl in Hb.
      * simplify_eq. simpl. by rewrite app_nil_r.
      * specialize (Hg i b Hb). by rewrite <- app_assoc in Hg.
Qed.

End PlayInv.

(** The body that the three [getAction] share. *)
Lemma choose_arm (K : nat) (visits cum : list R) (obs : list (nat * bool))
    (score : nat -> outcome R) (rnd : nat) :
  (1 <= K)%nat -> counts K visits cum obs ->
  ((forall b, (b < K)%nat -> visits_of b obs <> 0%nat) ->
   forall j, (j < K)%nat -> exists x, score j = Done x) ->
  exists a,
    (unvisited ← unvisited_loop visits K 0 [];
     if bool_decide (unvisited <> []) then pick_unvisited unvisited rnd
     else best_loop score K 0 None 0) = Done a /\
    (a < K)%nat /\ explores_before_exploiting K obs a.
Proof.
  intros HK (Hv & Hc & Hall) Hscore.
  rewrite PolicyFacts.unvisited_loop_spec by lia. cbn [mbind outcome_bind app].
  set (unvisited := List.filter _ _). case_bool_decide as Hne.
  - unfold pick_unvisited.
    assert (Hlt : (rnd mod length unvisited < length unvisited)%nat).
    { apply Nat.mod_upper_bound. by destruct unvisited. }
    destruct (lookup_lt_is_Some_2 _ _ Hlt) as [arm Harm].
    exists arm. rewrite (vget_lookup _ _ _ Harm). split; [done|].
    apply list_elem_of_lookup_2, list_elem_of_In, filter_In in Harm
      as [Hin Hun].
    apply list_elem_of_In, elem_of_seq in Hin. split; [lia|]. left.
    unfold is_unvisited in Hun. destruct (Hall arm ltac:(lia)) as [Hva _].
    rewrite Hva in Hun. apply Reqb_true in Hun.
    by apply INR_eq.
  - assert (Hvisited : forall b, (b < K)%nat -> visits_of b obs <> 0%nat).
    { intros b Hb Hzero.
      assert (Hin : In b unvisited).
      { apply filter_In. split.
        - apply list_elem_of_In, elem_of_seq. lia.
        - unfold is_unvisited. destruct (Hall b Hb) as [-> _].
          rewrite Hzero. by apply Reqb_true. }
      by rewrite Hne in Hin. }
    destruct (MALGFacts.best_loop_Done K score (Hscore Hvisited) K 0 None 0)
      as (a & Ha & Hlt); [lia|lia|].
    exists a. split_and!; [done|done|by right].
Qed.

(** *** UCB1 *)

Lemma ucb_getAction_ok (K : nat) st obs (o : nat) :
  (1 <= K)%nat -> ucb_stats K st obs ->
  exists a, getAction st o = Done (a, st) /\ (a < K)%nat /\
            explores_before_exploiting K obs a.
Proof.
  intros HK (Ha & Hm & Hcounts).
  destruct (choose_arm K _ _ obs (UCB.ucb st) o HK Hcounts)
    as (a & Hget & Hlt & Hgood).
  - intros _ j Hj. destruct Hcounts as (Hv & Hc & Hall).
    destruct (Hall j Hj) as [Hvj Hcj]. unfold UCB.ucb.
    rewrite (vget_lookup _ _ _ Hcj), (vget_lookup _ _ _ Hvj). by eexists.
  - exists a. split_and!; try done.
    cbn [getAction ucb_strategy]. unfold UCB.getAction, UCB.unvisitedArms.
    rewrite Ha, Hget. done.
Qed.

Lemma ucb_update_stats (K : nat) st obs a r :
  ucb_stats K st obs -> (a < K)%nat ->
  exists st', update st a r = Done st' /\ ucb_stats K st' (obs ++ [(a, r)]).
Proof.
  intros (Ha & Hm & Hcounts) Hlt.
  pose proof (counts_add K _ _ obs a r Hcounts Hlt) as Hnew.
  destruct Hcounts as (Hv & Hc & Hall). destruct (Hall a Hlt) as [Hva Hca].
  cbn [update ucb_strategy]. unfold UCB.update.
  rewrite (vget_lookup _ _ _ Hca). cbn [mbind outcome_bind].
  rewrite vset_lt by lia. cbn [mbind outcome_bind].
  rewrite (vget_lookup _ _ _ Hva). cbn [mbind outcome_bind].
  rewrite vset_lt by lia. cbn [mbind outcome_bind].
  eexists. split; [done|]. split_and!; simpl; try done.
  rewrite Hm, length_app, plus_INR. simpl. done.
Qed.

(** X12. The interaction loop on UCB1 over K >= 1 arms never fails, whatever the
    draws and the rewards.  Every arm it plays is an arm; an arm that has
    been played is chosen again only once all arms have been played; and
    at the end [m_visits] is the number of rounds while [m_arm_visits] and
    [m_arm_cumm_reward] hold, for each arm, the number of its plays and of
    its rewards 1. *)
Theorem ucb_play_keeps_counts (K : nat) (rounds : list (nat * bool)) :
  (1 <= K)%nat ->
  exists arms st,
    play (UCB.make K) rounds = Done (arms, st) /\
    length arms = length rounds /\
    Forall (fun a => (a < K)%nat) arms /\
    ucb_stats K st (zip arms (map snd rounds)) /\
    forall i a, arms !! i = Some a ->
      explores_before_exploiting K (take i (zip arms (map snd rounds))) a.
Proof.
  intros HK.
  apply (play_inv (P := ucb_strategy) K (ucb_stats K)
           (explores_before_exploiting K)
           (fun st obs o H => ucb_getAction_ok K st obs o HK H)
           (ucb_update_stats K) rounds (UCB.make K) []).
  split_and!; try done. apply counts_replicate.
Qed.

Lemma ucb_play_keeps_counts_witness :
  exists arms st,
    play (UCB.make 2) [(3%nat, true); (1%nat, false); (4%nat, true)]
      = Done (arms, st) /\
    length arms = 3%nat /\
    Forall (fun a => (a < 2)%nat) arms /\
    ucb_stats 2 st (zip arms [true; false; true]) /\
    forall i a, arms !! i = Some a ->
      explores_before_exploiting 2 (take i (zip arms [true; false; true])) a.
Proof.
  apply (ucb_play_keeps_counts 2 [(3%nat, true); (1%nat, false); (4%nat, true)]).
  lia.
Defined.

(** *** KL-UCB *)

Lemma klUCB_Done (K fuel : nat) st obs j :
  (27 <= fuel)%nat -> klucb_stats K st obs ->
  (forall b, (b < K)%nat -> visits_of b obs <> 0%nat) -> (j < K)%nat ->
  exists x, KLUCB.klUCB fuel st j = Done x.
Proof.
  intros Hfuel (Ha & Hm & Hv & Hc & Hall) Hvisited Hj.
  destruct (Hall j Hj) as [Hvj Hcj]. specialize (Hvisited j Hj).
  pose proof (successes_le_visits j obs) as Hsv.
  pose proof (visits_le_length j obs) as Hvl.
  unfold KLUCB.klUCB. rewrite (vget_lookup _ _ _ Hvj).
  cbn [mbind outcome_bind].
  assert (Hn : 1 <= INR (visits_of j obs)) by (apply (le_INR 1); lia).
  rewrite assert_true by (by apply Rleb_true). cbn [mbind outcome_bind].
  rewrite (vget_lookup _ _ _ Hcj). cbn [mbind outcome_bind].
  rewrite Hm.
  set (t := INR (length obs) + 1).
  assert (Ht : 2 <= t).
  { unfold t. assert (1 <= INR (length obs)) by (apply (le_INR 1); lia). lra. }
  assert (Hln : 0 < ln t) by (rewrite <- ln_1; apply ln_increasing; lra).
  assert (Hf : 0 < ln (1 + t * ln t * ln t)).
  { rewrite <- ln_1 at 1. apply ln_increasing; [lra|].
    assert (0 < t * ln t * ln t); [|lra].
    repeat apply Rmult_lt_0_compat; lra. }
  apply maxRelEntropy_fuel; [|apply Rdiv_lt_0_compat; lra|done].
  assert (Hs : 0 <= INR (successes_of j obs) <= INR (visits_of j obs)).
  { split; [apply pos_INR|by apply le_INR]. }
  split.
  - apply Rmult_le_pos; [lra|]. apply Rlt_le, Rinv_0_lt_compat. lra.
  - apply (Rmult_le_reg_r (INR (visits_of j obs))); [lra|].
    unfold Rdiv. rewrite Rmult_assoc, Rinv_l by lra. lra.
Qed.

Lemma klucb_getAction_ok (K fuel : nat) st obs (o : nat) :
  (1 <= K)%nat -> (27 <= fuel)%nat -> klucb_stats K st obs ->
  exists a, getAction (BanditStrategy := klucb_strategy fuel) st o
            = Done (a, st) /\ (a < K)%nat /\
            explores_before_exploiting K obs a.
Proof.
  intros HK Hfuel Hst. pose proof Hst as (Ha & Hm & Hcounts).
  destruct (choose_arm K _ _ obs (KLUCB.klUCB fuel st) o HK Hcounts)
    as (a & Hget & Hlt & Hgood).
  - intros Hvisited j Hj. by apply (klUCB_Done K fuel st obs).
  - exists a. split_and!; try done.
    cbn [getAction klucb_strategy].
    unfold KLUCB.getAction, KLUCB.unvisitedArms.
    rewrite Ha, Hget. done.
Qed.

Lemma klucb_update_stats (K fuel : nat) st obs a r :
  klucb_stats K st obs -> (a < K)%nat ->
  exists st', update (BanditStrategy := klucb_strategy fuel) st a r = Done st' /\
              klucb_stats K st' (obs ++ [(a, r)]).
Proof.
  intros (Ha & Hm & Hcounts) Hlt.
  pose proof (counts_add K _ _ obs a r Hcounts Hlt) as Hnew.
  destruct Hcounts as (Hv & Hc & Hall). destruct (Hall a Hlt) as [Hva Hca].
  cbn [update klucb_strategy]. unfold KLUCB.update.
  rewrite (vget_lookup _ _ _ Hca). cbn [mbind outcome_bind].
  rewrite vset_lt by lia. cbn [mbind outcome_bind].
  rewrite (vget_lookup _ _ _ Hva). cbn [mbind outcome_bind].
  rewrite vset_lt by lia. cbn [mbind outcome_bind].
  eexists. split; [done|]. split_and!; simpl; try done.
  rewrite Hm, length_app, plus_INR. simpl. done.
Qed.

(** X13. The interaction loop on KL-UCB over K >= 1 arms never fails: neither
    assertion of [klUCB] and [maxRelEntropy] can fail (an index is only
    computed when every arm has a visit, so that the visit count is at
    least 1, the bound positive and the empirical mean in [0,1]), and
    each bisection ends within 27 turns.  The arms played are arms, a
    played arm is chosen again only once all arms have been played, and
    the vectors hold the counts of plays and of rewards 1. *)
Theorem klucb_play_never_fails (K fuel : nat) (rounds : list (nat * bool)) :
  (1 <= K)%nat -> (27 <= fuel)%nat ->
  exists arms st,
    play (P := klucb_strategy fuel) (KLUCB.make K) rounds = Done (arms, st) /\
    length arms = length rounds /\
    Forall (fun a => (a < K)%nat) arms /\
    klucb_stats K st (zip arms (map snd rounds)) /\
    forall i a, arms !! i = Some a ->
      explores_before_exploiting K (take i (zip arms (map snd rounds))) a.
Proof.
  intros HK Hfuel.
  apply (play_inv (P := klucb_strategy fuel) K (klucb_stats K)
           (explores_before_exploiting K)
           (fun st obs o H => klucb_getAction_ok K fuel st obs o HK Hfuel H)
           (klucb_update_stats K fuel) rounds (KLUCB.make K) []).
  split_and!; try done. apply counts_replicate.
Qed.

Lemma klucb_play_never_fails_witness :
  exists arms st,
    play (P := klucb_strategy 27) (KLUCB.make 2)
         [(3%nat, true); (1%nat, false); (4%nat, true)] = Done (arms, st) /\
    length arms = 3%nat /\
    Forall (fun a => (a < 2)%nat) arms /\
    klucb_stats 2 st (zip arms [true; false; true]) /\
    forall i a, arms !! i = Some a ->
      explores_before_exploiting 2 (take i (zip arms [true; false; true])) a.
Proof.
  apply (klucb_play_never_fails 2 27
           [(3%nat, true); (1%nat, false); (4%nat, true)]); lia.
Defined.

(** *** Sliding-UCB *)

Lemma lastn_length W obs : (0 <= W)%Z -> (Z.of_nat (length (lastn W obs)) <= W)%Z.
Proof. intros HW. unfold lastn. rewrite length_drop. lia. Qed.

Lemma lastn_snoc W obs o :
  (0 <= W)%Z ->
  lastn W (obs ++ [o])
  = if bool_decide (W < Z.of_nat (length (lastn W obs ++ [o])))%Z
    then tail (lastn W obs ++ [o]) else lastn W obs ++ [o].
Proof.
  intros HW. unfold lastn. rewrite !length_app, length_drop. simpl.
  destruct (decide (length obs < Z.to_nat W)%nat) as [Hlt|Hge].
  - rewrite bool_decide_false by lia.
    replace (length obs + 1 - Z.to_nat W)%nat with 0%nat by lia.
    replace (length obs - Z.to_nat W)%nat with 0%nat by lia. done.
  - rewrite bool_decide_true by lia.
    replace (length obs + 1 - Z.to_nat W)%nat
      with (S (length obs - Z.to_nat W)) by lia.
    rewrite <- drop_app_le by lia.
    generalize (length obs - Z.to_nat W)%nat (obs ++ [o]).
    intros n l. revert l. induction n as [|n IH]; intros [|x l]; simpl; done.
Qed.

Lemma lastn_valid K W obs :
  Forall (fun o : nat * bool => (o.1 < K)%nat) obs ->
  Forall (fun o : nat * bool => (o.1 < K)%nat) (lastn W obs).
Proof. apply Forall_drop. Qed.

Lemma sw_getAction_ok (K : nat) (W : Z) st obs (o : nat) :
  (1 <= K)%nat -> sw_stats K W st obs ->
  exists a, getAction st o = Done (a, st) /\ (a < K)%nat /\
            explores_before_exploiting K (lastn W obs) a.
Proof.
  intros HK (Ha & Hw & Hvalid & Hp & Hr & Hcounts).
  destruct (choose_arm K _ _ (lastn W obs) (SlidingUCB.ucb st) o HK Hcounts)
    as (a & Hget & Hlt & Hgood).
  - intros _ j Hj. destruct Hcounts as (Hv & Hc & Hall).
    destruct (Hall j Hj) as [Hvj Hcj]. unfold SlidingUCB.ucb.
    rewrite (vget_lookup _ _ _ Hcj), (vget_lookup _ _ _ Hvj). by eexists.
  - exists a. split_and!; try done.
    cbn [getAction sliding_ucb_strategy].
    unfold SlidingUCB.getAction, SlidingUCB.unvisitedArms.
    rewrite Ha, Hget. done.
Qed.

Lemma sw_update_stats (K : nat) (W : Z) st obs a r :
  (0 <= W)%Z -> sw_stats K W st obs -> (a < K)%nat ->
  exists st', update st a r = Done st' /\ sw_stats K W st' (obs ++ [(a, r)]).
Proof.
  intros HW (Ha & Hw & Hvalid & Hp & Hr & Hcounts) Hlt.
  pose proof (counts_add K _ _ (lastn W obs) a r Hcounts Hlt) as Hnew.
  assert (Hvalid' : Forall (fun o : nat * bool => (o.1 < K)%nat)
                           (obs ++ [(a, r)])).
  { apply Forall_app. split; [done|]. by constructor. }
  pose proof (lastn_valid K W _ Hvalid) as Hwin.
  destruct Hcounts as (Hv & Hc & Hall). destruct (Hall a Hlt) as [Hva Hca].
  cbn [update sliding_ucb_strategy]. unfold SlidingUCB.update.
  rewrite (vget_lookup _ _ _ Hca). cbn [mbind outcome_bind].
  rewrite vset_lt by lia. cbn [mbind outcome_bind].
  rewrite (vget_lookup _ _ _ Hva). cbn [mbind outcome_bind].
  rewrite vset_lt by lia. cbn [mbind outcome_bind].
  rewrite Hw, Hp, Hr.
  pose proof (lastn_snoc W obs (a, r) HW) as Hsnoc.
  set (win := lastn W obs) in *.
  replace (length (map fst win ++ [a])) with (length (win ++ [(a, r)]))
    by (by rewrite !length_app, length_map).
  revert Hsnoc.
  destruct (bool_decide (W < Z.of_nat (length (win ++ [(a, r)])))%Z);
    intros Hsnoc.
  - destruct win as [|[front rfront] win'] eqn:Hwin_eq.
    + (* an empty window that is already full: its size is 0 *)
      simpl in *.
      pose proof (counts_remove K _ _ a r [] Hnew Hlt) as Hrem.
      destruct Hnew as (Hv' & Hc' & Hall').
      destruct (Hall' a Hlt) as [Hva' Hca'].
      rewrite (vget_lookup _ _ _ Hva'). cbn [mbind outcome_bind].
      rewrite vset_lt by lia. cbn [mbind outcome_bind].
      rewrite (vget_lookup _ _ _ Hca'). cbn [mbind outcome_bind].
      rewrite vset_lt by lia. cbn [mbind outcome_bind].
      eexists. split; [done|]. unfold sw_stats. rewrite Hsnoc.
      split_and!; simpl; done.
    + pose proof (Forall_inv Hwin) as Hfront. simpl in *.
      pose proof (counts_remove K _ _ front rfront _ Hnew Hfront) as Hrem.
      destruct Hnew as (Hv' & Hc' & Hall').
      destruct (Hall' front Hfront) as [Hvf Hcf].
      rewrite (vget_lookup _ _ _ Hvf). cbn [mbind outcome_bind].
      rewrite vset_lt by lia. cbn [mbind outcome_bind].
      rewrite (vget_lookup _ _ _ Hcf). cbn [mbind outcome_bind].
      rewrite vset_lt by lia. cbn [mbind outcome_bind].
      eexists. split; [done|]. unfold sw_stats. rewrite Hsnoc.
      split_and!; simpl; try done.
      * by rewrite map_app.
      * by rewrite map_app.
  - eexists. split; [done|]. unfold sw_stats. rewrite Hsnoc.
    split_and!; simpl; try done.
    + by rewrite map_app.
    + by rewrite map_app.
Qed.

Lemma sw_make_stats (K : nat) (W : Z) : sw_stats K W (SlidingUCB.make K W) [].
Proof.
  split_and!; try done. apply counts_replicate.
Qed.

(** X14. The interaction loop on Sliding-UCB over K >= 1 arms never fails, for
    any window size.  At every moment the two deques hold the last W plays
    and their rewards, and the two vectors hold, for each arm, the number of
    its plays and of its rewards 1 among these last W rounds; an arm with
    a play in the window is chosen only if every arm has one. *)
Theorem sliding_ucb_keeps_window (K : nat) (W : Z) (rounds : list (nat * bool)) :
  (1 <= K)%nat -> (0 <= W)%Z ->
  exists arms st,
    play (SlidingUCB.make K W) rounds = Done (arms, st) /\
    length arms = length rounds /\
    Forall (fun a => (a < K)%nat) arms /\
    sw_stats K W st (zip arms (map snd rounds)) /\
    forall i a, arms !! i = Some a ->
      explores_before_exploiting K
        (lastn W (take i (zip arms (map snd rounds)))) a.
Proof.
  intros HK HW.
  apply (play_inv (P := sliding_ucb_strategy) K (sw_stats K W)
           (fun obs a => explores_before_exploiting K (lastn W obs) a)
           (fun st obs o H => sw_getAction_ok K W st obs o HK H)
           (fun st obs a r H Ha => sw_update_stats K W st obs a r HW H Ha)
           rounds (SlidingUCB.make K W) []).
  apply sw_make_stats.
Qed.

Lemma sliding_ucb_keeps_window_witness :
  exists arms st,
    play (SlidingUCB.make 2 1) [(3%nat, true); (1%nat, false); (4%nat, true)]
      = Done (arms, st) /\
    length arms = 3%nat /\
    Forall (fun a => (a < 2)%nat) arms /\
    sw_stats 2 1 st (zip arms [true; false; true]) /\
    forall i a, arms !! i = Some a ->
      explores_before_exploiting 2
        (lastn 1 (take i (zip arms [true; false; true]))) a.
Proof.
  apply (sliding_ucb_keeps_window 2 1
           [(3%nat, true); (1%nat, false); (4%nat, true)]); lia.
Defined.

Lemma visited_in (b : nat) (obs : list (nat * bool)) :
  visits_of b obs <> 0%nat <-> b ∈ map fst obs.
Proof.
  induction obs as [|o obs IH].
  - split; [done|]. intros H. by apply elem_of_nil in H.
  - rewrite visits_of_cons. cbn [map]. rewrite elem_of_cons.
    destruct (decide (o.1 = b)) as [<-|Hne].
    + split; [by left|lia].
    + simpl. rewrite IH. split; [by right|]. intros [?|?]; [by subst|done].
Qed.

Lemma all_visited_length (K : nat) (obs : list (nat * bool)) :
  (forall b, (b < K)%nat -> visits_of b obs <> 0%nat) -> (K <= length obs)%nat.
Proof.
  intros Hall.
  assert (Hincl : incl (seq 0 K) (map fst obs)).
  { intros b Hb. apply in_seq in Hb.
    apply list_elem_of_In, visited_in, Hall. lia. }
  pose proof (NoDup_incl_length (seq_NoDup K 0) Hincl) as Hle.
  by rewrite length_seq, length_map in Hle.
Qed.

(** X15. With a window shorter than the number of arms, Sliding-UCB never
    computes an index: at every round some arm has no play left in the
    window, and the arm chosen is always one that is absent from the last
    W plays. *)
Theorem sliding_ucb_small_window_explores (K : nat) (W : Z)
    (rounds : list (nat * bool)) :
  (0 <= W < Z.of_nat K)%Z ->
  exists arms st,
    play (SlidingUCB.make K W) rounds = Done (arms, st) /\
    forall i a, arms !! i = Some a ->
      a ∉ map fst (lastn W (take i (zip arms (map snd rounds)))).
Proof.
  intros HW.
  assert (HK : (1 <= K)%nat) by lia. assert (HW0 : (0 <= W)%Z) by lia.
  destruct (play_inv (P := sliding_ucb_strategy) K (sw_stats K W)
              (fun obs a => explores_before_exploiting K (lastn W obs) a)
              (fun st obs o H => sw_getAction_ok K W st obs o HK H)
              (fun st obs a r H Ha => sw_update_stats K W st obs a r HW0 H Ha)
              rounds (SlidingUCB.make K W) [] (sw_make_stats K W))
    as (arms & st & Hplay & _ & _ & _ & Hgood).
  cbn [app] in Hgood.
  exists arms, st. split; [done|]. intros i a Hia.
  destruct (Hgood i a Hia) as [Hzero|Hall].
  - intros Hin. by apply visited_in in Hin.
  - apply all_visited_length in Hall.
    match type of Hall with
    | (_ <= length (lastn W ?l))%nat =>
        pose proof (lastn_length W l ltac:(lia))
    end.
    lia.
Qed.

Lemma sliding_ucb_small_window_explores_witness :
  exists arms st,
    play (SlidingUCB.make 3 1) [(0%nat, false); (0%nat, false); (0%nat, false)]
      = Done (arms, st) /\
    forall i a, arms !! i = Some a ->
      a ∉ map fst (lastn 1 (take i (zip arms [false; false; false]))).
Proof.
  apply (sliding_ucb_small_window_explores 3 1
           [(0%nat, false); (0%nat, false); (0%nat, false)]). lia.
Defined.

End UCBFamilyFacts.

(** ** The windows of MALG *)

Module MALGWindows.
Import MALG MALGFacts.

Lemma dyadic_make K D : dyadic (make K D).
Proof.
  intros m i Hm. simpl in Hm. apply lookup_replicate in Hm as [Hm _]. done.
Qed.

Lemma install_dyadic st m :
  dyadic st -> (1 <= m_tau st)%Z ->
  ((m_tau st - 1) mod 2 ^ Z.of_nat m = 0)%Z ->
  (m < Datatypes.length (m_instances st))%nat ->
  dyadic (install st m).
Proof.
  intros Hdy Htau Hmod Hlen j i Hj. unfold install in Hj. simpl in Hj.
  destruct (decide (j = m)) as [->|Hne].
  - rewrite list_lookup_insert_eq in Hj by done. injection Hj as <-.
    simpl. split_and!; [done|lia|lia|lia].
  - rewrite list_lookup_insert_ne in Hj by done. simpl. by apply Hdy.
Qed.

Lemma schedule_level_dyadic st u m :
  (m <= 30)%nat -> (m < Datatypes.length (m_instances st))%nat ->
  (1 <= m_tau st)%Z -> (m_tau st + 2 ^ Z.of_nat m < 2 ^ 64)%Z ->
  dyadic st ->
  exists st1, schedule_level u m st = Done st1 /\ dyadic st1 /\
    m_tau st1 = m_tau st /\
    Datatypes.length (m_instances st1) = Datatypes.length (m_instances st).
Proof.
  intros Hm Hlen Htau Hbound Hdy.
  rewrite schedule_level_eval by done. eexists. split; [done|].
  case_bool_decide as Hmod; simpl; [|done].
  destruct (Rltb u _); [|done]. split_and!.
  - by apply install_dyadic.
  - done.
  - unfold install. simpl. by rewrite length_insert.
Qed.

Lemma schedule_loop_dyadic us (D : nat) : forall todo st,
  (D <= 30)%nat -> (todo <= D + 1)%nat ->
  (todo <= Datatypes.length (m_instances st))%nat ->
  (1 <= m_tau st)%Z -> (m_tau st + 2 ^ Z.of_nat D < 2 ^ 64)%Z ->
  dyadic st ->
  exists st1, schedule_loop us todo st = Done st1 /\ dyadic st1 /\
    m_tau st1 = m_tau st /\
    Datatypes.length (m_instances st1) = Datatypes.length (m_instances st).
Proof.
  induction todo as [|m IH]; intros st HD Htodo Hlen Htau Hbound Hdy.
  - exists st. done.
  - assert (Hp : (2 ^ Z.of_nat m <= 2 ^ Z.of_nat D)%Z)
      by (apply Z.pow_le_mono_r; lia).
    destruct (schedule_level_dyadic st (us m) m)
      as (st' & Hlevel & Hdy' & Ht & Hl); [lia|lia|lia|lia|done|].
    destruct (IH st') as (st1 & Hloop & Hdy1 & Ht1 & Hl1);
      [lia|lia|lia|lia|lia|done|].
    exists st1. cbn [schedule_loop]. rewrite Hlevel. cbn [mbind outcome_bind].
    split_and!; try done; congruence.
Qed.

Lemma update_dyadic st1 arm reward st2 :
  dyadic st1 -> (m_tau st1 + 1 < 2 ^ 64)%Z ->
  update st1 arm reward = Done st2 -> dyadic st2.
Proof.
  intros Hdy Hbound Hupd. unfold update in Hupd.
  apply bind_Done_inv in Hupd as (idx & _ & Hupd).
  apply bind_Done_inv in Hupd as (i & Hi & Hupd).
  apply bind_Done_inv in Hupd as (alg' & Halg & Hupd).
  apply bind_Done_inv in Hupd as (insts & Hinsts & Hupd).
  apply vset_Done_inv in Hinsts as [Hidx ->].
  apply mret_Done_inv in Hupd as <-.
  unfold deref in Hi. apply bind_Done_inv in Hi as (oi & Hoi & Hi).
  destruct oi as [i0|]; [|done]. apply mret_Done_inv in Hi as ->.
  apply vget_Done in Hoi.
  intros j i' Hj. simpl in Hj |- *.
  assert (Hold : exists i0, m_instances st1 !! j = Some (Some i0) /\
                            s i0 = s i' /\ e i0 = e i').
  { destruct (decide (j = Z.to_nat idx)) as [->|Hne].
    - rewrite list_lookup_insert_eq in Hj by done. injection Hj as <-.
      by exists i.
    - rewrite list_lookup_insert_ne in Hj by done. by exists i'. }
  destruct Hold as (i0 & Hi0 & Hs & He).
  destruct (Hdy j i0 Hi0) as (Hmod & Hend & Hstart).
  rewrite <- Hs, <- He. split_and!; try done; [lia|].
  assert (0 <= m_tau st1)%Z by lia. rewrite u64_small by lia. lia.
Qed.

Lemma ready_dyadic K D : forall n st,
  (1 <= K)%nat -> (D <= 30)%nat ->
  (Z.of_nat n + 2 ^ Z.of_nat D + 1 < 2 ^ 64)%Z ->
  ready K D n st -> dyadic st.
Proof.
  intros n st HK HD Hbound Hready.
  induction Hready as [|n st us rnd arm st1 reward st2 Hready IH Hus Hget Hupd].
  - apply dyadic_make.
  - specialize (IH ltac:(lia)).
    pose proof (ready_inv K D n st HK HD ltac:(lia) Hready) as Hinv.
    destruct (getAction_state K D (Z.of_nat n) st us rnd arm st1
                HK HD ltac:(lia) ltac:(lia) Hinv Hus Hget) as (Hloop & Hst1).
    destruct Hinv as (_ & _ & Htau & Hlen & _).
    pose proof (pow2_le_30 D HD) as Hp.
    destruct (schedule_loop_dyadic us D (D + 1) st)
      as (st1' & Hloop' & Hdy1 & Ht1 & _); [lia|lia|lia|lia|lia|done|].
    assert (st1' = st1) as -> by congruence.
    apply (update_dyadic st1 arm reward st2); [done| |done].
    rewrite Ht1, Htau. lia.
Qed.

(** The instance [activeInstance] returns has the shortest window among
    those that cover tau. *)
Lemma activeInstance_least K D n st :
  (D <= 30)%nat -> (0 <= n)%Z -> (n + 2 ^ Z.of_nat D + 1 < 2 ^ 64)%Z ->
  malg_scheduled K D n st ->
  exists idx i, activeInstance st = Done idx /\ covering st (Z.to_nat idx) i /\
    forall j i', covering st j i' -> (length i <= length i')%Z.
Proof.
  intros HD Hn Hbound (Harms & Hmn & Htau & Hlen & top & Htop & Hs & He).
  pose proof (pow2_le_30 D HD) as Hp.
  pose proof (Z.mod_pos_bound n (2 ^ Z.of_nat D) ltac:(lia)) as Hmod.
  pose proof (active_loop_spec (m_tau st) (m_instances st) []
                size_t_max size_t_max) as Hloop.
  unfold activeInstance. cbn [app Datatypes.length] in Hloop.
  change (Z.of_nat 0) with 0%Z in Hloop.
  destruct (active_loop (m_tau st) (m_instances st) 0 size_t_max size_t_max)
    as [best best_idx].
  destruct Hloop as (Hmax & Hwit & Hmin).
  { unfold least_cover, size_t_max.
    split_and!; [lia|intros; lia|intros j i Hj; done]. }
  cbn [fst snd] in *.
  assert (Hcov : (s top <= m_tau st <= e top)%Z) by lia.
  pose proof (Hmin D top Htop Hcov) as Hb.
  assert (Hl : length top = (2 ^ Z.of_nat D)%Z).
  { unfold length. rewrite u64_small; lia. }
  assert (Hlt : (best < size_t_max)%Z) by (unfold size_t_max; lia).
  rewrite assert_true by (apply bool_decide_eq_true; lia). simpl.
  destruct (Hwit Hlt) as (i & Hi & Hci & Hli).
  exists best_idx, i. split_and!; try done.
  intros j i' [Hj Hcj]. rewrite Hli. by apply (Hmin j i').
Qed.

Lemma dyadic_length st m i :
  dyadic st -> (m <= 30)%nat -> m_instances st !! m = Some (Some i) ->
  length i = (2 ^ Z.of_nat m)%Z.
Proof.
  intros Hdy Hm Hi. destruct (Hdy m i Hi) as (_ & He & _).
  pose proof (pow2_le_30 m Hm). unfold length. rewrite He.
  rewrite u64_small; lia.
Qed.

(** X16. In every state reached by rounds of [getAction] and [update], the
    windows installed are blocks of their levels (level m: 2^m steps from
    a step s with s - 1 a multiple of 2^m), and after the scheduling loop
    [activeInstance] returns the lowest level whose window covers tau:
    MALG plays the UCB1 instance of the shortest window still open. *)
Theorem malg_plays_lowest_open_level (K D n : nat) (st : MalgUCB)
    (us : nat -> R) :
  (1 <= K)%nat -> (D <= 30)%nat ->
  (Z.of_nat n + 2 ^ Z.of_nat D + 1 < 2 ^ 64)%Z ->
  ready K D n st -> unit_draws us ->
  exists st1 idx i,
    schedule_loop us (D + 1) st = Done st1 /\ dyadic st1 /\
    activeInstance st1 = Done idx /\
    covering st1 (Z.to_nat idx) i /\
    length i = (2 ^ Z.of_nat (Z.to_nat idx))%Z /\
    forall j i', covering st1 j i' -> (Z.to_nat idx <= j)%nat.
Proof.
  intros HK HD Hbound Hready Hus.
  pose proof (ready_inv K D n st HK HD Hbound Hready) as Hinv.
  pose proof (ready_dyadic K D n st HK HD Hbound Hready) as Hdy.
  destruct (schedule_loop_spec K D (Z.of_nat n) HK HD ltac:(lia) Hbound
              st us Hinv Hus) as (st1 & Hsched & Hst1).
  destruct Hinv as (_ & _ & Htau & Hlen & _).
  destruct (schedule_loop_dyadic us D (D + 1) st)
    as (st1' & Hloop' & Hdy1 & Ht1 & Hl1); [lia|lia|lia|lia|lia|done|].
  assert (st1' = st1) as -> by congruence.
  destruct (activeInstance_least K D (Z.of_nat n) st1 HD ltac:(lia) Hbound Hst1)
    as (idx & i & Hact & [Hi Hcov] & Hleast).
  assert (Hlevel : forall j i', m_instances st1 !! j = Some (Some i') ->
            (j <= 30)%nat).
  { intros j i' Hj. apply lookup_lt_Some in Hj. lia. }
  exists st1, idx, i. split_and!; try done.
  - apply (dyadic_length st1); [done|by eapply Hlevel|done].
  - intros j i' Hc. pose proof (Hleast j i' Hc) as Hle. destruct Hc as [Hj Hcj].
    rewrite (dyadic_length st1 _ i Hdy1 (Hlevel _ _ Hi) Hi) in Hle.
    rewrite (dyadic_length st1 j i' Hdy1 (Hlevel _ _ Hj) Hj) in Hle.
    apply Z.pow_le_mono_r_iff in Hle; lia.
Qed.

Lemma malg_plays_lowest_open_level_witness :
  exists st1 idx i,
    schedule_loop (fun _ => 0) (2 + 1) (make 2 2) = Done st1 /\ dyadic st1 /\
    activeInstance st1 = Done idx /\
    covering st1 (Z.to_nat idx) i /\
    length i = (2 ^ Z.of_nat (Z.to_nat idx))%Z /\
    forall j i', covering st1 j i' -> (Z.to_nat idx <= j)%nat.
Proof.
  apply (malg_plays_lowest_open_level 2 2 0 (make 2 2) (fun _ => 0)).
  - lia.
  - lia.
  - simpl. lia.
  - apply ready_make.
  - intros m. lra.
Defined.

(** X17. The interaction loop on MALG over K >= 1 arms and depth D <= 30 never
    fails, whatever the draws in [0,1) and the rewards: the assertion of
    [activeInstance] holds at every call, no null instance is
    dereferenced, no vector is indexed past its end.  The arms played are
    arms and tau ends at the number of rounds plus one. *)
Theorem malg_interaction_never_fails (K D : nat)
    (rounds : list ((nat -> R) * nat * bool)) :
  (1 <= K)%nat -> (D <= 30)%nat ->
  (Z.of_nat (Datatypes.length rounds) + 2 ^ Z.of_nat D + 1 < 2 ^ 64)%Z ->
  Forall (fun o => unit_draws o.1.1) rounds ->
  exists arms st,
    Policy.play (P := Policy.malg_strategy) (make K D) rounds
      = Done (arms, st) /\
    Forall (fun a => (a < K)%nat) arms /\
    m_tau st = (Z.of_nat (Datatypes.length rounds) + 1)%Z /\
    dyadic st.
Proof.
  intros HK HD Hbound Hus.
  destruct (malg_play_never_fails K D HK HD rounds 0 (make K D))
    as (arms & st & Hplay & Hready & Harms);
    [simpl; lia|apply ready_make|done|].
  simpl in Hready.
  pose proof (ready_inv K D _ st HK HD Hbound Hready) as (_ & _ & Htau & _).
  exists arms, st. split_and!; try done.
  by apply (ready_dyadic K D (Datatypes.length rounds)).
Qed.

Lemma malg_interaction_never_fails_witness :
  exists arms st,
    Policy.play (P := Policy.malg_strategy) (make 2 2)
      [(fun _ => 0, 0%nat, true); (fun _ => 1 / 2, 1%nat, false)]
      = Done (arms, st) /\
    Forall (fun a => (a < 2)%nat) arms /\
    m_tau st = 3%Z /\
    dyadic st.
Proof.
  apply (malg_interaction_never_fails 2 2
           [(fun _ => 0, 0%nat, true); (fun _ => 1 / 2, 1%nat, false)]).
  - lia.
  - lia.
  - simpl. lia.
  - repeat constructor; simpl; lra.
Defined.

(** *** The install threshold *)

Lemma rho_decreasing st (t t' : R) :
  (1 <= m_arms st)%nat -> 0 < t <= t' -> rho st t' <= rho st t.
Proof.
  intros HK [Ht Hle]. unfold rho.
  assert (Ha : 1 <= INR (m_arms st)) by (apply (le_INR 1); lia).
  assert (Hdiv : INR (m_arms st) / t' <= INR (m_arms st) / t).
  { unfold Rdiv. apply Rmult_le_compat_l; [lra|].
    apply Rinv_le_contravar; lra. }
  pose proof (sqrt_le_1_alt _ _ Hdiv). lra.
Qed.

(** X18. The probability with which the scheduling loop installs a window of
    level m at a block boundary, rho(2^n) / rho(2^m), is a probability for
    every level m <= n of a MALG over at least one arm; it grows with the
    level and is 1 at the top level n, so that a draw of [0, 1) always
    installs the top window. *)
Theorem malg_install_threshold_is_probability (st : MalgUCB) (m m' : nat) :
  (1 <= m_arms st)%nat -> (m <= m')%nat -> (m' <= m_n st)%nat ->
  let threshold l := rho st (2 ^ m_n st) / rho st (2 ^ l) in
  0 < threshold m /\ threshold m <= threshold m' /\ threshold m' <= 1 /\
  threshold (m_n st) = 1 /\
  forall u, 0 <= u < 1 -> Rltb u (threshold (m_n st)) = true.
Proof.
  intros HK Hm Hm' threshold. unfold threshold.
  pose proof (rho_pos st (2 ^ m_n st) HK (pow2_pos _)) as Hn.
  pose proof (rho_pos st (2 ^ m) HK (pow2_pos _)) as Hpm.
  pose proof (rho_pos st (2 ^ m') HK (pow2_pos _)) as Hpm'.
  assert (Hmm : rho st (2 ^ m') <= rho st (2 ^ m)).
  { apply rho_decreasing; [done|]. split; [apply pow2_pos|].
    apply Rle_pow; [lra|done]. }
  assert (Hmn : rho st (2 ^ m_n st) <= rho st (2 ^ m')).
  { apply rho_decreasing; [done|]. split; [apply pow2_pos|].
    apply Rle_pow; [lra|done]. }
  assert (Hone : rho st (2 ^ m_n st) / rho st (2 ^ m_n st) = 1)
    by (unfold Rdiv; apply Rinv_r; lra).
  split_and!.
  - by apply Rdiv_lt_0_compat.
  - unfold Rdiv. apply Rmult_le_compat_l; [lra|].
    apply Rinv_le_contravar; lra.
  - apply (Rmult_le_reg_r (rho st (2 ^ m'))); [done|].
    unfold Rdiv. rewrite Rmult_assoc, Rinv_l by lra. lra.
  - done.
  - intros u Hu. apply Rltb_true. rewrite Hone. lra.
Qed.

Lemma malg_install_threshold_is_probability_witness :
  let st := make 2 2 in
  let threshold l := rho st (2 ^ m_n st) / rho st (2 ^ l) in
  0 < threshold 0%nat /\ threshold 0%nat <= threshold 1%nat /\
  threshold 1%nat <= 1 /\
  threshold (m_n st) = 1 /\
  forall u, 0 <= u < 1 -> Rltb u (threshold (m_n st)) = true.
Proof.
  apply (malg_install_threshold_is_probability (make 2 2) 0 1); simpl; lia.
Defined.

End MALGWindows.

(** ** More on the environment *)

Module EnvFacts.
Import Bandits BanditsFacts.

(** *** The geometric schedule *)

Lemma running_sums_ge upto incs :
  Forall (fun inc => 0 <= inc)%Z incs ->
  Forall (fun t => upto <= t)%Z (running_sums upto incs).
Proof.
  revert upto. induction incs as [|inc rest IH]; intros upto Hall; simpl.
  - constructor.
  - inversion Hall as [|? ? Hinc Hrest]; subst. constructor; [lia|].
    eapply Forall_impl; [apply (IH _ Hrest)|]. simpl. intros t Ht. lia.
Qed.

Lemma total_nonneg incs :
  Forall (fun inc => 0 <= inc)%Z incs -> (0 <= total incs)%Z.
Proof.
  induction 1 as [|inc rest Hinc Hrest IH]; unfold total in *; simpl; lia.
Qed.

Lemma filter_none_ge (max_trials upto : Z) (l : list Z) :
  (max_trials <= upto)%Z -> Forall (fun t => upto <= t)%Z l ->
  filter (fun t => t < max_trials)%Z l = [].
Proof.
  intros Hge Hall. induction Hall as [|t l Ht Hl IH]; [done|].
  rewrite filter_cons, decide_False by lia. done.
Qed.

Lemma geometric_loop_spec (max_trials : Z) : forall incs upto cpts,
  (0 <= upto < max_trials)%Z ->
  Forall (fun inc => 0 <= inc /\ inc + max_trials < 2 ^ 64)%Z incs ->
  geometric_loop max_trials incs upto cpts
  = if bool_decide (max_trials <= upto + total incs)%Z
    then Done (cpts ++ filter (fun t => t < max_trials)%Z
                              (running_sums upto incs))
    else Failed OutOfFuel.
Proof.
  induction incs as [|inc rest IH]; intros upto cpts Hupto Hall.
  - simpl. rewrite bool_decide_false; [done|]. unfold total. simpl. lia.
  - inversion Hall as [|? ? [Hinc Hfit] Hrest]; subst.
    assert (Hnn : Forall (fun inc => 0 <= inc)%Z rest).
    { eapply Forall_impl; [exact Hrest|]. simpl. intros ? [? ?]. done. }
    pose proof (total_nonneg rest Hnn) as Htot.
    cbn [geometric_loop running_sums]. rewrite u64_small by lia.
    replace (upto + total (inc :: rest))%Z
      with (upto + inc + total rest)%Z by (unfold total; simpl; lia).
    case_bool_decide as Hlt.
    + rewrite IH by (done || lia).
      rewrite filter_cons, decide_True by done.
      by rewrite <- app_assoc.
    + rewrite bool_decide_true by lia.
      rewrite filter_cons, decide_False by done.
      rewrite (filter_none_ge max_trials (upto + inc)); [|lia|].
      * by rewrite app_nil_r.
      * by apply running_sums_ge.
Qed.

(** X19. The constructor of the geometric schedule returns exactly when the
    draws of the geometric distribution add up to [max_trials] or more
    (draws that stay below it, such as draws that are all 0, keep the loop
    asking for more).  The change points are then the running sums of
    the draws that are below [max_trials]. *)
Theorem geometric_schedule_changepoints (max_trials : Z) (incs : list Z) :
  (0 < max_trials)%Z ->
  Forall (fun inc => 0 <= inc /\ inc + max_trials < 2 ^ 64)%Z incs ->
  ((max_trials <= total incs)%Z ->
   exists cs, GeometricAbruptChangeSchedule max_trials incs = Done cs /\
     customArmInitialisation cs = (fun _ => []) /\
     forall t, changepoint cs t = true
               <-> (t < max_trials)%Z /\ t ∈ running_sums 0 incs) /\
  ((total incs < max_trials)%Z ->
   GeometricAbruptChangeSchedule max_trials incs = Failed OutOfFuel).
Proof.
  intros Hmax Hall. unfold GeometricAbruptChangeSchedule.
  rewrite geometric_loop_spec by (done || lia). simpl. split.
  - intros Hge. rewrite bool_decide_true by lia. eexists. split; [done|].
    split; [done|]. intros t. simpl.
    rewrite bool_decide_eq_true, list_elem_of_filter. done.
  - intros Hlt. rewrite bool_decide_false by lia. done.
Qed.

Lemma geometric_schedule_changepoints_witness :
  exists cs, GeometricAbruptChangeSchedule 3 [2; 0; 3]%Z = Done cs /\
    customArmInitialisation cs = (fun _ => []) /\
    forall t, changepoint cs t = true
              <-> (t < 3)%Z /\ t ∈ running_sums 0 [2; 0; 3]%Z.
Proof.
  apply (proj1 (geometric_schedule_changepoints 3 [2; 0; 3]%Z
                  ltac:(lia) ltac:(repeat constructor; lia))).
  unfold total. simpl. lia.
Defined.

(** *** The counters of the problem *)

(** One pull on a valid arm, field by field. *)
Lemma pull_fields bp arm flip fresh :
  (arm < Datatypes.length (m_thetas bp))%nat ->
  schedule_ok (m_change_schedule bp) (Datatypes.length (m_thetas bp)) ->
  let t := u64 (m_num_trials bp + 1) in
  let cs := m_change_schedule bp in
  exists bp',
    pull bp arm flip fresh = Done ((if flip then 1 else 0), bp') /\
    m_num_trials bp' = t /\
    m_cumm_reward bp' = m_cumm_reward bp + (if flip then 1 else 0) /\
    m_change_schedule bp' = cs /\
    Datatypes.length (m_thetas bp') = Datatypes.length (m_thetas bp) /\
    m_thetas bp' =
      if changepoint cs t then
        if bool_decide (customArmInitialisation cs t = [])
        then map fresh (seq 0 (Datatypes.length (m_thetas bp)))
        else customArmInitialisation cs t
      else m_thetas bp.
Proof.
  intros Harm Hok t cs.
  assert (Hne : m_thetas bp <> []).
  { intros Heq. rewrite Heq in Harm. simpl in Harm. lia. }
  destruct (bestArm_first_argmax bp Hne) as (vmax & Hv & _).
  unfold pull. rewrite bool_decide_false by lia.
  rewrite (vget_lookup _ _ _ Hv). simpl. fold t cs.
  destruct (changepoint cs t) eqn:Hcp.
  - case_bool_decide as Hnil.
    + eexists. split; [done|]. simpl. split_and!; try done.
      by rewrite length_map, length_seq.
    + destruct (Hok t Hcp) as [Hc|Hc]; [done|].
      rewrite assert_true by (by apply bool_decide_eq_true). simpl.
      eexists. split; [done|]. simpl. split_and!; done.
  - eexists. split; [done|]. simpl. split_and!; done.
Qed.

Lemma heads_cons i ins :
  heads (i :: ins) = ((if pull_flip i then 1 else 0) + heads ins)%nat.
Proof.
  unfold heads. rewrite filter_cons.
  destruct (decide (pull_flip i = true)) as [Hf|Hf]; simpl.
  - by rewrite Hf.
  - by destruct (pull_flip i).
Qed.

Lemma pulls_counters : forall ins bp,
  schedule_ok (m_change_schedule bp) (arms bp) ->
  Forall (fun i => (pull_arm i < arms bp)%nat) ins ->
  (0 <= m_num_trials bp)%Z ->
  (m_num_trials bp + Z.of_nat (Datatypes.length ins) < 2 ^ 64)%Z ->
  exists bp', pulls bp ins = Done bp' /\
    trials bp' = (trials bp + Z.of_nat (Datatypes.length ins))%Z /\
    cummulativeReward bp' = cummulativeReward bp + INR (heads ins) /\
    arms bp' = arms bp.
Proof.
  unfold arms, trials, cummulativeReward.
  induction ins as [|i rest IH]; intros bp Hok Hins Hn Hbound.
  - exists bp. simpl. split_and!; try done; [lia|].
    unfold heads. simpl. lra.
  - inversion Hins as [|? ? Hi Hrest]; subst. simpl in Hbound.
    destruct (pull_fields bp (pull_arm i) (pull_flip i) (pull_fresh i) Hi Hok)
      as (bp1 & Hpull & Ht & Hr & Hs & Hl & _).
    rewrite u64_small in Ht by lia.
    destruct (IH bp1) as (bp' & Hrun & Ht' & Hr' & Hl').
    + by rewrite Hs, Hl.
    + by rewrite Hl.
    + lia.
    + lia.
    + exists bp'. cbn [pulls]. rewrite Hpull. cbn [mbind outcome_bind].
      split_and!; [done|simpl; lia| |congruence].
      rewrite Hr', Hr, heads_cons, plus_INR.
      destruct (pull_flip i); simpl; lra.
Qed.

(** X20. A pull of an arm that does not exist ends the process.  A sequence of
    pulls of valid arms never fails, [trials()] grows by the number of
    pulls, [cummulativeReward()] by the number of coins that came up 1,
    and [arms()] does not change, whatever the schedule does to the
    means. *)
Theorem pull_keeps_counters (bp : StochasticBanditProblem)
    (ins : list pull_input) :
  schedule_ok (m_change_schedule bp) (arms bp) ->
  Forall (fun i => (pull_arm i < arms bp)%nat) ins ->
  (0 <= trials bp)%Z ->
  (trials bp + Z.of_nat (Datatypes.length ins) < 2 ^ 64)%Z ->
  (forall arm flip fresh, (arms bp <= arm)%nat ->
     pull bp arm flip fresh = Failed Exited) /\
  exists bp', pulls bp ins = Done bp' /\
    trials bp' = (trials bp + Z.of_nat (Datatypes.length ins))%Z /\
    cummulativeReward bp' = cummulativeReward bp + INR (heads ins) /\
    arms bp' = arms bp.
Proof.
  intros Hok Hins Hn Hbound. split.
  - intros arm flip fresh Harm. unfold pull, arms in *.
    by rewrite bool_decide_true.
  - by apply pulls_counters.
Qed.

Lemma pull_keeps_counters_witness :
  let bp := make 2 NoChangeSchecule (fun _ => 1 / 2) in
  let ins := [mkPull 0 true (fun _ => 0); mkPull 1 false (fun _ => 0)] in
  (forall arm flip fresh, (arms bp <= arm)%nat ->
     pull bp arm flip fresh = Failed Exited) /\
  exists bp', pulls bp ins = Done bp' /\
    trials bp' = (trials bp + Z.of_nat (Datatypes.length ins))%Z /\
    cummulativeReward bp' = cummulativeReward bp + INR (heads ins) /\
    arms bp' = arms bp.
Proof.
  apply (pull_keeps_counters (make 2 NoChangeSchecule (fun _ => 1 / 2))
           [mkPull 0 true (fun _ => 0); mkPull 1 false (fun _ => 0)]).
  - intros t Ht. simpl in Ht. discriminate Ht.
  - repeat constructor; simpl; lia.
  - simpl. lia.
  - simpl. lia.
Defined.

(** *** The two-phase schedule *)

Section TwoPhase.

Variables (T : Z) (seg1 seg2 : list R) (K : nat).
Hypothesis HK : (1 <= K)%nat.
Hypothesis Hseg1 : Datatypes.length seg1 = K.
Hypothesis Hseg2 : Datatypes.length seg2 = K.

Let cs := TwoPhaseChangeSchedule T seg1 seg2.

(** The means in force once [n >= 1] pulls were made. *)
Let phase (n : Z) : list R :=
  if bool_decide (n < T / 2)%Z then seg1 else seg2.

Lemma two_phase_ok : schedule_ok cs K.
Proof.
  intros t _. right. unfold cs. simpl. by destruct (bool_decide _).
Qed.

Lemma two_phase_pulls : forall ins bp,
  m_change_schedule bp = cs -> Datatypes.length (m_thetas bp) = K ->
  Forall (fun i => (pull_arm i < K)%nat) ins ->
  (0 <= m_num_trials bp)%Z ->
  (m_num_trials bp + Z.of_nat (Datatypes.length ins) < 2 ^ 64)%Z ->
  (1 <= m_num_trials bp -> m_thetas bp = phase (m_num_trials bp))%Z ->
  exists bp', pulls bp ins = Done bp' /\
    m_num_trials bp' = (m_num_trials bp + Z.of_nat (Datatypes.length ins))%Z /\
    (1 <= m_num_trials bp' -> m_thetas bp' = phase (m_num_trials bp'))%Z.
Proof.
  induction ins as [|i rest IH]; intros bp Hcs Hlen Hins Hn Hbound Hphase.
  - exists bp. simpl. split_and!; [done|lia|done].
  - pose proof (Forall_inv Hins) as Hi.
    pose proof (Forall_inv_tail Hins) as Hrest. simpl in Hi, Hbound.
    destruct (pull_fields bp (pull_arm i) (pull_flip i) (pull_fresh i))
      as (bp1 & Hpull & Ht & _ & Hs & Hl & Hth).
    { by rewrite Hlen. }
    { rewrite Hcs, Hlen. apply two_phase_ok. }
    rewrite u64_small in Ht, Hth by lia. rewrite Hcs in Hth, Hs.
    set (n := m_num_trials bp) in *.
    assert (Hth1 : m_thetas bp1 = phase (n + 1)).
    { rewrite Hth. unfold cs at 1. cbn [changepoint TwoPhaseChangeSchedule].
      assert (Hcustom : customArmInitialisation cs (n + 1)%Z = phase (n + 1))
        by done.
      assert (Hnonempty : phase (n + 1) <> []).
      { unfold phase. destruct (bool_decide (n + 1 < T / 2)%Z); intros Hnil;
          apply (f_equal Datatypes.length) in Hnil; simpl in Hnil; lia. }
      destruct (bool_decide (n + 1 = T / 2)%Z || bool_decide (n + 1 = 1)%Z)
        eqn:Hcp.
      - rewrite Hcustom. by rewrite bool_decide_false.
      - apply orb_false_iff in Hcp as [Hh H1].
        apply bool_decide_eq_false in Hh, H1.
        rewrite Hphase by lia. unfold phase.
        destruct (decide (n < T / 2)%Z).
        + rewrite !bool_decide_true by lia. done.
        + rewrite !bool_decide_false by lia. done. }
    destruct (IH bp1) as (bp' & Hrun & Ht' & Hth');
      [done|congruence|done|lia|lia|by rewrite Ht|].
    exists bp'. cbn [pulls]. rewrite Hpull. cbn [mbind outcome_bind].
    split_and!; [done|simpl; lia|done].
Qed.

End TwoPhase.

(** X21. A problem built on the two-phase schedule: after n >= 1 pulls of valid
    arms the means are those of the first segment if n < max_trials / 2
    and those of the second segment otherwise.  The means drawn by the
    constructor are therefore in force for the first pull only, and the
    first segment holds from the second pull to the pull number
    max_trials / 2. *)
Theorem two_phase_means (T : Z) (seg1 seg2 : list R) (K : nat)
    (fresh : nat -> R) (ins : list pull_input) :
  (1 <= K)%nat -> Datatypes.length seg1 = K -> Datatypes.length seg2 = K ->
  ins <> [] -> (Z.of_nat (Datatypes.length ins) < 2 ^ 64)%Z ->
  Forall (fun i => (pull_arm i < K)%nat) ins ->
  m_thetas (make K (TwoPhaseChangeSchedule T seg1 seg2) fresh)
    = map fresh (seq 0 K) /\
  exists bp,
    pulls (make K (TwoPhaseChangeSchedule T seg1 seg2) fresh) ins = Done bp /\
    trials bp = Z.of_nat (Datatypes.length ins) /\
    m_thetas bp =
      if bool_decide (Z.of_nat (Datatypes.length ins) < T / 2)%Z
      then seg1 else seg2.
Proof.
  intros HK Hseg1 Hseg2 Hne Hbound Hins.
  assert (Hmake : m_thetas (make K (TwoPhaseChangeSchedule T seg1 seg2) fresh)
                  = map fresh (seq 0 K)).
  { unfold make, reset. simpl. by rewrite length_replicate. }
  split; [done|].
  destruct (two_phase_pulls T seg1 seg2 K HK Hseg1 Hseg2 ins
              (make K (TwoPhaseChangeSchedule T seg1 seg2) fresh))
    as (bp & Hrun & Ht & Hth); try done.
  - rewrite Hmake. by rewrite length_map, length_seq.
  - exists bp. simpl in Ht. unfold trials. split_and!; [done|lia|].
    rewrite Hth; [by rewrite Ht|]. destruct ins; [done|]. simpl in Ht. lia.
Qed.

Lemma two_phase_means_witness :
  let ins := [mkPull 0 true (fun _ => 0); mkPull 1 false (fun _ => 0)] in
  m_thetas (make 2 (TwoPhaseChangeSchedule 10 [1; 0] [1 / 2; 1]) (fun _ => 0))
    = map (fun _ => 0) (seq 0 2) /\
  exists bp,
    pulls (make 2 (TwoPhaseChangeSchedule 10 [1; 0] [1 / 2; 1]) (fun _ => 0))
          ins = Done bp /\
    trials bp = Z.of_nat (Datatypes.length ins) /\
    m_thetas bp =
      if bool_decide (Z.of_nat (Datatypes.length ins) < 10 / 2)%Z
      then [1; 0] else [1 / 2; 1].
Proof.
  apply (two_phase_means 10 [1; 0] [1 / 2; 1] 2 (fun _ => 0)
           [mkPull 0 true (fun _ => 0); mkPull 1 false (fun _ => 0)]);
    try done; simpl; try lia.
  repeat constructor; simpl; lia.
Defined.

End EnvFacts.

(** ** Sampling and the actions of the Thompson policies *)

Module SamplingFacts.
Import TS Stats.

(** *** [genBetaSample] *)

Lemma genBetaSample_step (x y : R) (rest : list (R * R)) :
  0 <= x -> 0 <= y ->
  genBetaSample ((x, y) :: rest)
  = if Reqb (x + y) 0 then genBetaSample rest
    else Done (XReal.Fin (x / (x + y))).
Proof.
  intros Hx Hy. cbn [genBetaSample]. simpl XReal.xadd. unfold XReal.xdiv.
  destruct (Reqb (x + y) 0) eqn:Hz.
  - apply Reqb_true in Hz. assert (x = 0) as -> by lra.
    rewrite (proj2 (Reqb_true 0 0)) by done. done.
  - simpl. by rewrite (proj2 (Reqb_true _ _)).
Qed.

(** X22. The two gamma draws being non-negative numbers, [genBetaSample]
    rejects exactly the pairs (0, 0), whose ratio is NaN, and returns
    x / (x + y) for the first other pair: a number of [0, 1], never NaN and
    never infinite.  If every pair is (0, 0) the loop does not end. *)
Theorem genBetaSample_in_unit_interval (draws : list (R * R)) :
  Forall (fun d : R * R => 0 <= d.1 /\ 0 <= d.2) draws ->
  (Forall (fun d : R * R => d.1 + d.2 = 0) draws ->
   genBetaSample draws = Failed OutOfFuel) /\
  (forall pre x y rest,
     draws = pre ++ (x, y) :: rest ->
     Forall (fun d : R * R => d.1 + d.2 = 0) pre -> 0 < x + y ->
     genBetaSample draws = Done (XReal.Fin (x / (x + y))) /\
     0 <= x / (x + y) <= 1).
Proof.
  intros Hpos. split.
  - intros Hzero. induction draws as [|[x y] draws IH]; [done|].
    pose proof (Forall_inv Hpos) as [Hx Hy].
    pose proof (Forall_inv Hzero) as Hxy. simpl in Hx, Hy, Hxy.
    rewrite genBetaSample_step by done.
    rewrite (proj2 (Reqb_true _ _)) by done.
    apply IH; [by apply (Forall_inv_tail Hpos)|by apply (Forall_inv_tail Hzero)].
  - intros pre x y rest -> Hpre Hxy.
    apply Forall_app in Hpos as [Hpos1 Hpos2].
    pose proof (Forall_inv Hpos2) as [Hx Hy]. simpl in Hx, Hy.
    split.
    + clear Hpos2. induction pre as [|[x0 y0] pre IH]; simpl.
      * change (genBetaSample ((x, y) :: rest)
                = Done (XReal.Fin (x / (x + y)))).
        rewrite genBetaSample_step by done.
        by rewrite (proj2 (Reqb_false _ _)) by lra.
      * pose proof (Forall_inv Hpos1) as [Hx0 Hy0].
        pose proof (Forall_inv Hpre) as Hz. simpl in Hx0, Hy0, Hz.
        change (genBetaSample ((x0, y0) :: pre ++ (x, y) :: rest)
                = Done (XReal.Fin (x / (x + y)))).
        rewrite genBetaSample_step by done.
        rewrite (proj2 (Reqb_true _ _)) by done.
        apply IH; [by apply (Forall_inv_tail Hpos1)
                  |by apply (Forall_inv_tail Hpre)].
    + split.
      * apply Rmult_le_pos; [done|]. apply Rlt_le, Rinv_0_lt_compat. lra.
      * apply (Rmult_le_reg_r (x + y)); [done|].
        unfold Rdiv. rewrite Rmult_assoc, Rinv_l by lra. lra.
Qed.

Lemma genBetaSample_in_unit_interval_witness :
  genBetaSample ([(0, 0)] ++ (1, 3) :: []) = Done (XReal.Fin (1 / (1 + 3))) /\
  0 <= 1 / (1 + 3) <= 1.
Proof.
  apply (proj2 (genBetaSample_in_unit_interval [(0, 0); (1, 3)]
                  ltac:(repeat constructor; simpl; lra))
           [(0, 0)] 1 3 []).
  - reflexivity.
  - repeat constructor. simpl. lra.
  - lra.
Defined.

(** *** Thompson sampling on stationary arms *)

Lemma posterior_feed (rs : list bool) :
  (Z.of_nat (length rs) < 2 ^ 64)%Z ->
  KT.posterior (KT.feed KT.fresh rs) = beta_params rs.
Proof.
  intros Hlen.
  destruct (KTFacts.feed_tracks rs KT.fresh []) as [[H0 H1] _];
    [done|simpl; lia|].
  simpl in H0, H1. unfold KT.posterior, KT.KT_Alpha, beta_params.
  simpl. rewrite H0, H1, <- !INR_IZR_INZ. done.
Qed.

Lemma updates_ts_spec : forall obs m,
  Forall (fun o : nat * bool => (o.1 < length m)%nat) obs ->
  updates_ts (mkTS m) obs
  = Done (mkTS (PTW.observe_all (map swap_obs obs) m)).
Proof.
  induction obs as [|[arm r] obs IH]; intros m Hvalid; [done|].
  pose proof (Forall_inv Hvalid) as Harm. simpl in Harm.
  cbn [updates_ts]. unfold update_ts. cbn [ts_model].
  destruct (lookup_lt_is_Some_2 m arm Harm) as [e He].
  rewrite (vget_lookup _ _ _ He). cbn [mbind outcome_bind].
  rewrite vset_lt by done. cbn [mbind outcome_bind].
  pose proof (PTWFacts.insert_alter (fun e => KT.update e r) m arm e He)
    as Hia. simpl in Hia. rewrite Hia.
  change (mret (mkTS ?m') ≫= _) with (updates_ts (mkTS m') obs).
  rewrite IH; [done|].
  rewrite length_alter. by apply (Forall_inv_tail Hvalid).
Qed.

Lemma rewards_of_swap_length a (obs : list (nat * bool)) :
  (length (PTW.rewards_of a (map swap_obs obs)) <= length obs)%nat.
Proof.
  pose proof (PTWBlocks.rewards_of_length a (map swap_obs obs)) as H.
  by rewrite length_map in H.
Qed.

(** X23. After any rounds on valid arms, [ThompsonSamplingStrategy::getAction]
    compares one beta sample per arm, arm i being sampled with the
    parameters (1/2 + number of its rewards 1, 1/2 + number of its
    rewards 0), and returns the first arm whose sample is the largest. *)
Theorem thompson_samples_posterior (K : nat) (obs : list (nat * bool))
    (sample : nat -> R * R -> R) :
  (1 <= K)%nat ->
  Forall (fun o : nat * bool => (o.1 < K)%nat) obs ->
  (Z.of_nat (length obs) < 2 ^ 64)%Z ->
  exists st a,
    updates_ts (make_ts K) obs = Done st /\
    getAction_ts st sample = Done a /\
    first_best K
      (fun i => sample i (beta_params (PTW.rewards_of i (map swap_obs obs))))
      a.
Proof.
  intros HK Hvalid Hlen. unfold make_ts.
  rewrite updates_ts_spec by (by rewrite length_replicate).
  destruct (UCBFamilyFacts.best_loop_first K
    (fun i => x ← (e ← vget (PTW.observe_all (map swap_obs obs)
                               (replicate K KT.fresh)) i;
                   mret (KT.posterior e));
              mret (sample i x))
    (fun i => sample i (beta_params (PTW.rewards_of i (map swap_obs obs)))))
    with (iters := K) (i := 0%nat) (best := @None R) (best_idx := 0%nat)
    as (a & Ha & Hbest).
  - intros j Hj.
    rewrite (vget_lookup _ _ (KT.feed KT.fresh
               (PTW.rewards_of j (map swap_obs obs)))).
    + cbn [mbind outcome_bind]. rewrite posterior_feed; [done|].
      pose proof (rewards_of_swap_length j obs). lia.
    + apply PTWBlocks.observe_all_lookup. by apply lookup_replicate_2.
  - lia.
  - left. done.
  - eexists _, a. split; [done|]. split; [|done].
    unfold getAction_ts, thompson_loop. cbn [ts_model].
    rewrite PTWBlocks.observe_all_length, length_replicate. done.
Qed.

Lemma thompson_samples_posterior_witness :
  exists st a,
    updates_ts (make_ts 2) [(0%nat, true); (1%nat, false)] = Done st /\
    getAction_ts st (fun i _ => INR i) = Done a /\
    first_best 2
      (fun i => (fun i _ => INR i) i
         (beta_params (PTW.rewards_of i
            (map swap_obs [(0%nat, true); (1%nat, false)]))))
      a.
Proof.
  apply (thompson_samples_posterior 2 [(0%nat, true); (1%nat, false)]
           (fun i _ => INR i)).
  - lia.
  - repeat constructor; simpl; lia.
  - simpl. lia.
Defined.

(** *** The PTW policies *)

Lemma len_nat (n D : nat) : (Z.of_nat n <= 2 ^ Z.of_nat D)%Z -> (n <= 2 ^ D)%nat.
Proof.
  intros H. apply Nat2Z.inj_le. by rewrite Nat2Z.inj_pow.
Qed.

(** The model of the policy after a run. *)
Lemma aptw_state (K : nat) (obs : list (nat * bool)) :
  (2 <= K)%nat ->
  Forall (fun o : nat * bool => (o.1 < K)%nat) obs ->
  (Z.of_nat (length obs) <= 2 ^ 30)%Z ->
  exists s,
    updates (make K) obs = Done (mkAPTW s K) /\
    PTW.wf s /\ PTW.m_depth s = 30%nat /\
    forall level arm, (level <= 30)%nat -> (arm < K)%nat ->
      PTW.posterior s level arm
      = Done (beta_params (PTW.rewards_of arm
                (drop (PTW.block_start 30 level (length obs))
                      (map swap_obs obs)))).
Proof.
  intros HK Hvalid Hlen.
  assert (Hn : (length (map swap_obs obs) <= 2 ^ 30)%nat).
  { rewrite length_map. apply len_nat. exact Hlen. }
  destruct (PTWBlocks.run_summary 30 K (map swap_obs obs) ltac:(lia) HK
              (TSFacts.swap_obs_valid K obs Hvalid) Hn)
    as (s & Hrun & Hwf & _ & _ & Hidx & Hd & Ha & _ & Hmodels).
  exists s. split_and!; try done.
  - rewrite TSFacts.updates_run. cbn [make m_model m_arms]. by rewrite Hrun.
  - intros level arm Hlevel Harm.
    pose proof (PTWBlocks.posterior_block 30 K (map swap_obs obs) s level arm
                  ltac:(lia) Hwf Hd Hn Hlevel Harm (Hmodels level Hlevel))
      as Hpost.
    rewrite length_map in Hpost. exact Hpost.
Qed.

(** A level posterior that has been returned has its 31 entries, so the
    level drawn from it is one of 0 .. 30. *)
Lemma level_in_range (s : PTW.ActivePTW) (lp : list R) (pick : list R -> nat) :
  PTW.m_depth s = 30%nat ->
  (forall lp, lp <> [] -> (pick lp < length lp)%nat) ->
  PTW.levelPosterior s = Done lp ->
  length lp = 31%nat /\ (pick lp <= 30)%nat.
Proof.
  intros Hd Hpick Hlp.
  destruct (PTWFacts.levelPosterior_Done_inv s lp Hlp) as [Hl _].
  rewrite Hd in Hl. split; [done|].
  assert (lp <> []) by (intros ->; done).
  pose proof (Hpick lp ltac:(done)). lia.
Qed.

Lemma thompson_loop_first (K : nat) (params : nat -> outcome (R * R))
    (f : nat -> R * R) (sample : nat -> R * R -> R) :
  (1 <= K)%nat -> (forall i, (i < K)%nat -> params i = Done (f i)) ->
  exists a, thompson_loop params K sample = Done a /\
            first_best K (fun i => sample i (f i)) a.
Proof.
  intros HK Hparams. unfold thompson_loop.
  apply (UCBFamilyFacts.best_loop_first K); [|lia|by left].
  intros j Hj. by rewrite Hparams.
Qed.

(** X24. After any run of at most 2^30 rounds on valid arms (K >= 2),
    [ActivePTWBanditStrategy::getAction] does what its call of
    [levelPosterior] does.  When an assertion of that call fails, the
    action fails with it, and nothing else makes it fail.  When the call
    returns the level posterior, the action draws a level of 0 .. 30 from
    it, takes one beta sample per arm with the counts that the arm has in
    the current block of that level, and returns the first arm whose
    sample is the largest. *)
Theorem aptw_getAction_samples_block (K : nat) (obs : list (nat * bool))
    (pick : list R -> nat) (sample : nat -> R * R -> R) :
  (2 <= K)%nat ->
  Forall (fun o : nat * bool => (o.1 < K)%nat) obs ->
  (Z.of_nat (length obs) <= 2 ^ 30)%Z ->
  (forall lp, lp <> [] -> (pick lp < length lp)%nat) ->
  exists st,
    updates (make K) obs = Done st /\
    (forall f, levelPosterior st = Failed f ->
       f = AssertionFailed /\ getAction st pick sample = Failed f) /\
    (forall lp, levelPosterior st = Done lp ->
       (pick lp <= 30)%nat /\
       exists a,
         getAction st pick sample = Done a /\
         first_best K
           (fun i => sample i (beta_params (PTW.rewards_of i
              (drop (PTW.block_start 30 (pick lp) (length obs))
                    (map swap_obs obs)))))
           a).
Proof.
  intros HK Hvalid Hlen Hpick.
  destruct (aptw_state K obs HK Hvalid Hlen)
    as (s & Hupd & Hwf & Hd & Hpost).
  exists (mkAPTW s K). split; [done|].
  unfold levelPosterior, getAction, levelPosteriorSample. cbn [m_model m_arms].
  split.
  - intros f Hlp. rewrite Hlp. split; [|done].
    by apply (PTWFacts.levelPosterior_failure s f (PTW.wf_nodes s Hwf)).
  - intros lp Hlp.
    destruct (level_in_range s lp pick Hd Hpick Hlp) as [_ Hlevel].
    split; [done|].
    destruct (thompson_loop_first K (PTW.posterior s (pick lp))
                (fun i => beta_params (PTW.rewards_of i
                   (drop (PTW.block_start 30 (pick lp) (length obs))
                         (map swap_obs obs))))
                sample ltac:(lia)) as (a & Ha & Hbest).
    { intros i Hi. by apply Hpost. }
    exists a. split; [|done].
    rewrite Hlp. cbn [mbind outcome_bind]. exact Ha.
Qed.

(** Two arms, a reward 1 on arm 0 and a reward 0 on arm 1; the level drawn
    is the root and the sample of arm i is i. *)
Lemma aptw_getAction_samples_block_witness :
  exists st,
    updates (make 2) [(0%nat, true); (1%nat, false)] = Done st /\
    (forall f, levelPosterior st = Failed f ->
       f = AssertionFailed /\
       getAction st (fun _ => 0%nat) (fun i _ => INR i) = Failed f) /\
    (forall lp, levelPosterior st = Done lp ->
       ((fun _ => 0%nat) lp <= 30)%nat /\
       exists a,
         getAction st (fun _ => 0%nat) (fun i _ => INR i) = Done a /\
         first_best 2
           (fun i => (fun i _ => INR i) i (beta_params (PTW.rewards_of i
              (drop (PTW.block_start 30 ((fun _ => 0%nat) lp)
                       (length [(0%nat, true); (1%nat, false)]))
                    (map swap_obs [(0%nat, true); (1%nat, false)])))))
           a).
Proof.
  apply (aptw_getAction_samples_block 2 [(0%nat, true); (1%nat, false)]
           (fun _ => 0%nat) (fun i _ => INR i)).
  - lia.
  - repeat constructor; simpl; lia.
  - simpl. lia.
  - intros lp Hlp. destruct lp; [done|simpl; lia].
Defined.

(** *** The paranoid policy *)

Lemma clip_loop_Done (clip : R) : forall fuel k,
  1 <= clip -> (0 <= k < Z.of_nat fuel)%Z -> (k < 2 ^ 64)%Z ->
  exists k', clip_loop fuel k clip = Done k' /\ (0 <= k' <= k)%Z /\
    IZR k' <= clip /\ (k' = k \/ clip < IZR (k' + 1)).
Proof.
  induction fuel as [|fuel IH]; intros k Hclip Hk Hk64; [lia|].
  cbn [clip_loop]. destruct (Rltb clip (IZR k)) eqn:Hcmp.
  - apply Rltb_true in Hcmp.
    assert (Hk1 : (1 <= k)%Z).
    { destruct (decide (1 <= k)%Z) as [|Hn]; [done|].
      assert (k = 0)%Z as -> by lia. simpl in Hcmp. lra. }
    rewrite u64_small by lia.
    destruct (IH (k - 1)%Z Hclip ltac:(lia) ltac:(lia))
      as (k' & Hrun & Hrange & Hle & Hmax).
    exists k'. split_and!; [done|lia|lia|done|].
    right. destruct Hmax as [->|Hmax]; [|done].
    by replace (k - 1 + 1)%Z with k by lia.
  - apply Rltb_false in Hcmp. exists k. split_and!; [done|lia|lia|done|by left].
Qed.

Lemma updates_paranoid_state : forall obs pst pst',
  updates_paranoid pst obs = Done pst' ->
  (0 <= m_trials pst)%Z ->
  (m_trials pst + Z.of_nat (length obs) < 2 ^ 64)%Z ->
  p_arms pst' = p_arms pst /\
  m_trials pst' = (m_trials pst + Z.of_nat (length obs))%Z /\
  updates (m_aptw pst) obs = Done (m_aptw pst').
Proof.
  induction obs as [|[arm r] obs IH]; intros pst pst' Hrun Hn Hbound.
  - apply mret_Done_inv in Hrun as <-. simpl. split_and!; [done|lia|done].
  - cbn [updates_paranoid] in Hrun. simpl in Hbound.
    apply bind_Done_inv in Hrun as (pst1 & Hstep & Hrun).
    unfold update_paranoid in Hstep.
    apply bind_Done_inv in Hstep as (aptw & Haptw & Hstep).
    apply mret_Done_inv in Hstep as <-.
    destruct (IH _ _ Hrun) as (Ha & Ht & Hu); cbn [m_trials p_arms m_aptw] in *.
    + rewrite u64_small by lia. lia.
    + rewrite u64_small by lia. lia.
    + rewrite u64_small in Ht by lia.
      split_and!; [done|simpl; lia|].
      cbn [updates]. rewrite Haptw. cbn [mbind outcome_bind]. done.
Qed.

(** X25. After any run of at most 2^30 rounds on valid arms (K >= 2),
    [ParanoidPTWBanditStrategy::getAction] does what its calls of
    [levelPosterior] do.  When an assertion of that call fails, the action
    fails with it, and nothing else makes it fail.  When the call returns,
    the action returns an arm below K: the loop that clips the segment
    exponent at log(trials + 1) + 1 ends without wrapping below zero, the
    assertion of [exploreProb] holds, and both the uniform exploration and
    the Thompson step give an arm below K. *)
Theorem paranoid_getAction_returns_arm (K fuel : nat)
    (obs : list (nat * bool)) (pick : list R -> nat) (u : R) (rnd : nat)
    (sample : nat -> R * R -> R) :
  (2 <= K)%nat -> (32 <= fuel)%nat ->
  Forall (fun o : nat * bool => (o.1 < K)%nat) obs ->
  (Z.of_nat (length obs) <= 2 ^ 30)%Z ->
  (forall lp, lp <> [] -> (pick lp < length lp)%nat) ->
  exists pst,
    updates_paranoid (make_paranoid K) obs = Done pst /\
    m_trials pst = Z.of_nat (length obs) /\
    (forall f, levelPosterior (m_aptw pst) = Failed f ->
       f = AssertionFailed /\
       getAction_paranoid fuel pst pick u rnd sample = Failed f) /\
    (forall lp, levelPosterior (m_aptw pst) = Done lp ->
       exists a,
         getAction_paranoid fuel pst pick u rnd sample = Done a /\
         (a < K)%nat).
Proof.
  intros HK Hfuel Hvalid Hlen Hpick.
  destruct (aptw_state K obs HK Hvalid Hlen)
    as (s & Hupd & Hwf & Hd & Hpost).
  pose proof (TSFacts.updates_paranoid_updates obs (make_paranoid K)) as Hpar.
  cbn [make_paranoid m_aptw] in Hpar. rewrite Hupd in Hpar.
  destruct Hpar as (pst & Hrun & Haptw).
  destruct (updates_paranoid_state obs _ _ Hrun) as (Harms & Htrials & _);
    [simpl; lia|simpl; lia|].
  cbn [make_paranoid p_arms m_trials] in Harms, Htrials.
  exists pst. split; [done|]. split; [lia|].
  unfold getAction_paranoid, levelPosteriorSample, levelPosterior.
  rewrite Haptw, Harms, Htrials. cbn [m_model m_arms].
  split.
  { intros f Hlp. rewrite Hlp. split; [|done].
    by apply (PTWFacts.levelPosterior_failure s f (PTW.wf_nodes s Hwf)). }
  intros lp Hlp.
  destruct (level_in_range s lp pick Hd Hpick Hlp) as [Hl Hlevel].
  rewrite Hlp. cbn [mbind outcome_bind mret outcome_ret]. rewrite Hl.
  rewrite (u64_small (Z.of_nat 31 - 1)) by lia.
  rewrite (u64_small (Z.of_nat 31 - 1 - Z.of_nat (pick lp))) by lia.
  rewrite (u64_small (0 + Z.of_nat (length obs) + 1)) by lia.
  set (clip := ln (IZR (0 + Z.of_nat (length obs) + 1)) + 1).
  assert (Hclip : 1 <= clip).
  { unfold clip.
    assert (1 <= IZR (0 + Z.of_nat (length obs) + 1)) by (apply IZR_le; lia).
    pose proof (LogAddFacts.ln_le_mono 1 _ ltac:(lra) H) as Hln.
    rewrite ln_1 in Hln. lra. }
  destruct (clip_loop_Done clip fuel (Z.of_nat 31 - 1 - Z.of_nat (pick lp))
              Hclip ltac:(lia) ltac:(lia)) as (k & Hk & _).
  rewrite Hk. cbn [mbind outcome_bind].
  destruct (ExploreFacts.exploreProb_Done (Z.to_nat k)) as (p & Hp & _).
  rewrite Hp. cbn [mbind outcome_bind XReal.xlt].
  destruct (Rltb u p).
  - eexists. split; [done|].
    unfold randidx. rewrite decide_False by lia.
    apply Nat.mod_upper_bound. lia.
  - destruct (thompson_loop_first K (PTW.posterior s (pick lp))
                (fun i => beta_params (PTW.rewards_of i
                   (drop (PTW.block_start 30 (pick lp) (length obs))
                         (map swap_obs obs))))
                sample ltac:(lia)) as (a & Ha & Hlt & _).
    { intros i Hi. by apply Hpost. }
    exists a. split; [done|lia].
Qed.

(** Two arms, a reward 1 on arm 0 and a reward 0 on arm 1; the level drawn
    is the root, the uniform draw is 1/2 and the sample of arm i is i. *)
Lemma paranoid_getAction_returns_arm_witness :
  exists pst,
    updates_paranoid (make_paranoid 2) [(0%nat, true); (1%nat, false)]
      = Done pst /\
    m_trials pst = Z.of_nat (length [(0%nat, true); (1%nat, false)]) /\
    (forall f, levelPosterior (m_aptw pst) = Failed f ->
       f = AssertionFailed /\
       getAction_paranoid 32 pst (fun _ => 0%nat) (1 / 2) 5 (fun i _ => INR i)
       = Failed f) /\
    (forall lp, levelPosterior (m_aptw pst) = Done lp ->
       exists a,
         getAction_paranoid 32 pst (fun _ => 0%nat) (1 / 2) 5
                            (fun i _ => INR i) = Done a /\
         (a < 2)%nat).
Proof.
  apply (paranoid_getAction_returns_arm 2 32 [(0%nat, true); (1%nat, false)]
           (fun _ => 0%nat) (1 / 2) 5 (fun i _ => INR i)).
  - lia.
  - lia.
  - repeat constructor; simpl; lia.
  - simpl. lia.
  - intros lp Hlp. destruct lp; [done|simpl; lia].
Defined.
End SamplingFacts.

(** ** The statistics of the plot *)

Module PlotFacts.
Import Plot.

Lemma total_loop_spec (term : nat -> outcome R) (f : nat -> R) :
  forall iters j total,
    (forall i, (j <= i < j + iters)%nat -> term i = Done (f i)) ->
    total_loop term iters j total
    = Done (total + PTW.Rsum (map f (seq j iters))).
Proof.
  induction iters as [|iters IH]; intros j total Hterm.
  - simpl. unfold mret, outcome_ret. f_equal. lra.
  - cbn [total_loop]. rewrite (Hterm j) by lia. cbn [mbind outcome_bind].
    rewrite IH by (intros i Hi; apply Hterm; lia).
    simpl. f_equal. lra.
Qed.

(** The loop fails at the first term that fails. *)
Lemma total_loop_fails (term : nat -> outcome R) (f : nat -> R) (k : nat)
    (e : failure) :
  term k = Failed e ->
  forall iters j total,
    (j <= k < j + iters)%nat ->
    (forall i, (j <= i < k)%nat -> term i = Done (f i)) ->
    total_loop term iters j total = Failed e.
Proof.
  intros Hk. induction iters as [|iters IH]; intros j total Hj Hterm; [lia|].
  cbn [total_loop]. destruct (decide (j = k)) as [->|Hne].
  - by rewrite Hk.
  - rewrite (Hterm j) by lia. cbn [mbind outcome_bind].
    apply IH; [lia|]. intros i Hi. apply Hterm. lia.
Qed.

Lemma each_step_spec {A : Type} (body : nat -> outcome A) (g : nat -> A) :
  forall iters t out,
    (forall i, (t <= i < t + iters)%nat -> body i = Done (g i)) ->
    each_step body iters t out = Done (out ++ map g (seq t iters)).
Proof.
  induction iters as [|iters IH]; intros t out Hbody.
  - simpl. by rewrite app_nil_r.
  - cbn [each_step]. rewrite (Hbody t) by lia. cbn [mbind outcome_bind].
    rewrite IH by (intros i Hi; apply Hbody; lia).
    by rewrite <- app_assoc.
Qed.

Lemma each_step_fails_first {A : Type} (body : nat -> outcome A)
    (e : failure) (iters t : nat) (out : list A) :
  body t = Failed e -> (1 <= iters)%nat ->
  each_step body iters t out = Failed e.
Proof.
  intros Hbody Hiters. destruct iters as [|iters]; [lia|].
  cbn [each_step]. by rewrite Hbody.
Qed.

Section Shape.

Variables (regrets : list (list R)) (PlotRepeats Trials : nat).
Hypothesis Hrows : length regrets = PlotRepeats.
Hypothesis Hcols : Forall (fun row => length row = Trials) regrets.

Lemma regret_lookup j t :
  (j < PlotRepeats)%nat -> (t < Trials)%nat ->
  exists row, regrets !! j = Some row /\ row !! t = Some (regret_at regrets j t).
Proof.
  intros Hj Ht.
  destruct (lookup_lt_is_Some_2 regrets j ltac:(lia)) as [row Hrow].
  pose proof (Forall_lookup_1 _ _ _ _ Hcols Hrow) as Hlen. simpl in Hlen.
  destruct (lookup_lt_is_Some_2 row t ltac:(lia)) as [x Hx].
  exists row. split; [done|]. unfold regret_at.
  rewrite (nth_lookup_Some _ _ [] _ Hrow).
  by rewrite (nth_lookup_Some _ _ 0 _ Hx).
Qed.

(** The mean of the regrets at the time of index [t]. *)
Let mean (t : nat) : R :=
  PTW.Rsum (map (fun j => regret_at regrets j t) (seq 0 PlotRepeats))
  / INR PlotRepeats.

Lemma mean_at_spec t :
  (1 <= t <= Trials)%nat ->
  mean_at regrets PlotRepeats t = Done (mean (t - 1)).
Proof.
  intros Ht. unfold mean_at.
  rewrite (total_loop_spec _ (fun j => regret_at regrets j (t - 1))).
  - cbn [mbind outcome_bind]. unfold mret, outcome_ret, mean. f_equal.
    by rewrite Rplus_0_l.
  - intros j Hj.
    destruct (regret_lookup j (t - 1) ltac:(lia) ltac:(lia))
      as (row & Hrow & Hx).
    rewrite (vget_lookup _ _ _ Hrow). cbn [mbind outcome_bind].
    by apply vget_lookup.
Qed.

Lemma means_of_spec :
  means_of regrets PlotRepeats Trials = Done (map mean (seq 0 Trials)).
Proof.
  unfold means_of.
  rewrite (each_step_spec _ (fun t => mean (t - 1))).
  - simpl. f_equal. rewrite <- seq_shift, map_map.
    apply map_ext. intros t. by rewrite Nat.sub_succ, Nat.sub_0_r.
  - intros t Ht. apply mean_at_spec. lia.
Qed.

(** The term of the inner loop of the interval at repeat [j]. *)
Lemma ci_term (means : list R) (t j : nat) :
  length means = Trials -> (1 <= t <= Trials)%nat -> (j < PlotRepeats)%nat ->
  (row ← vget regrets j; x ← vget row (t - 1); m ← vget means j;
   mret ((x - m) ^ 2))
  = if decide (j < Trials)%nat
    then Done ((regret_at regrets j (t - 1) - nth j means 0) ^ 2)
    else Failed OutOfBounds.
Proof.
  intros Hm Ht Hj.
  destruct (regret_lookup j (t - 1) Hj ltac:(lia)) as (row & Hrow & Hx).
  rewrite (vget_lookup _ _ _ Hrow). cbn [mbind outcome_bind].
  rewrite (vget_lookup _ _ _ Hx). cbn [mbind outcome_bind].
  destruct (decide (j < Trials)%nat) as [Hlt|Hge].
  - destruct (lookup_lt_is_Some_2 means j ltac:(lia)) as [m Hmj].
    rewrite (vget_lookup _ _ _ Hmj). cbn [mbind outcome_bind].
    by rewrite (nth_lookup_Some _ _ 0 _ Hmj).
  - unfold vget. rewrite lookup_ge_None_2 by lia. done.
Qed.

(** The sum of the squared deviations is not negative. *)
Lemma Rsum_squares_nonneg (f : nat -> R) (l : list nat) :
  0 <= PTW.Rsum (map (fun j => f j ^ 2) l).
Proof.
  induction l as [|j l IH]; [simpl; lra|].
  cbn [map PTW.Rsum fold_right]. fold (PTW.Rsum (map (fun j => f j ^ 2) l)).
  pose proof (pow2_ge_0 (f j)). lra.
Qed.

(** With two repeats or more the half-width is a finite double. *)
Lemma half_width_finite (total : R) :
  (2 <= PlotRepeats)%nat -> 0 <= total ->
  XReal.xmul (XReal.Fin (196 / 100))
    (XReal.xdiv
       (XReal.xsqrt (XReal.xdiv (XReal.Fin total)
                                (XReal.Fin (INR PlotRepeats - 1))))
       (XReal.xsqrt (XReal.Fin (INR PlotRepeats))))
  = XReal.Fin (196 / 100 *
               (sqrt (total / (INR PlotRepeats - 1))
                / sqrt (INR PlotRepeats))).
Proof.
  intros Hn Htotal.
  assert (Hr : 2 <= INR PlotRepeats).
  { change 2 with (INR 2). by apply le_INR. }
  assert (Hvar : 0 <= total / (INR PlotRepeats - 1)).
  { apply Rmult_le_pos; [done|]. apply Rlt_le, Rinv_0_lt_compat. lra. }
  assert (Hs : 0 < sqrt (INR PlotRepeats)) by (apply sqrt_lt_R0; lra).
  unfold XReal.xdiv at 2.
  rewrite (proj2 (Reqb_false (INR PlotRepeats - 1) 0)) by lra.
  unfold XReal.xsqrt.
  rewrite (proj2 (Rltb_false (total / (INR PlotRepeats - 1)) 0)) by lra.
  rewrite (proj2 (Rltb_false (INR PlotRepeats) 0)) by lra.
  unfold XReal.xdiv.
  rewrite (proj2 (Reqb_false (sqrt (INR PlotRepeats)) 0)) by lra.
  done.
Qed.

Lemma cis_of_spec (means : list R) :
  length means = Trials -> (1 <= Trials)%nat -> (2 <= PlotRepeats)%nat ->
  cis_of regrets means PlotRepeats Trials
  = if decide (PlotRepeats <= Trials)%nat
    then Done (map (fun t => XReal.Fin (
           196 / 100 *
           (sqrt (PTW.Rsum (map (fun j => (regret_at regrets j t
                                           - nth j means 0) ^ 2)
                                (seq 0 PlotRepeats))
                  / (INR PlotRepeats - 1))
            / sqrt (INR PlotRepeats))))
           (seq 0 Trials))
    else Failed OutOfBounds.
Proof.
  intros Hm HT Hn. unfold cis_of.
  destruct (decide (PlotRepeats <= Trials)%nat) as [Hle|Hgt].
  - rewrite (each_step_spec _ (fun t => XReal.Fin (
           196 / 100 *
           (sqrt (PTW.Rsum (map (fun j => (regret_at regrets j (t - 1)
                                           - nth j means 0) ^ 2)
                                (seq 0 PlotRepeats))
                  / (INR PlotRepeats - 1))
            / sqrt (INR PlotRepeats))))).
    + simpl. f_equal. rewrite <- seq_shift, map_map.
      apply map_ext. intros t. by rewrite Nat.sub_succ, Nat.sub_0_r.
    + intros t Ht. unfold ci_at.
      rewrite (total_loop_spec _
                 (fun j => (regret_at regrets j (t - 1) - nth j means 0) ^ 2)).
      * cbn [mbind outcome_bind]. unfold mret, outcome_ret.
        rewrite Rplus_0_l. f_equal. apply half_width_finite; [done|].
        apply (Rsum_squares_nonneg
                 (fun j => regret_at regrets j (t - 1) - nth j means 0)).
      * intros j Hj. rewrite ci_term by lia. by rewrite decide_True by lia.
  - apply each_step_fails_first; [|done]. unfold ci_at.
    rewrite (total_loop_fails _
               (fun j => (regret_at regrets j (1 - 1) - nth j means 0) ^ 2)
               Trials OutOfBounds).
    + done.
    + rewrite ci_term by lia. by rewrite decide_False by lia.
    + lia.
    + intros j Hj. rewrite ci_term by lia. by rewrite decide_True by lia.
Qed.

End Shape.

(** X26. The statistics that [plotMode] computes for one agent from
    [PlotRepeats] >= 2 vectors of [Trials] regrets.  The means are the
    means over the repeats, time by time.  In the loop of the confidence
    intervals the mean is read at the index of the repeat, not of the
    time: with more repeats than trials the read goes past the end of the
    vector of means, and otherwise the interval at time t is built from
    the deviations of the regrets at time t to the means of the times
    1 .. PlotRepeats, and it is a finite double. *)
Theorem plot_intervals_index_means_by_repeat (regrets : list (list R))
    (PlotRepeats Trials : nat) :
  length regrets = PlotRepeats ->
  Forall (fun row => length row = Trials) regrets ->
  (1 <= Trials)%nat -> (2 <= PlotRepeats)%nat ->
  exists means,
    means_of regrets PlotRepeats Trials = Done means /\
    means = map (fun t =>
              PTW.Rsum (map (fun j => regret_at regrets j t)
                            (seq 0 PlotRepeats)) / INR PlotRepeats)
              (seq 0 Trials) /\
    ((Trials < PlotRepeats)%nat ->
     cis_of regrets means PlotRepeats Trials = Failed OutOfBounds) /\
    ((PlotRepeats <= Trials)%nat ->
     cis_of regrets means PlotRepeats Trials
     = Done (map (fun t => XReal.Fin (
           196 / 100 *
           (sqrt (PTW.Rsum (map (fun j => (regret_at regrets j t
                                           - nth j means 0) ^ 2)
                                (seq 0 PlotRepeats))
                  / (INR PlotRepeats - 1))
            / sqrt (INR PlotRepeats))))
           (seq 0 Trials))).
Proof.
  intros Hrows Hcols HT Hn. eexists. split_and!.
  - by apply means_of_spec.
  - done.
  - intros Hgt. rewrite (cis_of_spec regrets PlotRepeats Trials Hrows Hcols);
      [|by rewrite length_map, length_seq|done|done].
    by rewrite decide_False by lia.
  - intros Hle. rewrite (cis_of_spec regrets PlotRepeats Trials Hrows Hcols);
      [|by rewrite length_map, length_seq|done|done].
    by rewrite decide_True by lia.
Qed.

(** Two repeats of one trial, with the regrets 1 and 3. *)
Lemma plot_intervals_index_means_by_repeat_witness :
  exists means,
    means_of [[1]; [3]] 2 1 = Done means /\
    means = map (fun t =>
              PTW.Rsum (map (fun j => regret_at [[1]; [3]] j t) (seq 0 2))
              / INR 2)
              (seq 0 1) /\
    cis_of [[1]; [3]] means 2 1 = Failed OutOfBounds.
Proof.
  destruct (plot_intervals_index_means_by_repeat [[1]; [3]] 2 1)
    as (means & Hm & Heq & Hfail & _).
  - reflexivity.
  - repeat constructor.
  - lia.
  - lia.
  - exists means. split; [exact Hm|]. split; [exact Heq|].
    apply Hfail. lia.
Defined.

End PlotFacts.
